(** * A generic chained hash table (hash_table.c / hash_table.h)

    The table is an array of bucket pointers.  A bucket anchors a chain of
    fill entries kept in ascending order of the compare strategy; every fill
    entry anchors a second chain holding the objects that compare equal to
    its representative.  The development embeds the C functions
    [Hash_Table_Init], [Hash_Table_Insert], [Hash_Table_Insert_No_Duplicate],
    [Hash_Table_Match], [Hash_Table_First_Match] and [Hash_Table_Size] over an
    explicit memory (one finite map per node type, keyed by address) and
    proves the properties of the written specification about them.
    [Hash_Table_Free], which ends the life of the table, comes after them,
    with what the code shows about lookups, failed allocations and
    teardown. *)

From Stdlib Require Import ZArith Lia.
From stdpp Require Import base option list gmap sets strings sorting.

Local Open Scope Z_scope.

(** ** Platform constants

    The source uses [unsigned long] arithmetic and [sizeof]; neither the
    width nor the structure sizes are fixed by the repository, so they are
    parameters.  [SIZE_MAX] bounds the number of bytes that can be live at
    once (objects do not overlap and lie inside the address space). *)

Record platform := Platform {
  ULONG_MAX : Z;
  SIZE_MAX : Z;
  sizeof_hash_table_t : Z;
  sizeof_pointer : Z;
  sizeof_hash_table_bucket_t : Z;
  sizeof_hash_table_fill_t : Z;
  sizeof_hash_table_duplicate_t : Z
}.

(** Every structure occupies at least one byte, and an [unsigned long] can
    hold any object size (true of the LP64 and ILP32 data models, not of
    LLP64).  Only the results that read a counter or [Hash_Table_Size]
    assume it: the counters are [unsigned long] and the nodes are bounded
    by the address space. *)
Record platform_ok (pf : platform) : Prop := {
  ok_table : 0 < sizeof_hash_table_t pf;
  ok_pointer : 0 < sizeof_pointer pf;
  ok_bucket : 0 < sizeof_hash_table_bucket_t pf;
  ok_fill : 0 < sizeof_hash_table_fill_t pf;
  ok_duplicate : 0 < sizeof_hash_table_duplicate_t pf;
  ok_size_max : SIZE_MAX pf <= ULONG_MAX pf
}.

(** The layout of hash_table.h on a 64-bit Unix: nine words for the table,
    two for a bucket, four for a fill entry, two for a duplicate entry. *)
Definition LP64 : platform :=
  Platform (2 ^ 64 - 1) (2 ^ 64 - 1) 72 8 16 32 16.

(** ** Memory and table structures *)

(** A pointer is [Some a] or [None] (NULL). *)
Abbreviation addr := positive (only parsing).
Abbreviation ptr := (option positive) (only parsing).

Inductive fault :=
| BucketIndexOutOfRange   (* table->buckets[i] with i outside the array *)
| RecordIndexOutOfRange   (* found_records[i] with i outside the array *)
| InvalidPointer          (* dereference of NULL or of a released node *)
| LoopBound.              (* a chain longer than the memory holding it *)

Inductive outcome (S R : Type) :=
| Done (r : R) (s : S)
| Fault (f : fault).
Arguments Done {S R} r s.
Arguments Fault {S R} f.

Section Model.

Context {Obj : Type}.
Variable pf : platform.

(** [unsigned long] arithmetic wraps. *)
Definition ulong (z : Z) : Z := z mod (ULONG_MAX pf + 1).

Record hash_table_duplicate_t := Duplicate {
  dup_object : Obj;
  next_duplicate : ptr
}.

Record hash_table_fill_t := Fill {
  object : Obj;
  next_fill : ptr;
  first_duplicate : ptr;
  last_duplicate : ptr
}.

Record hash_table_bucket_t := Bucket {
  first_fill : ptr;
  last_fill : ptr
}.

Record hash_table_t := Table {
  buckets : list ptr;
  number_of_total_buckets : Z;
  number_of_buckets_filled : Z;
  number_of_collisions : Z;
  number_of_duplicates : Z;
  hash_function : string -> Z -> Z;
  compare_function : Obj -> Obj -> Z;
  search_function : string -> Obj -> Z
}.

(** The state: the table record, the three kinds of nodes, and the
    allocator.  [alloc_script] lists the answers of the coming [calloc]
    calls ([false] is a refusal); once it is used up [calloc] is refused
    only for lack of space. *)
Record state := State {
  table : hash_table_t;
  bucket_mem : gmap positive hash_table_bucket_t;
  fill_mem : gmap positive hash_table_fill_t;
  dup_mem : gmap positive hash_table_duplicate_t;
  live_bytes : Z;
  alloc_script : list bool
}.

Definition set_table (t : hash_table_t) (s : state) : state :=
  State t (bucket_mem s) (fill_mem s) (dup_mem s) (live_bytes s) (alloc_script s).
Definition set_bucket_mem m (s : state) : state :=
  State (table s) m (fill_mem s) (dup_mem s) (live_bytes s) (alloc_script s).
Definition set_fill_mem m (s : state) : state :=
  State (table s) (bucket_mem s) m (dup_mem s) (live_bytes s) (alloc_script s).
Definition set_dup_mem m (s : state) : state :=
  State (table s) (bucket_mem s) (fill_mem s) m (live_bytes s) (alloc_script s).
Definition set_allocator (b : Z) (k : list bool) (s : state) : state :=
  State (table s) (bucket_mem s) (fill_mem s) (dup_mem s) b k.

Definition set_buckets (bs : list ptr) (t : hash_table_t) : hash_table_t :=
  Table bs (number_of_total_buckets t) (number_of_buckets_filled t)
    (number_of_collisions t) (number_of_duplicates t)
    (hash_function t) (compare_function t) (search_function t).
Definition set_buckets_filled (n : Z) (t : hash_table_t) : hash_table_t :=
  Table (buckets t) (number_of_total_buckets t) n
    (number_of_collisions t) (number_of_duplicates t)
    (hash_function t) (compare_function t) (search_function t).
Definition set_collisions (n : Z) (t : hash_table_t) : hash_table_t :=
  Table (buckets t) (number_of_total_buckets t) (number_of_buckets_filled t)
    n (number_of_duplicates t)
    (hash_function t) (compare_function t) (search_function t).
Definition set_duplicates (n : Z) (t : hash_table_t) : hash_table_t :=
  Table (buckets t) (number_of_total_buckets t) (number_of_buckets_filled t)
    (number_of_collisions t) n
    (hash_function t) (compare_function t) (search_function t).

(** ** A state monad with faults *)

Definition M (R : Type) : Type := state -> outcome state R.

Definition ret {R} (r : R) : M R := fun s => Done r s.
Definition bind {R T} (c : M R) (k : R -> M T) : M T :=
  fun s => match c s with
           | Done r s' => k r s'
           | Fault f => Fault f
           end.
Definition fail {R} (f : fault) : M R := fun _ => Fault f.
Definition get : M state := fun s => Done s s.
Definition modify (g : state -> state) : M unit := fun s => Done tt (g s).

Notation "x <- c ;; k" := (bind c (fun x => k))
  (at level 100, c at next level, right associativity).
Notation "c ;; k" := (bind c (fun _ => k))
  (at level 100, right associativity).

(** ** The allocator *)

(** [calloc n size] can succeed only if the block fits next to what is
    live; whether it then does is read off the script. *)
Definition fits (n size live : Z) : bool :=
  (0 <=? n * size) && (live + n * size <=? SIZE_MAX pf).

Definition calloc_answer (n size live : Z) (script : list bool)
  : bool * list bool :=
  match script with
  | b :: rest => (b && fits n size live, rest)
  | [] => (fits n size live, [])
  end.

Definition calloc (n size : Z) : M bool :=
  s <- get ;;
  let '(ok, rest) := calloc_answer n size (live_bytes s) (alloc_script s) in
  modify (set_allocator
            (if ok then live_bytes s + n * size else live_bytes s) rest) ;;
  ret ok.

Definition release (bytes : Z) : M unit :=
  modify (fun s => set_allocator (live_bytes s - bytes) (alloc_script s) s).

(** An address no node of the table lives at. *)
Definition fresh_addr (s : state) : positive :=
  fresh (dom (bucket_mem s) ∪ dom (fill_mem s) ∪ dom (dup_mem s)).

(** [calloc(1, sizeof(hash_table_bucket_t))]: a bucket with both links NULL. *)
Definition calloc_bucket : M ptr :=
  ok <- calloc 1 (sizeof_hash_table_bucket_t pf) ;;
  if ok : bool then
    s <- get ;;
    let a := fresh_addr s in
    modify (set_bucket_mem (<[a := Bucket None None]> (bucket_mem s))) ;;
    ret (Some a)
  else ret None.

(** [calloc(1, sizeof(hash_table_fill_t))] followed by [->object = object]:
    the other three links stay NULL. *)
Definition calloc_fill (o : Obj) : M ptr :=
  ok <- calloc 1 (sizeof_hash_table_fill_t pf) ;;
  if ok : bool then
    s <- get ;;
    let a := fresh_addr s in
    modify (set_fill_mem (<[a := Fill o None None None]> (fill_mem s))) ;;
    ret (Some a)
  else ret None.

(** [calloc(1, sizeof(hash_table_duplicate_t))] followed by
    [->object = object]. *)
Definition calloc_duplicate (o : Obj) : M ptr :=
  ok <- calloc 1 (sizeof_hash_table_duplicate_t pf) ;;
  if ok : bool then
    s <- get ;;
    let a := fresh_addr s in
    modify (set_dup_mem (<[a := Duplicate o None]> (dup_mem s))) ;;
    ret (Some a)
  else ret None.

(** [free(new_bucket)] *)
Definition free_bucket (a : positive) : M unit :=
  modify (fun s => set_bucket_mem (delete a (bucket_mem s)) s) ;;
  release (sizeof_hash_table_bucket_t pf).

(** ** Loads and stores *)

Definition load_bucket (a : positive) : M hash_table_bucket_t :=
  s <- get ;;
  match bucket_mem s !! a with
  | Some b => ret b
  | None => fail InvalidPointer
  end.

Definition load_fill (a : positive) : M hash_table_fill_t :=
  s <- get ;;
  match fill_mem s !! a with
  | Some f => ret f
  | None => fail InvalidPointer
  end.

Definition load_duplicate (a : positive) : M hash_table_duplicate_t :=
  s <- get ;;
  match dup_mem s !! a with
  | Some d => ret d
  | None => fail InvalidPointer
  end.

Definition store_bucket (a : positive) (b : hash_table_bucket_t) : M unit :=
  load_bucket a ;;
  modify (fun s => set_bucket_mem (<[a := b]> (bucket_mem s)) s).

Definition store_fill (a : positive) (f : hash_table_fill_t) : M unit :=
  load_fill a ;;
  modify (fun s => set_fill_mem (<[a := f]> (fill_mem s)) s).

Definition store_duplicate (a : positive) (d : hash_table_duplicate_t)
  : M unit :=
  load_duplicate a ;;
  modify (fun s => set_dup_mem (<[a := d]> (dup_mem s)) s).

(** [table->buckets[i]], read and written.  Nothing in the source compares
    [i] with [number_of_total_buckets]. *)
Definition read_slot (i : Z) : M ptr :=
  s <- get ;;
  if 0 <=? i then
    match buckets (table s) !! Z.to_nat i with
    | Some p => ret p
    | None => fail BucketIndexOutOfRange
    end
  else fail BucketIndexOutOfRange.

Definition write_slot (i : Z) (p : ptr) : M unit :=
  read_slot i ;;
  modify (fun s =>
    set_table (set_buckets (<[Z.to_nat i := p]> (buckets (table s)))
                 (table s)) s).

(** A dereference of a pointer that may be NULL. *)
Definition deref {R} (p : ptr) (k : positive -> M R) : M R :=
  match p with
  | Some a => k a
  | None => fail InvalidPointer
  end.

(** ** Hash_Table_Init *)

(** Both blocks come from [calloc], so every bucket slot starts NULL and
    the three counters start at zero.  The result is [None] when either
    allocation is refused (the source returns NULL).  The strategies are
    functions, so the three assertions of the source hold by typing. *)
Definition Hash_Table_Init (number_of_buckets : Z)
    (hash_fun : string -> Z -> Z) (compare_fun : Obj -> Obj -> Z)
    (search_fun : string -> Obj -> Z)
    (live : Z) (script : list bool) : option state :=
  let '(ok1, script1) :=
    calloc_answer 1 (sizeof_hash_table_t pf) live script in
  if ok1 : bool then
    let live1 := live + 1 * sizeof_hash_table_t pf in
    let '(ok2, script2) :=
      calloc_answer number_of_buckets (sizeof_pointer pf) live1 script1 in
    if ok2 : bool then
      Some (State
              (Table (replicate (Z.to_nat number_of_buckets) None)
                 number_of_buckets 0 0 0 hash_fun compare_fun search_fun)
              ∅ ∅ ∅
              (live1 + number_of_buckets * sizeof_pointer pf) script2)
    else None
  else None.

(** ** Hash_Table_Insert *)

(** How the [while] loop of [Hash_Table_Insert] is left: by the [return 0]
    inside it, or with the values of its three variables. *)
Inductive walk_exit :=
| Returned (r : Z)
| Left (current_bucket_fill prev_bucket_fill : ptr) (objectPlaced : bool).

Definition increment_buckets_filled : M unit :=
  modify (fun s => set_table
    (set_buckets_filled (ulong (number_of_buckets_filled (table s) + 1))
       (table s)) s).

Definition increment_collisions : M unit :=
  modify (fun s => set_table
    (set_collisions (ulong (number_of_collisions (table s) + 1))
       (table s)) s).

Definition increment_duplicates : M unit :=
  modify (fun s => set_table
    (set_duplicates (ulong (number_of_duplicates (table s) + 1))
       (table s)) s).

(** The loop of lines 137-184.  [objectPlaced] is set only by the
    duplicate branch, after which the loop condition fails, so that branch
    leaves the loop at once. *)
Fixpoint insert_walk (fuel : nat) (obj : Obj)
    (current_bucket_fill prev_bucket_fill : ptr) : M walk_exit :=
  match fuel with
  | O => fail LoopBound
  | S fuel' =>
    match current_bucket_fill with
    | None => ret (Left None prev_bucket_fill false)
    | Some c =>
      s <- get ;;
      cur <- load_fill c ;;
      let compareVal := compare_function (table s) (object cur) obj in
      if compareVal =? 0 then
        let current_dup := last_duplicate cur in
        new_node_duplicate <- calloc_duplicate obj ;;
        match new_node_duplicate with
        | None => ret (Returned 0)
        | Some n =>
          match current_dup with
          | Some d =>
            dn <- load_duplicate d ;;
            store_duplicate d (Duplicate (dup_object dn) (Some n))
          | None =>
            f <- load_fill c ;;
            store_fill c
              (Fill (object f) (next_fill f) (Some n) (last_duplicate f))
          end ;;
          f <- load_fill c ;;
          store_fill c
            (Fill (object f) (next_fill f) (first_duplicate f) (Some n)) ;;
          increment_duplicates ;;
          ret (Left (Some c) prev_bucket_fill true)
        end
      else if compareVal <? 0 then
        insert_walk fuel' obj (next_fill cur) (Some c)
      else
        ret (Left (Some c) prev_bucket_fill false)
    end
  end.

Definition Hash_Table_Insert (obj : Obj) (pattern : string) : M Z :=
  s <- get ;;
  let hashedIndex :=
    hash_function (table s) pattern (number_of_total_buckets (table s)) in
  slot <- read_slot hashedIndex ;;
  match slot with
  | None =>
    new_bucket <- calloc_bucket ;;
    match new_bucket with
    | None => ret 0
    | Some nb =>
      new_bucket_fill <- calloc_fill obj ;;
      match new_bucket_fill with
      | None => free_bucket nb ;; ret 0
      | Some nf =>
        store_bucket nb (Bucket (Some nf) (Some nf)) ;;
        write_slot hashedIndex (Some nb) ;;
        increment_buckets_filled ;;
        ret 1
      end
    end
  | Some b =>
    bk <- load_bucket b ;;
    s1 <- get ;;
    w <- insert_walk (S (size (fill_mem s1))) obj (first_fill bk) None ;;
    match w with
    | Returned r => ret r
    | Left _ _ true => ret 1
    | Left current_bucket_fill prev_bucket_fill false =>
      new_bucket_fill <- calloc_fill obj ;;
      match new_bucket_fill with
      | None => ret 0
      | Some nf =>
        match current_bucket_fill with
        | Some _ =>
          f <- load_fill nf ;;
          store_fill nf
            (Fill (object f) current_bucket_fill
               (first_duplicate f) (last_duplicate f))
        | None =>
          slot' <- read_slot hashedIndex ;;
          deref slot' (fun b' =>
            bk' <- load_bucket b' ;;
            store_bucket b' (Bucket (first_fill bk') (Some nf)))
        end ;;
        match prev_bucket_fill with
        | Some p =>
          f <- load_fill p ;;
          store_fill p
            (Fill (object f) (Some nf) (first_duplicate f) (last_duplicate f))
        | None =>
          slot' <- read_slot hashedIndex ;;
          deref slot' (fun b' =>
            bk' <- load_bucket b' ;;
            store_bucket b' (Bucket (Some nf) (last_fill bk')))
        end ;;
        increment_collisions ;;
        ret 1
      end
    end
  end.

(** ** Hash_Table_Match *)

(** [found_records[i] = o] and [found_records[i]] on the array returned by
    [calloc(max_num_records, sizeof(void * ))]. *)
Definition write_record (found_records : list (option Obj)) (i : Z) (o : Obj)
  : M (list (option Obj)) :=
  if (0 <=? i) && (i <? Z.of_nat (length found_records)) then
    ret (<[Z.to_nat i := Some o]> found_records)
  else fail RecordIndexOutOfRange.

Definition read_record (found_records : list (option Obj)) (i : Z)
  : M (option Obj) :=
  if 0 <=? i then
    match found_records !! Z.to_nat i with
    | Some o => ret o
    | None => fail RecordIndexOutOfRange
    end
  else fail RecordIndexOutOfRange.

(** The inner loop of lines 363-372; [found] is [*number_of_objects_found]. *)
Fixpoint collect_duplicates (fuel : nat) (found_records : list (option Obj))
    (found max_num_records : Z) (current_dup : ptr)
  : M (list (option Obj) * Z) :=
  match fuel with
  | O => fail LoopBound
  | S fuel' =>
    match current_dup with
    | None => ret (found_records, found)
    | Some d =>
      if found <? max_num_records then
        dn <- load_duplicate d ;;
        found_records' <- write_record found_records found (dup_object dn) ;;
        collect_duplicates fuel' found_records' (ulong (found + 1))
          max_num_records (next_duplicate dn)
      else ret (found_records, found)
    end
  end.

(** The outer loop of lines 346-381.  The result pairs the returned array
    (or NULL) with the final [*number_of_objects_found].  The message
    printed when the array cannot be allocated is not modelled. *)
Fixpoint match_walk (fuel : nat) (pattern : string)
    (found max_num_records : Z) (current_fill : ptr)
  : M (option (list (option Obj)) * Z) :=
  match fuel with
  | O => fail LoopBound
  | S fuel' =>
    match current_fill with
    | None => ret (None, found)
    | Some c =>
      s <- get ;;
      cur <- load_fill c ;;
      if search_function (table s) pattern (object cur) =? 1 then
        ok <- calloc max_num_records (sizeof_pointer pf) ;;
        if ok : bool then
          let found_records := replicate (Z.to_nat max_num_records) None in
          found_records <- write_record found_records 0 (object cur) ;;
          s2 <- get ;;
          r <- collect_duplicates (S (size (dup_mem s2))) found_records
                 (ulong (found + 1)) max_num_records (first_duplicate cur) ;;
          ret (Some (fst r), snd r)
        else ret (None, found)
      else match_walk fuel' pattern found max_num_records (next_fill cur)
    end
  end.

(** [number_of_objects_found] is the value [*number_of_objects_found]
    holds on entry. *)
Definition Hash_Table_Match (pattern : string)
    (number_of_objects_found max_num_records : Z)
  : M (option (list (option Obj)) * Z) :=
  s <- get ;;
  let key :=
    hash_function (table s) pattern (number_of_total_buckets (table s)) in
  bucket <- read_slot key ;;
  match bucket with
  | None => ret (None, 0)
  | Some b =>
    bk <- load_bucket b ;;
    s1 <- get ;;
    match_walk (S (size (fill_mem s1))) pattern number_of_objects_found
      max_num_records (first_fill bk)
  end.

(** ** Hash_Table_First_Match *)

Definition Hash_Table_First_Match (pattern : string) : M (option Obj) :=
  r <- Hash_Table_Match pattern 0 1 ;;
  match fst r with
  | Some found_objects =>
    found_object <- read_record found_objects 0 ;;
    release (1 * sizeof_pointer pf) ;;
    ret found_object
  | None => ret None
  end.

(** ** Hash_Table_Insert_No_Duplicate *)

(** The result pairs the returned code with the final [*found_duplicate]. *)
Definition Hash_Table_Insert_No_Duplicate (obj : Obj) (pattern : string)
    (found_duplicate : option Obj) : M (Z * option Obj) :=
  r <- Hash_Table_Match pattern 0 1 ;;
  let '(object_temp, number_records) := r in
  if number_records =? 0 then
    i <- Hash_Table_Insert obj pattern ;;
    if i =? 0 then ret (-1, found_duplicate) else ret (1, found_duplicate)
  else
    match object_temp with
    | Some found_objects =>
      o <- read_record found_objects 0 ;;
      release (1 * sizeof_pointer pf) ;;
      ret (0, o)
    | None => fail InvalidPointer
    end.

(** ** Hash_Table_Size *)

Definition Hash_Table_Size (t : hash_table_t) : Z :=
  let table_size :=
    ulong (sizeof_hash_table_t pf
           + ulong (number_of_total_buckets t * sizeof_pointer pf)) in
  let bucket_size :=
    ulong (number_of_buckets_filled t * sizeof_hash_table_bucket_t pf) in
  let bucket_fill_size :=
    ulong (ulong (number_of_buckets_filled t + number_of_collisions t)
           * sizeof_hash_table_fill_t pf) in
  let bucket_duplicate_size :=
    ulong (number_of_duplicates t * sizeof_hash_table_duplicate_t pf) in
  ulong (ulong (ulong (table_size + bucket_size) + bucket_fill_size)
         + bucket_duplicate_size).

End Model.

Arguments hash_table_duplicate_t : clear implicits.
Arguments hash_table_fill_t : clear implicits.
Arguments hash_table_t : clear implicits.
Arguments state : clear implicits.
Arguments walk_exit : clear implicits.

Notation "x <- c ;; k" := (bind c (fun x => k))
  (at level 100, c at next level, right associativity).
Notation "c ;; k" := (bind c (fun _ => k))
  (at level 100, right associativity).

(** ** The shape of a table

    The logical content of the memory, every node tagged with its address:
    a fill entry with its representative and its duplicate chain, a bucket
    with its chain of fill entries, the table with one optional bucket per
    slot. *)

Record fill_shape (Obj : Type) := FillShape {
  fa : positive;
  fobj : Obj;
  fdups : list (positive * Obj)
}.
Arguments FillShape {Obj} fa fobj fdups.
Arguments fa {Obj} f.
Arguments fobj {Obj} f.
Arguments fdups {Obj} f.

Abbreviation bucket_shape Obj := (positive * list (fill_shape Obj))%type (only parsing).
Abbreviation table_shape Obj := (list (option (positive * list (fill_shape Obj)))) (only parsing).

Section Representation.

Context {Obj : Type}.
Implicit Types (ds : list (positive * Obj)) (fs : list (fill_shape Obj)).
Implicit Types (dm : gmap positive (hash_table_duplicate_t Obj)).
Implicit Types (fm : gmap positive (hash_table_fill_t Obj)).
Implicit Types (bm : gmap positive hash_table_bucket_t).

Definition head_addr ds : option positive := fst <$> head ds.
Definition last_addr ds : option positive := fst <$> last ds.

(** The duplicate chain [ds] is laid out in [dm]. *)
Fixpoint dup_chain dm ds : Prop :=
  match ds with
  | [] => True
  | d :: ds' =>
    dm !! d.1 = Some (Duplicate d.2 (head_addr ds')) ∧ dup_chain dm ds'
  end.

Definition fill_node (f : fill_shape Obj) (next : option positive)
  : hash_table_fill_t Obj :=
  Fill (fobj f) next (head_addr (fdups f)) (last_addr (fdups f)).

(** The fill chain [fs], with the duplicate chains hanging off it. *)
Fixpoint fill_chain fm dm fs : Prop :=
  match fs with
  | [] => True
  | f :: fs' =>
    fm !! fa f = Some (fill_node f (fa <$> head fs'))
    ∧ dup_chain dm (fdups f)
    ∧ fill_chain fm dm fs'
  end.

Definition fill_addrs fs : list positive := fa <$> fs.
Definition dup_addrs fs : list positive := fs ≫= (fun f => (fdups f).*1).

Definition bucket_rep bm fm dm (slot : option positive)
    (b : option (positive * list (fill_shape Obj))) : Prop :=
  match b with
  | None => slot = None
  | Some (a, fs) =>
    slot = Some a
    ∧ bm !! a = Some (Bucket (fa <$> head fs) (fa <$> last fs))
    ∧ fill_chain fm dm fs
  end.

Definition fills_of (b : option (positive * list (fill_shape Obj)))
  : list (fill_shape Obj) :=
  match b with Some (_, fs) => fs | None => [] end.

Definition bucket_addr_of (b : option (positive * list (fill_shape Obj)))
  : list positive :=
  match b with Some (a, _) => [a] | None => [] end.

Definition all_bucket_addrs (sh : table_shape Obj) : list positive :=
  sh ≫= bucket_addr_of.
Definition all_fill_addrs (sh : table_shape Obj) : list positive :=
  sh ≫= (fun b => fill_addrs (fills_of b)).
Definition all_dup_addrs (sh : table_shape Obj) : list positive :=
  sh ≫= (fun b => dup_addrs (fills_of b)).

(** *** Chains depend only on the nodes they own *)

Lemma dup_chain_agree dm dm' ds :
  (∀ x, x ∈ ds.*1 → dm' !! x = dm !! x) →
  dup_chain dm ds → dup_chain dm' ds.
Proof.
  induction ds as [|d ds IH]; simpl; [done|].
  intros Hag [Hd Hds]. split.
  - rewrite Hag; [done|]. apply list_elem_of_here.
  - apply IH; [|done]. intros x Hx. apply Hag. by apply list_elem_of_further.
Qed.

Lemma dup_chain_allocated dm ds x :
  dup_chain dm ds → x ∈ ds.*1 → is_Some (dm !! x).
Proof.
  induction ds as [|d ds IH]; simpl; intros Hc Hx.
  - by apply elem_of_nil in Hx.
  - destruct Hc as [Hd Hds]. apply elem_of_cons in Hx as [->|Hx]; eauto.
Qed.

Lemma fill_chain_agree fm fm' dm dm' fs :
  (∀ x, x ∈ fill_addrs fs → fm' !! x = fm !! x) →
  (∀ x, x ∈ dup_addrs fs → dm' !! x = dm !! x) →
  fill_chain fm dm fs → fill_chain fm' dm' fs.
Proof.
  induction fs as [|f fs IH]; simpl; [done|].
  intros Hf Hd (Hn & Hdc & Hfs). split_and!.
  - rewrite Hf; [done|]. apply list_elem_of_here.
  - eapply dup_chain_agree; [|done]. intros x Hx. apply Hd.
    apply elem_of_app. by left.
  - apply IH; [| |done].
    + intros x Hx. apply Hf. by apply list_elem_of_further.
    + intros x Hx. apply Hd. apply elem_of_app. by right.
Qed.

Lemma fill_chain_allocated fm dm fs x :
  fill_chain fm dm fs → x ∈ fill_addrs fs → is_Some (fm !! x).
Proof.
  induction fs as [|f fs IH]; simpl; intros Hc Hx.
  - by apply elem_of_nil in Hx.
  - destruct Hc as (Hn & _ & Hfs).
    apply elem_of_cons in Hx as [->|Hx]; eauto.
Qed.

Lemma fill_chain_dup_allocated fm dm fs x :
  fill_chain fm dm fs → x ∈ dup_addrs fs → is_Some (dm !! x).
Proof.
  induction fs as [|f fs IH]; simpl; intros Hc Hx.
  - by apply elem_of_nil in Hx.
  - destruct Hc as (_ & Hdc & Hfs).
    apply elem_of_app in Hx as [Hx|Hx].
    + eapply dup_chain_allocated; eauto.
    + by apply IH.
Qed.

(** *** Appending to a duplicate chain *)

Lemma dup_chain_snoc dm dm' ds a o :
  dup_chain dm ds →
  NoDup ds.*1 →
  a ∉ ds.*1 →
  dm' !! a = Some (Duplicate o None) →
  (∀ l, last ds = Some l → dm' !! l.1 = Some (Duplicate l.2 (Some a))) →
  (∀ x, x ∈ ds.*1 → Some x ≠ last_addr ds → dm' !! x = dm !! x) →
  dup_chain dm' (ds ++ [(a, o)]).
Proof.
  induction ds as [|d ds IH]; simpl; intros Hc Hnd Ha Hnew Hlast Hold.
  - done.
  - destruct Hc as [Hd Hds]. apply NoDup_cons in Hnd as [Hd1 Hnd].
    apply not_elem_of_cons in Ha as [Had Ha].
    destruct ds as [|d' ds].
    + simpl. split; [|done]. by apply (Hlast d).
    + split.
      * rewrite Hold; [done|apply list_elem_of_here|].
        unfold last_addr. rewrite last_cons_cons.
        destruct (last (d' :: ds)) as [l|] eqn:Hl; [|done]. simpl.
        intros [= Heq]. apply Hd1. rewrite Heq. apply list_elem_of_fmap_2.
        by apply last_Some_elem_of.
      * apply IH; try done.
        intros x Hx Hne. apply Hold; [by apply list_elem_of_further|].
        unfold last_addr in *. by rewrite last_cons_cons.
Qed.

End Representation.

(** ** Running the monad

    [returns c s Q]: from [s] the computation [c] ends without a fault, with
    a result and a state that satisfy [Q]. *)

Section Running.

Context {Obj : Type}.
Variable pf : platform.
Implicit Types (s : state Obj).

(** Nothing but the allocator differs between [s] and [s']. *)
Definition same_table s s' : Prop :=
  table s' = table s ∧ bucket_mem s' = bucket_mem s
  ∧ fill_mem s' = fill_mem s ∧ dup_mem s' = dup_mem s.

Lemma same_table_refl s : same_table s s.
Proof. done. Qed.

Definition returns {R} (c : M (Obj := Obj) R) s (Q : R → state Obj → Prop)
  : Prop :=
  ∃ r s', c s = Done r s' ∧ Q r s'.

Lemma returns_ret {R} (r : R) s Q : Q r s → returns (ret r) s Q.
Proof. intros. by exists r, s. Qed.

Lemma returns_bind {R T} (c : M R) (k : R → M T) s Q :
  returns c s (λ r s', returns (k r) s' Q) → returns (x <- c ;; k x) s Q.
Proof.
  intros (r & s' & Hc & r' & s'' & Hk & HQ). exists r', s''.
  unfold bind. by rewrite Hc.
Qed.

Lemma returns_mono {R} (c : M R) s (Q Q' : R → state Obj → Prop) :
  returns c s Q → (∀ r s', Q r s' → Q' r s') → returns c s Q'.
Proof. intros (r & s' & Hc & HQ) HQQ'. exists r, s'. eauto. Qed.

Lemma returns_get s Q : Q s s → returns get s Q.
Proof. intros. by exists s, s. Qed.

Lemma returns_modify g s Q : Q tt (g s) → returns (modify g) s Q.
Proof. intros. by exists tt, (g s). Qed.

Lemma returns_inv {R} (c : M R) s Q r s' :
  returns c s Q → c s = Done r s' → Q r s'.
Proof. intros (r0 & s0 & Hc & HQ) Hd. congruence. Qed.

Lemma returns_load_bucket a b s Q :
  bucket_mem s !! a = Some b → Q b s → returns (load_bucket a) s Q.
Proof.
  intros Ha HQ. exists b, s. split; [|done].
  unfold load_bucket, bind, get. by rewrite Ha.
Qed.

Lemma returns_load_fill a f s Q :
  fill_mem s !! a = Some f → Q f s → returns (load_fill a) s Q.
Proof.
  intros Ha HQ. exists f, s. split; [|done].
  unfold load_fill, bind, get. by rewrite Ha.
Qed.

Lemma returns_load_duplicate a d s Q :
  dup_mem s !! a = Some d → Q d s → returns (load_duplicate a) s Q.
Proof.
  intros Ha HQ. exists d, s. split; [|done].
  unfold load_duplicate, bind, get. by rewrite Ha.
Qed.

Lemma returns_store_bucket a b s Q :
  is_Some (bucket_mem s !! a) →
  Q tt (set_bucket_mem (<[a := b]> (bucket_mem s)) s) →
  returns (store_bucket a b) s Q.
Proof.
  intros [b0 Ha] HQ. eexists _, _. split; [|exact HQ].
  unfold store_bucket, load_bucket, bind, get. by rewrite Ha.
Qed.

Lemma returns_store_fill a f s Q :
  is_Some (fill_mem s !! a) →
  Q tt (set_fill_mem (<[a := f]> (fill_mem s)) s) →
  returns (store_fill a f) s Q.
Proof.
  intros [f0 Ha] HQ. eexists _, _. split; [|exact HQ].
  unfold store_fill, load_fill, bind, get. by rewrite Ha.
Qed.

Lemma returns_store_duplicate a d s Q :
  is_Some (dup_mem s !! a) →
  Q tt (set_dup_mem (<[a := d]> (dup_mem s)) s) →
  returns (store_duplicate a d) s Q.
Proof.
  intros [d0 Ha] HQ. eexists _, _. split; [|exact HQ].
  unfold store_duplicate, load_duplicate, bind, get. by rewrite Ha.
Qed.

Lemma returns_read_slot i p s Q :
  0 ≤ i → buckets (table s) !! Z.to_nat i = Some p → Q p s →
  returns (read_slot i) s Q.
Proof.
  intros Hi Hp HQ. exists p, s. split; [|done].
  unfold read_slot, bind, get. rewrite Hp.
  by destruct (Z.leb_spec 0 i); [|lia].
Qed.

Lemma returns_write_slot i p s Q :
  0 ≤ i → is_Some (buckets (table s) !! Z.to_nat i) →
  Q tt (set_table (set_buckets (<[Z.to_nat i := p]> (buckets (table s)))
                     (table s)) s) →
  returns (write_slot i p) s Q.
Proof.
  intros Hi [p0 Hp] HQ. eexists _, _. split; [|exact HQ].
  unfold write_slot, read_slot, bind, get. rewrite Hp.
  by destruct (Z.leb_spec 0 i); [|lia].
Qed.

(** The state after a call of [calloc]. *)
Definition after_calloc (n size : Z) s : bool * state Obj :=
  let r := calloc_answer pf n size (live_bytes s) (alloc_script s) in
  (r.1, set_allocator
          (if r.1 then live_bytes s + n * size else live_bytes s) r.2 s).

Lemma calloc_eq n size s :
  calloc pf n size s = Done (after_calloc n size s).1 (after_calloc n size s).2.
Proof.
  unfold calloc, after_calloc, bind, get, modify, ret; simpl.
  by destruct (calloc_answer _ _ _ _ _).
Qed.

Lemma returns_calloc n size s Q :
  Q (after_calloc n size s).1 (after_calloc n size s).2 →
  returns (calloc pf n size) s Q.
Proof. intros HQ. eexists _, _. split; [apply calloc_eq|done]. Qed.

Lemma fresh_addr_bucket s : bucket_mem s !! fresh_addr s = None.
Proof.
  apply not_elem_of_dom. unfold fresh_addr.
  pose proof (is_fresh (dom (bucket_mem s) ∪ dom (fill_mem s) ∪ dom (dup_mem s))).
  set_solver.
Qed.

Lemma fresh_addr_fill s : fill_mem s !! fresh_addr s = None.
Proof.
  apply not_elem_of_dom. unfold fresh_addr.
  pose proof (is_fresh (dom (bucket_mem s) ∪ dom (fill_mem s) ∪ dom (dup_mem s))).
  set_solver.
Qed.

Lemma fresh_addr_dup s : dup_mem s !! fresh_addr s = None.
Proof.
  apply not_elem_of_dom. unfold fresh_addr.
  pose proof (is_fresh (dom (bucket_mem s) ∪ dom (fill_mem s) ∪ dom (dup_mem s))).
  set_solver.
Qed.

Lemma fits_bounds n size live :
  fits pf n size live = true → 0 ≤ n * size ∧ live + n * size ≤ SIZE_MAX pf.
Proof. unfold fits. intros [? ?]%andb_true_iff. lia. Qed.

Lemma calloc_answer_fits n size live script :
  (calloc_answer pf n size live script).1 = true → fits pf n size live = true.
Proof.
  unfold calloc_answer. destruct script as [|b rest]; simpl; [done|].
  by intros [_ ?]%andb_true_iff.
Qed.

Lemma returns_calloc_bucket s Q :
  (let ac := after_calloc 1 (sizeof_hash_table_bucket_t pf) s in
   if ac.1 then
     Q (Some (fresh_addr s))
       (set_bucket_mem (<[fresh_addr s := Bucket None None]> (bucket_mem s))
          ac.2)
   else Q None ac.2) →
  returns (calloc_bucket pf) s Q.
Proof.
  intros HQ. unfold calloc_bucket. apply returns_bind, returns_calloc.
  cbv zeta in HQ.
  destruct (after_calloc 1 _ s).1; [|by apply returns_ret].
  apply returns_bind, returns_get, returns_bind, returns_modify.
  by apply returns_ret.
Qed.

Lemma returns_calloc_fill o s Q :
  (let ac := after_calloc 1 (sizeof_hash_table_fill_t pf) s in
   if ac.1 then
     Q (Some (fresh_addr s))
       (set_fill_mem (<[fresh_addr s := Fill o None None None]> (fill_mem s))
          ac.2)
   else Q None ac.2) →
  returns (calloc_fill pf o) s Q.
Proof.
  intros HQ. unfold calloc_fill. apply returns_bind, returns_calloc.
  cbv zeta in HQ.
  destruct (after_calloc 1 _ s).1; [|by apply returns_ret].
  apply returns_bind, returns_get, returns_bind, returns_modify.
  by apply returns_ret.
Qed.

Lemma returns_calloc_duplicate o s Q :
  (let ac := after_calloc 1 (sizeof_hash_table_duplicate_t pf) s in
   if ac.1 then
     Q (Some (fresh_addr s))
       (set_dup_mem (<[fresh_addr s := Duplicate o None]> (dup_mem s)) ac.2)
   else Q None ac.2) →
  returns (calloc_duplicate pf o) s Q.
Proof.
  intros HQ. unfold calloc_duplicate. apply returns_bind, returns_calloc.
  cbv zeta in HQ.
  destruct (after_calloc 1 _ s).1; [|by apply returns_ret].
  apply returns_bind, returns_get, returns_bind, returns_modify.
  by apply returns_ret.
Qed.

End Running.

(** ** The walk of [Hash_Table_Insert] on shapes *)

Section ChainInsert.

Context {Obj : Type}.
Variable cmp : Obj → Obj → Z.
Implicit Types (fs : list (fill_shape Obj)).

(** The fill entries the walk passes (the existing object is below the new
    one) and the rest of the chain, headed by the entry it stops at. *)
Fixpoint chain_before (o : Obj) fs : list (fill_shape Obj) :=
  match fs with
  | [] => []
  | f :: fs' =>
    if cmp (fobj f) o =? 0 then []
    else if cmp (fobj f) o <? 0 then f :: chain_before o fs'
    else []
  end.

Fixpoint chain_after (o : Obj) fs : list (fill_shape Obj) :=
  match fs with
  | [] => []
  | f :: fs' =>
    if cmp (fobj f) o =? 0 then fs
    else if cmp (fobj f) o <? 0 then chain_after o fs'
    else fs
  end.

(** Does the walk stop at an entry that compares equal? *)
Fixpoint chain_find_equal (o : Obj) fs : bool :=
  match fs with
  | [] => false
  | f :: fs' =>
    if cmp (fobj f) o =? 0 then true
    else if cmp (fobj f) o <? 0 then chain_find_equal o fs'
    else false
  end.

(** The chain after the insertion of [o], whose new node lives at [a]. *)
Fixpoint chain_insert (o : Obj) (a : positive) fs : list (fill_shape Obj) :=
  match fs with
  | [] => [FillShape a o []]
  | f :: fs' =>
    if cmp (fobj f) o =? 0 then
      FillShape (fa f) (fobj f) (fdups f ++ [(a, o)]) :: fs'
    else if cmp (fobj f) o <? 0 then f :: chain_insert o a fs'
    else FillShape a o [] :: f :: fs'
  end.

Lemma chain_before_after o fs : chain_before o fs ++ chain_after o fs = fs.
Proof.
  induction fs as [|f fs IH]; simpl; [done|].
  repeat case_match; simpl; congruence.
Qed.

Lemma chain_insert_miss o a fs :
  chain_find_equal o fs = false →
  chain_insert o a fs
  = chain_before o fs ++ FillShape a o [] :: chain_after o fs.
Proof.
  induction fs as [|f fs IH]; simpl; [done|].
  repeat case_match; simpl; try done. intros. by rewrite IH.
Qed.

Lemma chain_insert_hit_head o a fs :
  chain_find_equal o fs = true →
  fa <$> head (chain_insert o a fs) = fa <$> head fs.
Proof. destruct fs as [|f fs]; simpl; [done|]. by repeat case_match. Qed.

Lemma chain_insert_hit_last o a fs :
  chain_find_equal o fs = true →
  fa <$> last (chain_insert o a fs) = fa <$> last fs.
Proof.
  induction fs as [|f fs IH]; simpl; [done|].
  repeat case_match; try done.
  - intros _. by destruct fs.
  - intros Hh. specialize (IH Hh).
    rewrite !last_cons. destruct (last fs) as [l|] eqn:Hl.
    + destruct (last (chain_insert o a fs)); simpl in *; [done|congruence].
    + apply last_None in Hl. by subst.
Qed.

Lemma chain_insert_hit_fill_addrs o a fs :
  chain_find_equal o fs = true →
  fill_addrs (chain_insert o a fs) = fill_addrs fs.
Proof.
  induction fs as [|f fs IH]; simpl; [done|].
  repeat case_match; try done. intros Hh.
  change (fa f :: fill_addrs (chain_insert o a fs) = fa f :: fill_addrs fs).
  by rewrite IH.
Qed.

Lemma chain_insert_hit_dup_addrs o a fs :
  chain_find_equal o fs = true →
  dup_addrs (chain_insert o a fs) ≡ₚ a :: dup_addrs fs.
Proof.
  induction fs as [|f fs IH]; simpl; [done|].
  repeat case_match; try done.
  - intros _. change (((fdups f ++ [(a, o)]).*1 ++ dup_addrs fs)
                     ≡ₚ a :: (fdups f).*1 ++ dup_addrs fs).
    rewrite fmap_app, <-app_assoc. simpl. by rewrite <-Permutation_middle.
  - intros Hh. change ((fdups f).*1 ++ dup_addrs (chain_insert o a fs)
                       ≡ₚ a :: (fdups f).*1 ++ dup_addrs fs).
    rewrite (IH Hh). by rewrite <-Permutation_middle.
Qed.

Lemma chain_insert_miss_fill_addrs o a fs :
  chain_find_equal o fs = false →
  fill_addrs (chain_insert o a fs) ≡ₚ a :: fill_addrs fs.
Proof.
  induction fs as [|f fs IH]; simpl; [done|].
  repeat case_match; try done.
  intros Hh. change (fa f :: fill_addrs (chain_insert o a fs)
                     ≡ₚ a :: fa f :: fill_addrs fs).
  rewrite (IH Hh). apply perm_swap.
Qed.

Lemma chain_insert_miss_dup_addrs o a fs :
  chain_find_equal o fs = false →
  dup_addrs (chain_insert o a fs) = dup_addrs fs.
Proof.
  induction fs as [|f fs IH]; simpl; [done|].
  repeat case_match; try done. intros Hh.
  change ((fdups f).*1 ++ dup_addrs (chain_insert o a fs)
          = (fdups f).*1 ++ dup_addrs fs). by rewrite IH.
Qed.

End ChainInsert.

(** ** Correctness of the walk *)

Arguments fill_addrs : simpl never.
Arguments dup_addrs : simpl never.

Section Walk.

Context {Obj : Type}.
Variable pf : platform.
Implicit Types (s : state Obj) (fs : list (fill_shape Obj)).
Implicit Types (ds : list (positive * Obj)).

Lemma fill_addrs_cons (f : fill_shape Obj) fs :
  fill_addrs (f :: fs) = fa f :: fill_addrs fs.
Proof. done. Qed.

Lemma dup_addrs_cons (f : fill_shape Obj) fs :
  dup_addrs (f :: fs) = (fdups f).*1 ++ dup_addrs fs.
Proof. done. Qed.

Lemma fill_addrs_app fs1 fs2 :
  fill_addrs (fs1 ++ fs2) = fill_addrs fs1 ++ fill_addrs fs2.
Proof. apply fmap_app. Qed.

Lemma head_addr_snoc ds a (o : Obj) :
  head_addr (ds ++ [(a, o)]) = Some (default a (head_addr ds)).
Proof. by destruct ds. Qed.

Lemma last_addr_snoc ds a (o : Obj) : last_addr (ds ++ [(a, o)]) = Some a.
Proof. unfold last_addr. by rewrite last_snoc. Qed.

Lemma dup_chain_last (dm : gmap positive (hash_table_duplicate_t Obj)) ds l :
  dup_chain dm ds → last ds = Some l →
  dm !! l.1 = Some (Duplicate l.2 None).
Proof.
  induction ds as [|d ds IH]; simpl; [done|].
  intros [Hd Hds] Hl. destruct ds as [|d' ds].
  - by injection Hl as <-.
  - apply IH; [done|]. by rewrite last_cons_cons in Hl.
Qed.

(** Linking a new fill entry between [pre] and [fs]. *)
Lemma fill_chain_splice
    (fm fm' : gmap positive (hash_table_fill_t Obj))
    (dm : gmap positive (hash_table_duplicate_t Obj)) pre fs nf o :
  fill_chain fm dm (pre ++ fs) →
  NoDup (fill_addrs (pre ++ fs)) →
  nf ∉ fill_addrs (pre ++ fs) →
  fm' !! nf = Some (Fill o (fa <$> head fs) None None) →
  (∀ p, last pre = Some p → fm' !! fa p = Some (fill_node p (Some nf))) →
  (∀ x, x ∈ fill_addrs (pre ++ fs) → Some x ≠ fa <$> last pre →
        fm' !! x = fm !! x) →
  fill_chain fm' dm (pre ++ FillShape nf o [] :: fs).
Proof.
  induction pre as [|p pre IH]; simpl; intros Hc Hnd Hnf Hnew Hlast Hold.
  - split_and!; [done..|].
    eapply fill_chain_agree; [| |exact Hc]; [|done].
    intros x Hx. by apply Hold.
  - destruct Hc as (Hp & Hdp & Hc). apply NoDup_cons in Hnd as [Hp1 Hnd].
    apply not_elem_of_cons in Hnf as [Hnfp Hnf].
    split_and!; [|done|].
    + destruct pre as [|p' pre]; simpl.
      * by apply (Hlast p).
      * rewrite Hold; [done|apply list_elem_of_here|].
        rewrite last_cons_cons.
        destruct (last (p' :: pre)) as [l|] eqn:Hl; [|done]. simpl.
        intros [= Heq]. apply Hp1. rewrite Heq.
        apply last_Some_elem_of in Hl.
        change (fa l ∈ fill_addrs ((p' :: pre) ++ fs)).
        unfold fill_addrs. rewrite fmap_app. apply elem_of_app. left.
        by apply list_elem_of_fmap_2.
    + destruct pre as [|p' pre].
      * simpl. simpl in Hc. split_and!; [done..|].
        eapply fill_chain_agree; [| |exact Hc]; [|done].
        intros x Hx. apply Hold; [by apply list_elem_of_further|].
        simpl. intros [= Heq]. apply Hp1. by rewrite <-Heq.
      * apply IH; try done.
        intros x Hx Hne. apply Hold; [by apply list_elem_of_further|].
        by rewrite last_cons_cons.
Qed.

(** The walk passes the entries below the new object and stops; nothing
    is written. *)
Lemma insert_walk_miss o fs : ∀ fuel prev s,
  fill_chain (fill_mem s) (dup_mem s) fs →
  (length fs < fuel)%nat →
  chain_find_equal (compare_function (table s)) o fs = false →
  insert_walk pf fuel o (fa <$> head fs) prev s
  = Done (Left (fa <$> head (chain_after (compare_function (table s)) o fs))
            (match last (chain_before (compare_function (table s)) o fs) with
             | Some p => Some (fa p)
             | None => prev
             end) false) s.
Proof.
  induction fs as [|f fs IH]; intros fuel prev s Hc Hfuel Hmiss.
  - destruct fuel; [simpl in Hfuel; lia|]. done.
  - destruct fuel as [|fuel]; [simpl in Hfuel; lia|].
    destruct Hc as (Hf & Hd & Hc). simpl in Hmiss |- *.
    unfold bind at 1, get. unfold bind at 1, load_fill at 1, bind at 1, get.
    rewrite Hf. simpl.
    destruct (compare_function (table s) (fobj f) o =? 0); [done|].
    destruct (compare_function (table s) (fobj f) o <? 0); [|done].
    rewrite IH; [|done|simpl in Hfuel; lia|done].
    rewrite last_cons. by destruct (last (chain_before _ o fs)).
Qed.

(** What holds after a walk that stops at an entry equal to the new object:
    either the duplicate node could not be allocated and nothing but the
    allocator changed, or the node was appended to that entry's duplicate
    chain and the duplicates counter went up. *)
Definition hit_post (o : Obj) fs s (w : walk_exit) s' : Prop :=
  let ac := after_calloc pf 1 (sizeof_hash_table_duplicate_t pf) s in
  if ac.1 then
    (∃ c p, w = Left (Some c) p true)
    ∧ s' = set_table
             (set_duplicates (ulong pf (number_of_duplicates (table s) + 1))
                (table s))
             (set_fill_mem (fill_mem s') (set_dup_mem (dup_mem s') ac.2))
    ∧ fill_chain (fill_mem s') (dup_mem s')
        (chain_insert (compare_function (table s)) o (fresh_addr s) fs)
    ∧ dom (fill_mem s') = dom (fill_mem s)
    ∧ dom (dup_mem s') = {[fresh_addr s]} ∪ dom (dup_mem s)
    ∧ (∀ x, x ∉ fill_addrs fs → fill_mem s' !! x = fill_mem s !! x)
    ∧ (∀ x, x ≠ fresh_addr s → x ∉ dup_addrs fs →
            dup_mem s' !! x = dup_mem s !! x)
  else w = Returned 0 ∧ s' = ac.2.

Lemma insert_walk_hit o fs : ∀ fuel prev s,
  fill_chain (fill_mem s) (dup_mem s) fs →
  NoDup (fill_addrs fs) →
  NoDup (dup_addrs fs) →
  (length fs < fuel)%nat →
  chain_find_equal (compare_function (table s)) o fs = true →
  returns (insert_walk pf fuel o (fa <$> head fs) prev) s (hit_post o fs s).
Proof.
  induction fs as [|f fs IH]; intros fuel prev s Hc Hnf Hnd Hfuel Hhit;
    [done|].
  destruct fuel as [|fuel]; [simpl in Hfuel; lia|].
  destruct Hc as (Hf & Hd & Hc).
  rewrite fill_addrs_cons in Hnf. apply NoDup_cons in Hnf as [Hf1 Hnf].
  rewrite dup_addrs_cons in Hnd.
  apply NoDup_app in Hnd as (Hndf & Hdisj & Hnd).
  simpl in Hhit |- *.
  apply returns_bind, returns_get.
  apply returns_bind. eapply returns_load_fill; [exact Hf|]. simpl.
  destruct (compare_function (table s) (fobj f) o =? 0) eqn:Heq.
  - apply returns_bind, returns_calloc_duplicate. unfold hit_post.
    cbv zeta.
    destruct (after_calloc pf 1 _ s).1 eqn:Hok; [|by apply returns_ret].
    pose proof (fresh_addr_dup s) as Ha. set (a := fresh_addr s) in *.
    unfold last_addr.
    destruct (last (fdups f)) as [l|] eqn:Hl; simpl.
    + pose proof (dup_chain_last _ _ _ Hd Hl) as Hlnode.
      assert (a ≠ l.1) as Hal by (intros Heq'; congruence).
      apply returns_bind, returns_bind.
      eapply returns_load_duplicate;
        [simpl; rewrite lookup_insert_ne; [exact Hlnode|done]|].
      apply returns_store_duplicate;
        [simpl; rewrite lookup_insert_ne; [eauto|done]|].
      apply returns_bind. eapply returns_load_fill; [simpl; exact Hf|].
      apply returns_bind, returns_store_fill; [simpl; eauto|].
      apply returns_bind, returns_modify, returns_ret. simpl.
      assert (l.1 ∈ (fdups f).*1) as Hlin
        by (apply list_elem_of_fmap_2; by apply last_Some_elem_of).
      split; [eauto|]. split; [done|]. rewrite Heq. simpl. split_and!.
      * rewrite lookup_insert_eq. unfold fill_node. simpl.
        rewrite head_addr_snoc, last_addr_snoc. do 2 f_equal.
        destruct (fdups f); [done|done].
      * eapply dup_chain_snoc; [exact Hd|done| | | |].
        -- intros Hin. destruct (dup_chain_allocated _ _ _ Hd Hin); congruence.
        -- rewrite lookup_insert_ne; [|done]. by rewrite lookup_insert_eq.
        -- intros l' Hl'. assert (l' = l) as -> by congruence.
           by rewrite lookup_insert_eq.
        -- intros x Hx Hne. unfold last_addr in Hne. rewrite Hl in Hne.
           rewrite !lookup_insert_ne; [done| |].
           ++ intros ->. destruct (dup_chain_allocated _ _ _ Hd Hx); congruence.
           ++ intros <-. by apply Hne.
      * eapply fill_chain_agree; [| |exact Hc].
        -- intros x Hx. rewrite lookup_insert_ne; [done|]. by intros <-.
        -- intros x Hx. rewrite !lookup_insert_ne; [done| |].
           ++ intros ->.
              destruct (fill_chain_dup_allocated _ _ _ _ Hc Hx); congruence.
           ++ intros <-. by apply (Hdisj l.1).
      * apply dom_insert_lookup_L. eauto.
      * rewrite dom_insert_lookup_L; [apply dom_insert_L|].
        rewrite lookup_insert_ne; [eauto|done].
      * intros x Hx. rewrite fill_addrs_cons in Hx.
        apply not_elem_of_cons in Hx as [? _]. by rewrite lookup_insert_ne.
      * intros x Hxa Hx. rewrite dup_addrs_cons in Hx.
        apply not_elem_of_app in Hx as [Hx _].
        rewrite !lookup_insert_ne; [done..|]. by intros <-.
    + apply last_None in Hl.
      apply returns_bind, returns_bind.
      eapply returns_load_fill; [simpl; exact Hf|].
      apply returns_store_fill; [simpl; eauto|].
      apply returns_bind. eapply returns_load_fill;
        [simpl; apply lookup_insert_eq|].
      apply returns_bind, returns_store_fill;
        [simpl; rewrite lookup_insert_eq; eauto|].
      apply returns_bind, returns_modify, returns_ret. simpl.
      split; [eauto|]. split; [done|]. rewrite Heq, Hl. simpl.
      rewrite insert_insert_eq. split_and!.
      * by rewrite lookup_insert_eq.
      * by rewrite lookup_insert_eq.
      * done.
      * eapply fill_chain_agree; [| |exact Hc].
        -- intros x Hx. rewrite lookup_insert_ne; [done|]. by intros <-.
        -- intros x Hx. rewrite !lookup_insert_ne; [done|].
           intros ->.
           destruct (fill_chain_dup_allocated _ _ _ _ Hc Hx); congruence.
      * apply dom_insert_lookup_L. eauto.
      * by rewrite !dom_insert_L.
      * intros x Hx. rewrite fill_addrs_cons in Hx.
        apply not_elem_of_cons in Hx as [? _]. by rewrite lookup_insert_ne.
      * intros x Hxa Hx. by rewrite !lookup_insert_ne.
  - destruct (compare_function (table s) (fobj f) o <? 0) eqn:Hlt; [|done].
    eapply returns_mono; [apply IH; try done; simpl in Hfuel; lia|].
    intros w s'. unfold hit_post.
    destruct (after_calloc pf 1 _ s).1; [|done].
    intros (Hw & Hs' & Hch & Hdf & Hdd & Hff & Hfd).
    split; [done|]. split; [done|]. split; [|split_and!; try done].
    + simpl. rewrite Heq, Hlt. simpl. split_and!.
      * rewrite Hff; [|done]. rewrite Hf. f_equal. unfold fill_node. f_equal.
        symmetry. by apply chain_insert_hit_head.
      * eapply dup_chain_agree; [|exact Hd]. intros x Hx. apply Hfd.
        -- intros ->. destruct (dup_chain_allocated _ _ _ Hd Hx) as [? Hs].
           by rewrite fresh_addr_dup in Hs.
        -- by apply Hdisj.
      * done.
    + intros x Hx. apply Hff. rewrite fill_addrs_cons in Hx.
      by apply not_elem_of_cons in Hx as [_ ?].
    + intros x Hxa Hx. apply Hfd; [done|]. rewrite dup_addrs_cons in Hx.
      by apply not_elem_of_app in Hx as [_ ?].
Qed.

End Walk.

(** ** A failed insertion leaves no trace

    On every path of [Hash_Table_Insert] the allocations come before the
    first store; the one block obtained before a refusal (the bucket, when
    its fill entry cannot be allocated) is released again.  This holds of
    any state, well formed or not. *)

Section FailedInsert.

Context {Obj : Type}.
Variable pf : platform.
Implicit Types (s : state Obj).

Lemma bind_Done {R T} (c : M (Obj := Obj) R) (k : R → M T) s r s' :
  (x <- c ;; k x) s = Done r s' →
  ∃ r0 s0, c s = Done r0 s0 ∧ k r0 s0 = Done r s'.
Proof. unfold bind. destruct (c s) as [r0 s0|]; [eauto|done]. Qed.

Lemma calloc_node_same (ac : bool * state Obj) s :
  ac = after_calloc pf 1 (sizeof_hash_table_bucket_t pf) s
  ∨ ac = after_calloc pf 1 (sizeof_hash_table_fill_t pf) s
  ∨ ac = after_calloc pf 1 (sizeof_hash_table_duplicate_t pf) s →
  same_table s ac.2.
Proof. by intros [->|[->| ->]]. Qed.

Lemma insert_walk_failure fuel o : ∀ cur prev s w s',
  insert_walk pf fuel o cur prev s = Done w s' →
  match w with
  | Returned r => r = 0 ∧ same_table s s'
  | Left _ _ false => s' = s
  | Left _ _ true => True
  end.
Proof.
  induction fuel as [|fuel IH]; intros cur prev s w s'; [done|].
  cbn [insert_walk]. destruct cur as [c|]; [|by intros [= <- <-]].
  unfold bind at 1, get. unfold bind at 1, load_fill, bind at 1, get.
  destruct (fill_mem s !! c) as [cur|]; [|done]. unfold ret at 1.
  destruct (_ =? 0).
  - unfold bind at 1, calloc_duplicate, bind at 1. rewrite calloc_eq.
    destruct (after_calloc pf 1 _ s) as [[|] s1] eqn:Hac; cbn [fst snd].
    + unfold bind at 1, get. unfold bind at 1, modify, ret at 1.
      intros Hd.
      repeat (apply bind_Done in Hd as (? & ? & _ & Hd)).
      by injection Hd as <- <-.
    + unfold ret. intros [= <- <-]. split; [done|].
      apply (calloc_node_same (false, s1)). right. right. done.
  - destruct (_ <? 0); [apply IH|by intros [= <- <-]].
Qed.

Lemma read_slot_Done i s r s' : read_slot i s = Done r s' → s' = s.
Proof.
  unfold read_slot, bind, get. destruct (0 <=? i); [|done].
  by destruct (buckets (table s) !! _); [intros [= _ <-]|].
Qed.

Lemma load_bucket_Done a s r s' : load_bucket a s = Done r s' → s' = s.
Proof.
  unfold load_bucket, bind, get.
  by destruct (bucket_mem s !! a); [intros [= _ <-]|].
Qed.

Lemma calloc_fill_Done o s r s' :
  calloc_fill pf o s = Done r s' →
  (r = None ∧ same_table s s') ∨ is_Some r.
Proof.
  unfold calloc_fill, bind at 1. rewrite calloc_eq.
  destruct (after_calloc pf 1 _ s) as [[|] s1] eqn:Hac; cbn [fst snd].
  - intros Hd. right. repeat (apply bind_Done in Hd as (? & ? & _ & Hd)).
    injection Hd as <- _. eauto.
  - intros [= <- <-]. left. split; [done|].
    apply (calloc_node_same (false, s1)). right. left. done.
Qed.

Lemma calloc_bucket_Done s r s' :
  calloc_bucket pf s = Done r s' →
  (r = None ∧ same_table s s')
  ∨ (r = Some (fresh_addr s)
     ∧ table s' = table s
     ∧ bucket_mem s' = <[fresh_addr s := Bucket None None]> (bucket_mem s)
     ∧ fill_mem s' = fill_mem s ∧ dup_mem s' = dup_mem s).
Proof.
  unfold calloc_bucket, bind at 1. rewrite calloc_eq.
  destruct (after_calloc pf 1 _ s) as [[|] s1] eqn:Hac; cbn [fst snd].
  - intros [= <- <-]. right.
    pose proof (calloc_node_same (true, s1) s) as (Ht & Hb & Hf & Hd);
      [by left|].
    simpl in *. unfold fresh_addr. by rewrite Ht, Hb, Hf, Hd.
  - intros [= <- <-]. left. split; [done|].
    apply (calloc_node_same (false, s1)). left. done.
Qed.

Lemma Hash_Table_Insert_failure o pattern s s' :
  Hash_Table_Insert pf o pattern s = Done 0 s' → same_table s s'.
Proof.
  unfold Hash_Table_Insert. intros Hd.
  apply bind_Done in Hd as (? & ? & [= <- <-] & Hd).
  apply bind_Done in Hd as (slot & ? & ->%read_slot_Done & Hd).
  destruct slot as [b|].
  - apply bind_Done in Hd as (bk & ? & ->%load_bucket_Done & Hd).
    apply bind_Done in Hd as (? & ? & [= <- <-] & Hd).
    apply bind_Done in Hd as (w & s1 & Hw%insert_walk_failure & Hd).
    destruct w as [r|cur prev [|]].
    + destruct Hw as [-> Hsame]. by injection Hd as <-.
    + by injection Hd.
    + subst s1.
      apply bind_Done in Hd as (nf & s1 & [[-> Hsame]|[a ->]]%calloc_fill_Done
                                & Hd).
      * by injection Hd as <-.
      * repeat (apply bind_Done in Hd as (? & ? & _ & Hd)). by injection Hd.
  - apply bind_Done in Hd as (nb & s1 & Hnb%calloc_bucket_Done & Hd).
    destruct Hnb as [[-> Hsame]|(-> & Ht1 & Hb1 & Hf1 & Hd1)].
    + by injection Hd as <-.
    + apply bind_Done in Hd as (nf & s2 & [[-> Hsame]|[a ->]]%calloc_fill_Done
                                & Hd).
      * destruct Hsame as (Ht2 & Hb2 & Hf2 & Hd2).
        unfold free_bucket, bind, modify, release, modify, ret in Hd.
        injection Hd as <-.
        split_and!; simpl; try congruence.
        rewrite Hb2, Hb1, delete_insert_eq. apply delete_id.
        apply fresh_addr_bucket.
      * repeat (apply bind_Done in Hd as (? & ? & _ & Hd)). by injection Hd.
Qed.

End FailedInsert.

(** ** Ownership of addresses

    Every node belongs to one slot of the table.  [owner_update] is the
    bookkeeping of an operation that touches the nodes of slot [i] only and
    adds the fresh addresses [extra] to them. *)

Section Ownership.

Context {A : Type}.
Variable f : A → list positive.

Lemma owner_elem (l : list A) i x a :
  l !! i = Some x → a ∈ f x → a ∈ l ≫= f.
Proof.
  intros Hi Ha. apply list_elem_of_bind. exists x. split; [done|].
  by eapply list_elem_of_lookup_2.
Qed.

Lemma owner_disjoint (l : list A) : ∀ i j x y a,
  NoDup (l ≫= f) → l !! i = Some x → l !! j = Some y → i ≠ j →
  a ∈ f x → a ∈ f y → False.
Proof.
  induction l as [|z l IH]; intros i j x y a Hnd Hi Hj Hij Hx Hy; [done|].
  rewrite bind_cons in Hnd. apply NoDup_app in Hnd as (_ & Hdisj & Hnd).
  destruct i as [|i], j as [|j]; simplify_eq/=.
  - eapply Hdisj; [exact Hx|]. by eapply owner_elem.
  - eapply Hdisj; [exact Hy|]. by eapply owner_elem.
  - apply (IH i j x y a); try done. by intros ->.
Qed.

Lemma owner_insert_perm (l : list A) extra : ∀ i x y,
  l !! i = Some x → f y ≡ₚ extra ++ f x →
  <[i := y]> l ≫= f ≡ₚ extra ++ (l ≫= f).
Proof.
  induction l as [|z l IH]; intros i x y Hi Hp; [done|].
  destruct i as [|i]; simplify_eq/=.
  - rewrite Hp. by rewrite app_assoc.
  - rewrite (IH i x y Hi Hp).
    rewrite !app_assoc. f_equiv. apply Permutation_app_comm.
Qed.

Lemma owner_update (l : list A) (D : gset positive) extra i x y :
  NoDup (l ≫= f) →
  D = list_to_set (l ≫= f) →
  l !! i = Some x →
  f y ≡ₚ extra ++ f x →
  NoDup extra →
  (∀ a, a ∈ extra → a ∉ D) →
  NoDup (<[i := y]> l ≫= f)
  ∧ list_to_set (<[i := y]> l ≫= f) = list_to_set extra ∪ D
  ∧ length (<[i := y]> l ≫= f) = (length extra + length (l ≫= f))%nat
  ∧ (∀ j z a, j ≠ i → l !! j = Some z → a ∈ f z → a ∉ f y).
Proof.
  intros Hnd -> Hi Hp Hex Hfresh.
  pose proof (owner_insert_perm l extra i x y Hi Hp) as Hperm.
  split_and!.
  - rewrite Hperm. apply NoDup_app. split_and!; [done| |done].
    intros a Ha Hin. apply (Hfresh a Ha). by apply elem_of_list_to_set.
  - rewrite Hperm. by rewrite list_to_set_app_L.
  - by rewrite Hperm, length_app.
  - intros j z a Hji Hj Hz Hy. rewrite Hp in Hy.
    apply elem_of_app in Hy as [Hy|Hy].
    + apply (Hfresh a Hy). apply elem_of_list_to_set. by eapply owner_elem.
    + by eapply (owner_disjoint l j i z x a).
Qed.

End Ownership.

(** ** The invariant of the table *)

Section Invariant.

Context {Obj : Type}.
Variable pf : platform.
Implicit Types (s : state Obj) (sh : table_shape Obj).
Implicit Types (fs : list (fill_shape Obj)).

(** The bytes the nodes of a table of shape [sh] occupy. *)
Definition shape_bytes (total : Z) sh : Z :=
  sizeof_hash_table_t pf + total * sizeof_pointer pf
  + Z.of_nat (length (all_bucket_addrs sh)) * sizeof_hash_table_bucket_t pf
  + Z.of_nat (length (all_fill_addrs sh)) * sizeof_hash_table_fill_t pf
  + Z.of_nat (length (all_dup_addrs sh)) * sizeof_hash_table_duplicate_t pf.

(** The counters count the nodes. *)
Record accounting s sh : Prop := {
  acc_filled :
    number_of_buckets_filled (table s)
    = Z.of_nat (length (all_bucket_addrs sh));
  acc_collisions_nonneg : 0 ≤ number_of_collisions (table s);
  acc_collisions :
    number_of_buckets_filled (table s) + number_of_collisions (table s)
    = Z.of_nat (length (all_fill_addrs sh));
  acc_duplicates :
    number_of_duplicates (table s) = Z.of_nat (length (all_dup_addrs sh))
}.

(** The memory holds the nodes of [sh] and nothing else, every node at an
    address of its own; the blocks of the table are live; and where an
    [unsigned long] is wide enough for any object size, the counters have
    not wrapped. *)
Record table_inv s sh : Prop := {
  inv_total :
    number_of_total_buckets (table s)
    = Z.of_nat (length (buckets (table s)));
  inv_rep :
    Forall2 (bucket_rep (bucket_mem s) (fill_mem s) (dup_mem s))
      (buckets (table s)) sh;
  inv_bucket_nodup : NoDup (all_bucket_addrs sh);
  inv_fill_nodup : NoDup (all_fill_addrs sh);
  inv_dup_nodup : NoDup (all_dup_addrs sh);
  inv_bucket_dom : dom (bucket_mem s) = list_to_set (all_bucket_addrs sh);
  inv_fill_dom : dom (fill_mem s) = list_to_set (all_fill_addrs sh);
  inv_dup_dom : dom (dup_mem s) = list_to_set (all_dup_addrs sh);
  inv_bytes :
    shape_bytes (number_of_total_buckets (table s)) sh ≤ live_bytes s;
  inv_live : live_bytes s ≤ SIZE_MAX pf;
  inv_counters : platform_ok pf → accounting s sh
}.

Lemma accounting_same s s' sh :
  accounting s sh → table s' = table s → accounting s' sh.
Proof. intros [] Ht. split; by rewrite Ht. Qed.

Lemma table_inv_same s s' sh :
  table_inv s sh → same_table s s' →
  shape_bytes (number_of_total_buckets (table s)) sh ≤ live_bytes s' →
  live_bytes s' ≤ SIZE_MAX pf →
  table_inv s' sh.
Proof.
  intros [] (Ht & Hb & Hf & Hd) Hbytes Hlive.
  split; rewrite ?Ht, ?Hb, ?Hf, ?Hd; try done.
  intros Hok. by eapply accounting_same; [apply inv_counters0|].
Qed.

Lemma bucket_rep_agree
    (bm bm' : gmap positive hash_table_bucket_t)
    (fm fm' : gmap positive (hash_table_fill_t Obj))
    (dm dm' : gmap positive (hash_table_duplicate_t Obj)) slot b :
  (∀ x, x ∈ bucket_addr_of b → bm' !! x = bm !! x) →
  (∀ x, x ∈ fill_addrs (fills_of b) → fm' !! x = fm !! x) →
  (∀ x, x ∈ dup_addrs (fills_of b) → dm' !! x = dm !! x) →
  bucket_rep bm fm dm slot b → bucket_rep bm' fm' dm' slot b.
Proof.
  destruct b as [[a fs]|]; simpl; [|done].
  intros Hb Hf Hd (Hs & Ha & Hc). split_and!; [done| |].
  - rewrite Hb; [done|]. apply list_elem_of_here.
  - by eapply fill_chain_agree.
Qed.

(** An operation that rewrites slot [i] alone, adding the fresh nodes
    [eb], [ef] and [ed] to it, keeps the invariant. *)
Lemma table_inv_update s s' sh i old b' fs' eb ef ed :
  table_inv s sh →
  sh !! i = Some old →
  buckets (table s') = <[i := Some b']> (buckets (table s)) →
  number_of_total_buckets (table s') = number_of_total_buckets (table s) →
  bucket_rep (bucket_mem s') (fill_mem s') (dup_mem s')
    (Some b') (Some (b', fs')) →
  [b'] ≡ₚ eb ++ bucket_addr_of old →
  fill_addrs fs' ≡ₚ ef ++ fill_addrs (fills_of old) →
  dup_addrs fs' ≡ₚ ed ++ dup_addrs (fills_of old) →
  NoDup eb → NoDup ef → NoDup ed →
  (∀ x, x ∈ eb → bucket_mem s !! x = None) →
  (∀ x, x ∈ ef → fill_mem s !! x = None) →
  (∀ x, x ∈ ed → dup_mem s !! x = None) →
  dom (bucket_mem s') = list_to_set eb ∪ dom (bucket_mem s) →
  dom (fill_mem s') = list_to_set ef ∪ dom (fill_mem s) →
  dom (dup_mem s') = list_to_set ed ∪ dom (dup_mem s) →
  (∀ x, x ≠ b' → bucket_mem s' !! x = bucket_mem s !! x) →
  (∀ x, x ∉ fill_addrs fs' → fill_mem s' !! x = fill_mem s !! x) →
  (∀ x, x ∉ dup_addrs fs' → dup_mem s' !! x = dup_mem s !! x) →
  (platform_ok pf → accounting s sh →
   number_of_buckets_filled (table s')
   = number_of_buckets_filled (table s) + Z.of_nat (length eb)
   ∧ number_of_buckets_filled (table s') + number_of_collisions (table s')
     = number_of_buckets_filled (table s) + number_of_collisions (table s)
       + Z.of_nat (length ef)
   ∧ 0 ≤ number_of_collisions (table s')
   ∧ number_of_duplicates (table s')
     = number_of_duplicates (table s) + Z.of_nat (length ed)) →
  live_bytes s'
  = live_bytes s
    + Z.of_nat (length eb) * sizeof_hash_table_bucket_t pf
    + Z.of_nat (length ef) * sizeof_hash_table_fill_t pf
    + Z.of_nat (length ed) * sizeof_hash_table_duplicate_t pf →
  live_bytes s' ≤ SIZE_MAX pf →
  table_inv s' (<[i := Some (b', fs')]> sh).
Proof.
  intros [] Hi Hbk Htot Hrep Hpb Hpf Hpd Hneb Hnef Hned Hfb Hff Hfd
    Hdb Hdf Hdd Hframe_b Hframe_f Hframe_d Hcount Hlive Hmax.
  destruct (owner_update bucket_addr_of sh _ eb i old (Some (b', fs'))
              inv_bucket_nodup0 inv_bucket_dom0 Hi Hpb Hneb)
    as (Hb1 & Hb2 & Hb3 & Hb4).
  { intros a Ha. apply not_elem_of_dom. by apply Hfb. }
  destruct (owner_update (λ b, fill_addrs (fills_of b)) sh _ ef i old
              (Some (b', fs')) inv_fill_nodup0 inv_fill_dom0 Hi Hpf Hnef)
    as (Hf1 & Hf2 & Hf3 & Hf4).
  { intros a Ha. apply not_elem_of_dom. by apply Hff. }
  destruct (owner_update (λ b, dup_addrs (fills_of b)) sh _ ed i old
              (Some (b', fs')) inv_dup_nodup0 inv_dup_dom0 Hi Hpd Hned)
    as (Hd1 & Hd2 & Hd3 & Hd4).
  { intros a Ha. apply not_elem_of_dom. by apply Hfd. }
  assert (i < length (buckets (table s)))%nat as Hlen.
  { rewrite (Forall2_length _ _ _ inv_rep0). by eapply lookup_lt_Some. }
  split.
  - by rewrite Htot, Hbk, length_insert.
  - rewrite Hbk. apply Forall2_same_length_lookup. split.
    { rewrite !length_insert. by eapply Forall2_length. }
    intros j x y Hx Hy. destruct (decide (j = i)) as [->|Hji].
    + rewrite list_lookup_insert_eq in Hx by done.
      rewrite list_lookup_insert_eq in Hy by (by eapply lookup_lt_Some).
      by simplify_eq.
    + rewrite list_lookup_insert_ne in Hx by done.
      rewrite list_lookup_insert_ne in Hy by done.
      pose proof (Forall2_lookup_lr _ _ _ _ _ _ inv_rep0 Hx Hy) as Hold.
      eapply bucket_rep_agree; [| | |exact Hold].
      * intros a Ha. apply Hframe_b. intros ->.
        apply (Hb4 j y b' Hji Hy Ha). apply list_elem_of_here.
      * intros a Ha. apply Hframe_f. by apply (Hf4 j y a Hji Hy Ha).
      * intros a Ha. apply Hframe_d. by apply (Hd4 j y a Hji Hy Ha).
  - done.
  - done.
  - done.
  - by rewrite Hdb.
  - by rewrite Hdf.
  - by rewrite Hdd.
  - unfold shape_bytes, all_bucket_addrs, all_fill_addrs, all_dup_addrs in *.
    rewrite Hb3, Hf3, Hd3, Htot, Hlive. lia.
  - done.
  - intros Hok. destruct (inv_counters0 Hok) as [Ha1 Ha2 Ha3 Ha4].
    destruct (Hcount Hok (inv_counters0 Hok)) as (Hcf & Hcc & Hc0 & Hcd).
    unfold all_bucket_addrs, all_fill_addrs, all_dup_addrs in *.
    split; unfold all_bucket_addrs, all_fill_addrs, all_dup_addrs;
      rewrite ?Hb3, ?Hf3, ?Hd3; lia.
Qed.

End Invariant.

(** ** Hash_Table_Insert keeps the invariant *)

Arguments insert_walk : simpl never.

Section InsertCorrect.

Context {Obj : Type}.
Variable pf : platform.
Implicit Types (s : state Obj) (sh : table_shape Obj).
Implicit Types (fs : list (fill_shape Obj)).

(** The slot [Hash_Table_Insert] and [Hash_Table_Match] go to. *)
Definition slot_index s (pattern : string) : Z :=
  hash_function (table s) pattern (number_of_total_buckets (table s)).

(** The effect of a successful insertion on the shape and on the table
    record: one counter goes up by one, as an [unsigned long]. *)
Definition insert_effect s (i : nat) (o : Obj) sh s' sh' : Prop :=
  match sh !! i with
  | Some None =>
    ∃ nb nf,
      sh' = <[i := Some (nb, [FillShape nf o []])]> sh
      ∧ table s'
        = set_buckets (<[i := Some nb]> (buckets (table s)))
            (set_buckets_filled
               (ulong pf (number_of_buckets_filled (table s) + 1))
               (table s))
  | Some (Some (b, fs)) =>
    ∃ a,
      sh' = <[i := Some (b, chain_insert (compare_function (table s)) o a fs)]>
              sh
      ∧ table s'
        = if chain_find_equal (compare_function (table s)) o fs
          then set_duplicates
                 (ulong pf (number_of_duplicates (table s) + 1)) (table s)
          else set_collisions
                 (ulong pf (number_of_collisions (table s) + 1)) (table s)
  | None => False
  end.

Definition insert_post s (o : Obj) (pattern : string) sh (r : Z) s' : Prop :=
  (r = 0 ∧ same_table s s' ∧ live_bytes s' = live_bytes s ∧ table_inv pf s' sh)
  ∨ (r = 1 ∧ ∃ sh', table_inv pf s' sh'
               ∧ insert_effect s (Z.to_nat (slot_index s pattern)) o sh s' sh').

Lemma ulong_small z : 0 ≤ z ≤ ULONG_MAX pf → ulong pf z = z.
Proof. intros. unfold ulong. apply Z.mod_small. lia. Qed.

Lemma table_inv_slot s sh pattern :
  table_inv pf s sh →
  0 ≤ slot_index s pattern < number_of_total_buckets (table s) →
  ∃ slot b,
    buckets (table s) !! Z.to_nat (slot_index s pattern) = Some slot
    ∧ sh !! Z.to_nat (slot_index s pattern) = Some b
    ∧ bucket_rep (bucket_mem s) (fill_mem s) (dup_mem s) slot b.
Proof.
  intros [] Hi. rewrite inv_total0 in Hi.
  destruct (lookup_lt_is_Some_2 (buckets (table s))
              (Z.to_nat (slot_index s pattern))) as [slot Hslot]; [lia|].
  destruct (Forall2_lookup_l _ _ _ _ _ inv_rep0 Hslot) as (b & Hb & Hrep).
  by exists slot, b.
Qed.

Lemma shape_bytes_bounds (pf_ok : platform_ok pf) s sh :
  table_inv pf s sh →
  0 ≤ Z.of_nat (length (all_bucket_addrs sh)) * sizeof_hash_table_bucket_t pf
  ∧ 0 ≤ Z.of_nat (length (all_fill_addrs sh)) * sizeof_hash_table_fill_t pf
  ∧ 0 ≤ Z.of_nat (length (all_dup_addrs sh))
        * sizeof_hash_table_duplicate_t pf
  ∧ 0 ≤ number_of_total_buckets (table s) * sizeof_pointer pf.
Proof.
  intros []. destruct pf_ok. rewrite inv_total0. split_and!; nia.
Qed.

(** Where the counters count the nodes, the blocks of the nodes are live,
    and so no counter is at [ULONG_MAX]: the increments of
    [Hash_Table_Insert] do not wrap. *)
Lemma counter_increment_exact (pf_ok : platform_ok pf) s sh :
  table_inv pf s sh →
  ulong pf (number_of_buckets_filled (table s) + 1)
  = number_of_buckets_filled (table s) + 1
  ∧ ulong pf (number_of_collisions (table s) + 1)
    = number_of_collisions (table s) + 1
  ∧ ulong pf (number_of_duplicates (table s) + 1)
    = number_of_duplicates (table s) + 1.
Proof.
  intros Hinv.
  pose proof (shape_bytes_bounds pf_ok _ _ Hinv) as (Hbb & Hbf & Hbd & Hbt).
  destruct Hinv. destruct (inv_counters0 pf_ok). destruct pf_ok.
  unfold shape_bytes in inv_bytes0.
  split_and!; apply ulong_small; nia.
Qed.

Lemma after_calloc_spec n size s ok s1 :
  after_calloc pf n size s = (ok, s1) →
  same_table s s1
  ∧ fresh_addr s1 = fresh_addr s
  ∧ if ok then live_bytes s1 = live_bytes s + n * size
               ∧ 0 ≤ n * size
               ∧ live_bytes s1 ≤ SIZE_MAX pf
    else live_bytes s1 = live_bytes s.
Proof.
  unfold after_calloc. intros [= <- <-]. split; [done|]. split; [done|].
  simpl. destruct (calloc_answer _ _ _ _ _).1 eqn:Hok; [|done].
  apply calloc_answer_fits, fits_bounds in Hok. lia.
Qed.

Lemma same_table_fresh s s' : same_table s s' → fresh_addr s' = fresh_addr s.
Proof. intros (_ & Hb & Hf & Hd). unfold fresh_addr. by rewrite Hb, Hf, Hd. Qed.

Lemma insert_empty_slot s sh o pattern :
  table_inv pf s sh →
  0 ≤ slot_index s pattern →
  buckets (table s) !! Z.to_nat (slot_index s pattern) = Some None →
  sh !! Z.to_nat (slot_index s pattern) = Some None →
  returns (Hash_Table_Insert pf o pattern) s (insert_post s o pattern sh).
Proof.
  intros Hinv Hi Hslot Hsh. unfold Hash_Table_Insert.
  apply returns_bind, returns_get.
  apply returns_bind. eapply returns_read_slot; [done..|].
  apply returns_bind, returns_calloc_bucket. cbv zeta.
  destruct (after_calloc pf 1 _ s) as [ok1 s1] eqn:Hac1.
  apply after_calloc_spec in Hac1 as (Hsame1 & Hfresh1 & Hlive1). simpl.
  pose proof Hsame1 as (Ht1 & Hb1 & Hf1 & Hd1).
  destruct ok1.
  2:{ apply returns_ret. left. split_and!; try done.
      eapply table_inv_same; try done; rewrite Hlive1; apply Hinv. }
  apply returns_bind, returns_calloc_fill. cbv zeta.
  set (nb := fresh_addr s) in *.
  destruct (after_calloc pf 1 _ _) as [ok2 s2] eqn:Hac2.
  apply after_calloc_spec in Hac2 as (Hsame2 & Hfresh2 & Hlive2). simpl.
  pose proof Hsame2 as (Ht2 & Hb2 & Hf2 & Hd2). simpl in *.
  destruct ok2.
  2:{ apply returns_bind. unfold free_bucket.
      apply returns_bind, returns_modify, returns_modify, returns_ret.
      left. simpl. split; [done|].
      assert (same_table s
        (set_allocator (live_bytes s2 - sizeof_hash_table_bucket_t pf)
          (alloc_script s2)
          (set_bucket_mem (delete nb (bucket_mem s2)) s2))) as Hsame.
      { split_and!; simpl; try congruence.
        rewrite Hb2, delete_insert_eq. apply delete_id.
        apply fresh_addr_bucket. }
      split; [done|]. split; [lia|].
      eapply table_inv_same; try done; simpl.
      - replace (live_bytes s2 - sizeof_hash_table_bucket_t pf)
          with (live_bytes s) by lia. apply Hinv.
      - pose proof (inv_live _ _ _ Hinv). lia. }
  set (s1' := set_bucket_mem _ s1) in *.
  pose proof (fresh_addr_bucket s1') as Hnfb.
  pose proof (fresh_addr_fill s1') as Hnff.
  set (nf := fresh_addr s1') in *. simpl in Hnfb, Hnff.
  assert (nf ≠ nb) as Hne
    by (intros Heq; rewrite Heq, lookup_insert_eq in Hnfb; done).
  rewrite Hf1 in Hnff.
  apply returns_bind, returns_store_bucket;
    [simpl; rewrite Hb2, lookup_insert_eq; eauto|].
  apply returns_bind, returns_write_slot;
    [done|simpl; rewrite Ht2, Ht1; eauto|].
  apply returns_bind, returns_modify, returns_ret. simpl.
  right. split; [done|].
  exists (<[Z.to_nat (slot_index s pattern) := Some (nb, [FillShape nf o []])]>
            sh).
  pose proof Hinv as [].
  split.
  - eapply (table_inv_update pf s _ sh _ None nb _ [nb] [nf] []);
      try done; simpl.
    + by rewrite Ht2, Ht1.
    + by rewrite Ht2, Ht1.
    + rewrite lookup_insert_eq, lookup_insert_eq. done.
    + apply NoDup_singleton.
    + apply NoDup_singleton.
    + apply NoDup_nil_2.
    + intros x ->%list_elem_of_singleton. apply fresh_addr_bucket.
    + by intros x ->%list_elem_of_singleton.
    + by intros x ?%elem_of_nil.
    + rewrite Hb2, insert_insert_eq, dom_insert_L.
      by rewrite (right_id_L ∅ (∪)).
    + rewrite Hf1, dom_insert_L. by rewrite (right_id_L ∅ (∪)).
    + rewrite Hd2, Hd1. by rewrite (left_id_L ∅ (∪)).
    + intros x Hx. rewrite Hb2, !lookup_insert_ne; done.
    + intros x Hx. rewrite Hf1.
      apply lookup_insert_ne. intros <-. apply Hx, list_elem_of_here.
    + intros x _. by rewrite Hd2, Hd1.
    + intros Hok Hacc.
      destruct (counter_increment_exact Hok _ _ Hinv) as (Hfilled & _ & _).
      destruct Hacc. rewrite Ht2, Ht1, Hfilled. lia.
    + lia.
    + lia.
  - unfold insert_effect. rewrite Hsh. exists nb, nf. split; [done|].
    by rewrite Ht2, Ht1.
Qed.

Lemma owner_nodup {A} (f : A → list positive) (l : list A) i x :
  NoDup (l ≫= f) → l !! i = Some x → NoDup (f x).
Proof.
  revert i. induction l as [|z l IH]; intros i Hnd Hi; [done|].
  rewrite bind_cons in Hnd. apply NoDup_app in Hnd as (Hz & _ & Hl).
  destruct i as [|i]; simplify_eq/=; eauto.
Qed.

Lemma inv_slot_nodup s sh i b fs :
  table_inv pf s sh → sh !! i = Some (Some (b, fs)) →
  NoDup (fill_addrs fs) ∧ NoDup (dup_addrs fs).
Proof.
  intros [] Hi. split.
  - apply (owner_nodup (λ b, fill_addrs (fills_of b)) sh i (Some (b, fs)));
      done.
  - apply (owner_nodup (λ b, dup_addrs (fills_of b)) sh i (Some (b, fs)));
      done.
Qed.

Lemma chain_length_bound s sh i b fs :
  table_inv pf s sh → sh !! i = Some (Some (b, fs)) →
  (length fs < S (size (fill_mem s)))%nat.
Proof.
  intros Hinv Hi. destruct (inv_slot_nodup _ _ _ _ _ Hinv Hi) as [Hnd _].
  destruct Hinv.
  rewrite <-(size_dom (D := gset positive) (fill_mem s)), inv_fill_dom0.
  rewrite <-(length_fmap fa fs). fold (fill_addrs fs).
  rewrite <-(size_list_to_set (C := gset positive) _ Hnd).
  apply Nat.lt_succ_r, subseteq_size. intros x Hx.
  apply elem_of_list_to_set in Hx. apply elem_of_list_to_set.
  by apply (owner_elem (λ b, fill_addrs (fills_of b)) sh i (Some (b, fs))).
Qed.

Lemma insert_hit s sh o pattern b fs :
  table_inv pf s sh →
  0 ≤ slot_index s pattern →
  buckets (table s) !! Z.to_nat (slot_index s pattern) = Some (Some b) →
  sh !! Z.to_nat (slot_index s pattern) = Some (Some (b, fs)) →
  bucket_rep (bucket_mem s) (fill_mem s) (dup_mem s)
    (Some b) (Some (b, fs)) →
  chain_find_equal (compare_function (table s)) o fs = true →
  returns (Hash_Table_Insert pf o pattern) s (insert_post s o pattern sh).
Proof.
  intros Hinv Hi Hslot Hsh (_ & Hbk & Hchain) Hhit. unfold Hash_Table_Insert.
  apply returns_bind, returns_get.
  apply returns_bind. eapply returns_read_slot; [done..|].
  apply returns_bind. eapply returns_load_bucket; [done|].
  apply returns_bind, returns_get. apply returns_bind. simpl.
  pose proof Hinv as [].
  destruct (inv_slot_nodup _ _ _ _ _ Hinv Hsh) as [Hndf Hndd].
  eapply returns_mono.
  { apply insert_walk_hit; try done. by eapply chain_length_bound. }
  intros w s'. unfold hit_post. cbv zeta.
  destruct (after_calloc pf 1 _ s) as [ok s1] eqn:Hac.
  apply after_calloc_spec in Hac as (Hsame & Hfresh & Hlive). simpl.
  pose proof Hsame as (Ht1 & Hb1 & Hf1 & Hd1).
  destruct ok.
  2:{ intros [-> ->]. apply returns_ret. left. split_and!; try done.
      eapply table_inv_same; try done; rewrite Hlive; apply Hinv. }
  intros ((c & p & ->) & Hs' & Hch & Hdf & Hdd & Hff & Hfd).
  apply returns_ret. right. split; [done|].
  set (a := fresh_addr s) in *.
  exists (<[Z.to_nat (slot_index s pattern) :=
            Some (b, chain_insert (compare_function (table s)) o a fs)]> sh).
  assert (table s'
          = set_duplicates (ulong pf (number_of_duplicates (table s) + 1))
              (table s))
    as Htable by (by rewrite Hs').
  assert (bucket_mem s' = bucket_mem s) as Hbm by (by rewrite Hs').
  assert (live_bytes s' = live_bytes s1) as Hlv by (by rewrite Hs').
  split.
  - eapply (table_inv_update pf s _ sh _ (Some (b, fs)) b _ [] [] [a]);
      try done; simpl.
    + rewrite Htable. simpl. symmetry. by apply list_insert_id.
    + by rewrite Htable.
    + split; [done|]. split; [|done]. rewrite Hbm.
      by rewrite chain_insert_hit_head, chain_insert_hit_last.
    + by rewrite chain_insert_hit_fill_addrs.
    + by apply chain_insert_hit_dup_addrs.
    + apply NoDup_nil_2.
    + apply NoDup_nil_2.
    + apply NoDup_singleton.
    + by intros x ?%elem_of_nil.
    + by intros x ?%elem_of_nil.
    + intros x ->%list_elem_of_singleton. apply fresh_addr_dup.
    + rewrite Hbm. by rewrite (left_id_L ∅ (∪)).
    + rewrite Hdf. by rewrite (left_id_L ∅ (∪)).
    + rewrite Hdd. by rewrite (right_id_L ∅ (∪)).
    + intros x _. by rewrite Hbm.
    + intros x Hx. apply Hff.
      by rewrite chain_insert_hit_fill_addrs in Hx.
    + intros x Hx. rewrite chain_insert_hit_dup_addrs in Hx by done.
      apply not_elem_of_cons in Hx as [? ?]. by apply Hfd.
    + intros Hok Hacc.
      destruct (counter_increment_exact Hok _ _ Hinv) as (_ & _ & Hdups).
      destruct Hacc. rewrite Htable, Hdups. simpl. lia.
    + lia.
    + lia.
  - unfold insert_effect. rewrite Hsh. exists a. by rewrite Hhit.
Qed.

(** The end of an insertion that links a new fill entry at [nf] between
    the entries the walk passed and the rest of the chain. *)
Lemma insert_miss_finish s s' sh o pattern b fs :
  let cmp := compare_function (table s) in
  let nf := fresh_addr s in
  table_inv pf s sh →
  sh !! Z.to_nat (slot_index s pattern) = Some (Some (b, fs)) →
  buckets (table s) !! Z.to_nat (slot_index s pattern) = Some (Some b) →
  fill_chain (fill_mem s) (dup_mem s) fs →
  chain_find_equal cmp o fs = false →
  live_bytes s' = live_bytes s + 1 * sizeof_hash_table_fill_t pf →
  live_bytes s' ≤ SIZE_MAX pf →
  table s'
  = set_collisions (ulong pf (number_of_collisions (table s) + 1)) (table s) →
  dup_mem s' = dup_mem s →
  bucket_mem s' !! b
  = Some (Bucket (fa <$> head (chain_insert cmp o nf fs))
            (fa <$> last (chain_insert cmp o nf fs))) →
  (∀ x, x ≠ b → bucket_mem s' !! x = bucket_mem s !! x) →
  dom (bucket_mem s') = dom (bucket_mem s) →
  fill_mem s' !! nf
  = Some (Fill o (fa <$> head (chain_after cmp o fs)) None None) →
  (∀ p, last (chain_before cmp o fs) = Some p →
        fill_mem s' !! fa p = Some (fill_node p (Some nf))) →
  (∀ x, x ≠ nf → Some x ≠ fa <$> last (chain_before cmp o fs) →
        fill_mem s' !! x = fill_mem s !! x) →
  dom (fill_mem s') = {[nf]} ∪ dom (fill_mem s) →
  insert_post s o pattern sh 1 s'.
Proof.
  intros cmp nf Hinv Hsh Hslot Hchain Hmiss Hlive Hmax Htable Hdm Hbb Hbframe
    Hbdom Hnew Hprev Hfframe Hfdom.
  right. split; [done|].
  exists (<[Z.to_nat (slot_index s pattern) :=
            Some (b, chain_insert cmp o nf fs)]> sh).
  destruct (inv_slot_nodup _ _ _ _ _ Hinv Hsh) as [Hndf Hndd].
  pose proof (fresh_addr_fill s) as Hnf. fold nf in Hnf.
  assert (nf ∉ fill_addrs fs) as Hnfs.
  { intros Hin. destruct (fill_chain_allocated _ _ _ _ Hchain Hin). congruence. }
  pose proof Hinv as [].
  pose proof Htable as Htable'.
  split.
  - eapply (table_inv_update pf s _ sh _ (Some (b, fs)) b _ [] [nf] []);
      try done; simpl.
    + rewrite Htable'. simpl. symmetry. by apply list_insert_id.
    + by rewrite Htable'.
    + split; [done|]. split; [done|].
      rewrite (chain_insert_miss cmp o nf fs Hmiss), Hdm.
      apply (fill_chain_splice (fill_mem s)).
      * by rewrite chain_before_after.
      * by rewrite chain_before_after.
      * by rewrite chain_before_after.
      * done.
      * done.
      * intros x Hx Hne. apply Hfframe; [|done]. intros ->.
        by rewrite chain_before_after in Hx.
    + by apply chain_insert_miss_fill_addrs.
    + by rewrite chain_insert_miss_dup_addrs.
    + apply NoDup_nil_2.
    + apply NoDup_singleton.
    + apply NoDup_nil_2.
    + by intros x ?%elem_of_nil.
    + by intros x ->%list_elem_of_singleton.
    + by intros x ?%elem_of_nil.
    + rewrite Hbdom. by rewrite (left_id_L ∅ (∪)).
    + rewrite Hfdom. by rewrite (right_id_L ∅ (∪)).
    + rewrite Hdm. by rewrite (left_id_L ∅ (∪)).
    + intros x Hx. rewrite chain_insert_miss_fill_addrs in Hx by done.
      apply not_elem_of_cons in Hx as [Hx1 Hx2]. apply Hfframe; [done|].
      destruct (last (chain_before cmp o fs)) as [p|] eqn:Hp; [|done].
      simpl. intros [= ->]. apply Hx2. rewrite <-(chain_before_after cmp o fs).
      rewrite fill_addrs_app. apply elem_of_app. left.
      apply list_elem_of_fmap_2. by apply last_Some_elem_of.
    + intros x _. by rewrite Hdm.
    + intros Hok Hacc.
      destruct (counter_increment_exact Hok _ _ Hinv) as (_ & Hcoll & _).
      destruct Hacc. rewrite Htable', Hcoll. simpl. lia.
    + lia.
  - unfold insert_effect. rewrite Hsh. exists nf. fold cmp. by rewrite Hmiss.
Qed.

Lemma fill_chain_last_before
    (fm : gmap positive (hash_table_fill_t Obj))
    (dm : gmap positive (hash_table_duplicate_t Obj)) pre fs p :
  fill_chain fm dm (pre ++ fs) → last pre = Some p →
  fm !! fa p = Some (fill_node p (fa <$> head fs)).
Proof.
  induction pre as [|q pre IH]; [done|]. simpl.
  intros (Hq & _ & Hc) Hl. destruct pre as [|q' pre].
  - by injection Hl as <-.
  - apply IH; [done|]. by rewrite last_cons_cons in Hl.
Qed.

Lemma splice_head pre fs (new : fill_shape Obj) :
  fa <$> head (pre ++ new :: fs)
  = match last pre with
    | Some _ => fa <$> head (pre ++ fs)
    | None => Some (fa new)
    end.
Proof.
  destruct pre as [|q pre]; [done|]. simpl.
  by destruct (last (q :: pre)) eqn:Hl; [|apply last_None in Hl].
Qed.

Lemma splice_last pre fs (new : fill_shape Obj) :
  fa <$> last (pre ++ new :: fs)
  = match head fs with
    | Some _ => fa <$> last (pre ++ fs)
    | None => Some (fa new)
    end.
Proof.
  rewrite last_app_cons. destruct fs as [|f fs]; [done|].
  by rewrite last_cons_cons, last_app_cons.
Qed.

Lemma insert_miss s sh o pattern b fs :
  table_inv pf s sh →
  0 ≤ slot_index s pattern →
  buckets (table s) !! Z.to_nat (slot_index s pattern) = Some (Some b) →
  sh !! Z.to_nat (slot_index s pattern) = Some (Some (b, fs)) →
  bucket_rep (bucket_mem s) (fill_mem s) (dup_mem s)
    (Some b) (Some (b, fs)) →
  chain_find_equal (compare_function (table s)) o fs = false →
  returns (Hash_Table_Insert pf o pattern) s (insert_post s o pattern sh).
Proof.
  intros Hinv Hi Hslot Hsh (_ & Hbk & Hchain) Hmiss. unfold Hash_Table_Insert.
  apply returns_bind, returns_get.
  apply returns_bind. eapply returns_read_slot; [done..|].
  apply returns_bind. eapply returns_load_bucket; [done|].
  apply returns_bind, returns_get. apply returns_bind. simpl.
  eexists _, _. split.
  { apply insert_walk_miss; [done| |done]. by eapply chain_length_bound. }
  set (cmp := compare_function (table s)) in *.
  apply returns_bind, returns_calloc_fill. cbv zeta.
  destruct (after_calloc pf 1 _ s) as [ok s1] eqn:Hac.
  apply after_calloc_spec in Hac as (Hsame & Hfresh & Hlive). simpl.
  pose proof Hsame as (Ht1 & Hb1 & Hf1 & Hd1).
  destruct ok.
  2:{ apply returns_ret. left. split_and!; try done.
      eapply table_inv_same; try done; rewrite Hlive; apply Hinv. }
  pose proof (fresh_addr_fill s) as Hnf. set (nf := fresh_addr s) in *.
  pose proof (chain_before_after cmp o fs) as Hsplit.
  pose proof (chain_insert_miss cmp o nf fs Hmiss) as Hins.
  assert (∀ p, last (chain_before cmp o fs) = Some p →
               fill_mem s !! fa p
               = Some (fill_node p (fa <$> head (chain_after cmp o fs)))
               ∧ fa p ≠ nf) as Hprev.
  { intros p Hp. rewrite <-Hsplit in Hchain.
    pose proof (fill_chain_last_before _ _ _ _ _ Hchain Hp) as Hnode.
    split; [done|]. intros Heq. rewrite Heq in Hnode. congruence. }
  assert (0 ≤ hash_function (table s) pattern
                (number_of_total_buckets (table s))) as Hi' by done.
  destruct (chain_after cmp o fs) as [|f0 af] eqn:Haf;
    destruct (last (chain_before cmp o fs)) as [p|] eqn:Hp; simpl.
  - destruct (Hprev p eq_refl) as [Hpnode Hpne].
    apply returns_bind, returns_bind.
    eapply returns_read_slot; [done|simpl; rewrite Ht1; exact Hslot|].
    simpl. apply returns_bind.
    eapply returns_load_bucket; [simpl; rewrite Hb1; exact Hbk|].
    apply returns_store_bucket; [simpl; rewrite Hb1; eauto|].
    apply returns_bind, returns_bind.
    eapply returns_load_fill;
      [simpl; rewrite lookup_insert_ne by done; exact Hpnode|].
    apply returns_store_fill;
      [simpl; rewrite lookup_insert_ne by done; eauto|].
    apply returns_bind, returns_modify, returns_ret. simpl.
    apply (insert_miss_finish s _ sh o pattern b fs); try done; simpl;
      fold cmp nf; rewrite ?Haf, ?Hp, ?Ht1, ?Hb1, ?Hd1, ?Hins; try done.
    + lia.
    + lia.
    + rewrite lookup_insert_eq, splice_head, splice_last, Hp. simpl.
      by rewrite app_nil_r in Hsplit; rewrite app_nil_r, Hsplit.
    + intros x Hx. by rewrite lookup_insert_ne.
    + apply dom_insert_lookup_L. eauto.
    + rewrite lookup_insert_ne by done. apply lookup_insert_eq.
    + intros p' [= <-]. apply lookup_insert_eq.
    + intros x Hx Hxp. rewrite !lookup_insert_ne; [done|done|].
      intros Heq. apply Hxp. by rewrite <-Heq.
    + rewrite dom_insert_lookup_L, dom_insert_L; [done|].
      rewrite lookup_insert_ne by done. eauto.
  - apply returns_bind, returns_bind.
    eapply returns_read_slot; [done|simpl; rewrite Ht1; exact Hslot|].
    simpl. apply returns_bind.
    eapply returns_load_bucket; [simpl; rewrite Hb1; exact Hbk|].
    apply returns_store_bucket; [simpl; rewrite Hb1; eauto|].
    apply returns_bind, returns_bind.
    eapply returns_read_slot; [done|simpl; rewrite Ht1; exact Hslot|].
    simpl. apply returns_bind.
    eapply returns_load_bucket; [simpl; apply lookup_insert_eq|].
    apply returns_store_bucket; [simpl; rewrite lookup_insert_eq; eauto|].
    apply returns_bind, returns_modify, returns_ret. simpl.
    apply (insert_miss_finish s _ sh o pattern b fs); try done; simpl;
      fold cmp nf; rewrite ?Haf, ?Hp, ?Ht1, ?Hb1, ?Hd1, ?Hins; try done.
    + lia.
    + lia.
    + by rewrite lookup_insert_eq, splice_head, splice_last, Hp.
    + intros x Hx. by rewrite !lookup_insert_ne.
    + rewrite insert_insert_eq. apply dom_insert_lookup_L. eauto.
    + apply lookup_insert_eq.
    + intros x Hx _. by rewrite lookup_insert_ne.
    + by rewrite dom_insert_L.
  - destruct (Hprev p eq_refl) as [Hpnode Hpne].
    apply returns_bind, returns_bind.
    eapply returns_load_fill; [simpl; apply lookup_insert_eq|].
    apply returns_store_fill; [simpl; rewrite lookup_insert_eq; eauto|].
    apply returns_bind, returns_bind.
    eapply returns_load_fill;
      [simpl; rewrite !lookup_insert_ne by done; exact Hpnode|].
    apply returns_store_fill;
      [simpl; rewrite !lookup_insert_ne by done; eauto|].
    apply returns_bind, returns_modify, returns_ret. simpl.
    apply (insert_miss_finish s _ sh o pattern b fs); try done; simpl;
      fold cmp nf; rewrite ?Haf, ?Hp, ?Ht1, ?Hb1, ?Hd1, ?Hins; try done.
    + lia.
    + lia.
    + by rewrite splice_head, splice_last, Hp, Hsplit.
    + rewrite lookup_insert_ne by done. apply lookup_insert_eq.
    + intros p' [= <-]. apply lookup_insert_eq.
    + intros x Hx Hxp. rewrite !lookup_insert_ne; [done|done|done|].
      intros Heq. apply Hxp. by rewrite <-Heq.
    + rewrite insert_insert_eq, dom_insert_lookup_L, dom_insert_L; [done|].
      rewrite lookup_insert_ne by done. eauto.
  - apply returns_bind, returns_bind.
    eapply returns_load_fill; [simpl; apply lookup_insert_eq|].
    apply returns_store_fill; [simpl; rewrite lookup_insert_eq; eauto|].
    apply returns_bind, returns_bind.
    eapply returns_read_slot; [done|simpl; rewrite Ht1; exact Hslot|].
    simpl. apply returns_bind.
    eapply returns_load_bucket; [simpl; rewrite Hb1; exact Hbk|].
    apply returns_store_bucket; [simpl; rewrite Hb1; eauto|].
    apply returns_bind, returns_modify, returns_ret. simpl.
    apply (insert_miss_finish s _ sh o pattern b fs); try done; simpl;
      fold cmp nf; rewrite ?Haf, ?Hp, ?Ht1, ?Hb1, ?Hd1, ?Hins; try done.
    + lia.
    + lia.
    + by rewrite lookup_insert_eq, splice_head, splice_last, Hp, Hsplit.
    + intros x Hx. by rewrite lookup_insert_ne.
    + apply dom_insert_lookup_L. eauto.
    + apply lookup_insert_eq.
    + intros x Hx _. by rewrite !lookup_insert_ne.
    + by rewrite insert_insert_eq, dom_insert_L.
Qed.

(** [Hash_Table_Insert] on a table that satisfies the invariant, called
    with a pattern hashed inside the bucket array: it ends without a fault,
    and either reports the allocation failure and leaves the table as it
    was, or succeeds with the effect of [insert_effect]. *)
Lemma Hash_Table_Insert_correct s sh o pattern :
  table_inv pf s sh →
  0 ≤ slot_index s pattern < number_of_total_buckets (table s) →
  returns (Hash_Table_Insert pf o pattern) s (insert_post s o pattern sh).
Proof.
  intros Hinv Hi.
  destruct (table_inv_slot s sh pattern Hinv Hi) as (slot & b & Hs & Hb & Hrep).
  destruct b as [[b fs]|].
  - pose proof Hrep as (-> & _).
    destruct (chain_find_equal (compare_function (table s)) o fs) eqn:Hfind.
    + eapply insert_hit; try done. lia.
    + eapply insert_miss; try done. lia.
  - simpl in Hrep. subst slot. apply insert_empty_slot; try done. lia.
Qed.

End InsertCorrect.

(** ** Hash_Table_Match on a table that satisfies the invariant *)

Section MatchCorrect.

Context {Obj : Type}.
Variable pf : platform.
Implicit Types (s : state Obj) (sh : table_shape Obj).
Implicit Types (fs : list (fill_shape Obj)) (ds : list (positive * Obj)).

(** The first fill entry of the chain the search strategy accepts. *)
Fixpoint chain_search (search : string → Obj → Z) (pattern : string) fs
  : option (fill_shape Obj) :=
  match fs with
  | [] => None
  | f :: fs' =>
    if search pattern (fobj f) =? 1 then Some f
    else chain_search search pattern fs'
  end.

(** An array of [n] cells that starts with the first [n] of [objs] and is
    NULL after them. *)
Definition match_records (n : nat) (objs : list Obj) : list (option Obj) :=
  (Some <$> take n objs) ++ replicate (n - length objs) None.

Lemma match_records_length n objs : length (match_records n objs) = n.
Proof.
  unfold match_records.
  rewrite length_app, length_fmap, length_take, length_replicate. lia.
Qed.

Lemma match_records_short n objs :
  (length objs ≤ n)%nat →
  match_records n objs = (Some <$> objs) ++ replicate (n - length objs) None.
Proof. intros. unfold match_records. by rewrite take_ge. Qed.

Lemma match_records_full n objs more :
  length objs = n → match_records n (objs ++ more) = match_records n objs.
Proof.
  intros <-. unfold match_records.
  rewrite take_app_length, take_ge, length_app by done.
  by replace (length objs - (length objs + length more))%nat
    with (length objs - length objs)%nat by lia.
Qed.

Lemma match_records_write n objs x :
  (length objs < n)%nat →
  <[length objs := Some x]> (match_records n objs)
  = match_records n (objs ++ [x]).
Proof.
  intros Hlt. rewrite !match_records_short by (rewrite ?length_app; simpl; lia).
  rewrite length_app. simpl.
  replace (n - length objs)%nat with (S (n - (length objs + 1)))%nat by lia.
  rewrite fmap_app. simpl. rewrite <-app_assoc. simpl.
  rewrite insert_app_r_alt by (by rewrite length_fmap).
  by rewrite length_fmap, Nat.sub_diag.
Qed.

(** The inner loop copies the duplicate chain behind the records already
    stored, until the array is full. *)
Lemma collect_duplicates_spec ds : ∀ fuel pre n s,
  dup_chain (dup_mem s) ds →
  (length ds < fuel)%nat →
  (length pre ≤ n)%nat →
  Z.of_nat n ≤ ULONG_MAX pf →
  collect_duplicates pf fuel (match_records n pre) (Z.of_nat (length pre))
    (Z.of_nat n) (head_addr ds) s
  = Done (match_records n (pre ++ ds.*2),
          Z.of_nat (min n (length pre + length ds))) s.
Proof.
  induction ds as [|d ds IH]; intros fuel pre n s Hc Hfuel Hpre Hn;
    (destruct fuel as [|fuel]; [simpl in Hfuel; lia|]); simpl.
  - rewrite app_nil_r. unfold ret. do 3 f_equal. lia.
  - destruct Hc as [Hd Hc].
    destruct (Z.ltb_spec (Z.of_nat (length pre)) (Z.of_nat n)) as [Hlt|Hge].
    + unfold bind at 1, load_duplicate, bind at 1, get. rewrite Hd. simpl.
      unfold bind at 1, write_record.
      rewrite match_records_length.
      destruct (Z.leb_spec 0 (Z.of_nat (length pre))); [|lia].
      destruct (Z.ltb_spec (Z.of_nat (length pre)) (Z.of_nat n)); [|lia].
      simpl. unfold ret. rewrite Nat2Z.id.
      rewrite match_records_write by lia.
      rewrite ulong_small by lia.
      replace (Z.of_nat (length pre) + 1)
        with (Z.of_nat (length (pre ++ [d.2])))
        by (rewrite length_app; simpl; lia).
      rewrite IH; [|done|simpl in Hfuel; lia|rewrite length_app; simpl; lia|done].
      rewrite <-app_assoc, length_app. simpl. do 3 f_equal. lia.
    + unfold ret. rewrite match_records_full by lia. do 3 f_equal. lia.
Qed.

(** What [Hash_Table_Match] does at the fill entry the search strategy
    accepts (lines 350-374), as a function of the entry's object and of
    its first duplicate. *)
Definition match_at (o : Obj) (first_dup : option positive) (found max : Z)
  : M (option (list (option Obj)) * Z) :=
  ok <- calloc pf max (sizeof_pointer pf) ;;
  if ok : bool then
    found_records <- write_record (replicate (Z.to_nat max) None) 0 o ;;
    s2 <- get ;;
    r <- collect_duplicates pf (S (size (dup_mem s2))) found_records
           (ulong pf (found + 1)) max first_dup ;;
    ret (Some (fst r), snd r)
  else ret (None, found).

Lemma match_walk_step fuel pattern found max c cur s :
  fill_mem s !! c = Some cur →
  match_walk pf (S fuel) pattern found max (Some c) s
  = if search_function (table s) pattern (object cur) =? 1
    then match_at (object cur) (first_duplicate cur) found max s
    else match_walk pf fuel pattern found max (next_fill cur) s.
Proof.
  intros Hc. cbn [match_walk]. unfold bind at 1, get.
  unfold bind at 1, load_fill, bind at 1, get. rewrite Hc.
  unfold ret at 1. cbv beta iota. by destruct (_ =? 1).
Qed.

(** The outer loop passes the entries the search strategy rejects. *)
Lemma match_walk_skip pattern found max fs : ∀ fuel s,
  fill_chain (fill_mem s) (dup_mem s) fs →
  (length fs < fuel)%nat →
  match_walk pf fuel pattern found max (fa <$> head fs) s
  = match chain_search (search_function (table s)) pattern fs with
    | Some f => match_at (fobj f) (head_addr (fdups f)) found max s
    | None => Done (None, found) s
    end.
Proof.
  induction fs as [|f fs IH]; intros fuel s Hc Hfuel;
    (destruct fuel as [|fuel]; [simpl in Hfuel; lia|]); [done|].
  destruct Hc as (Hf & Hd & Hc).
  cbn [chain_search head fmap option_fmap option_map].
  rewrite (match_walk_step _ _ _ _ _ _ _ Hf). cbn [object fill_node].
  destruct (_ =? 1); [done|].
  apply IH; [done|simpl in Hfuel; lia].
Qed.

Lemma match_at_refused o first_dup found max s s1 :
  after_calloc pf max (sizeof_pointer pf) s = (false, s1) →
  match_at o first_dup found max s = Done (None, found) s1.
Proof. intros Hac. unfold match_at, bind at 1. by rewrite calloc_eq, Hac. Qed.

(** With [max_num_records = 0] and an array returned for it, the store of
    the representative lies outside the array. *)
Lemma match_at_zero o first_dup found s s1 :
  after_calloc pf 0 (sizeof_pointer pf) s = (true, s1) →
  match_at o first_dup found 0 s = Fault RecordIndexOutOfRange.
Proof. intros Hac. unfold match_at, bind at 1. by rewrite calloc_eq, Hac. Qed.

Lemma match_at_records f max s s1 :
  after_calloc pf max (sizeof_pointer pf) s = (true, s1) →
  0 < max ≤ ULONG_MAX pf →
  dup_chain (dup_mem s) (fdups f) →
  (length (fdups f) ≤ size (dup_mem s))%nat →
  match_at (fobj f) (head_addr (fdups f)) 0 max s
  = Done (Some (match_records (Z.to_nat max) (fobj f :: (fdups f).*2)),
          Z.of_nat (min (Z.to_nat max) (S (length (fdups f))))) s1.
Proof.
  intros Hac [Hmax Hbound] Hd Hlen. unfold match_at, bind at 1.
  rewrite calloc_eq, Hac. cbv beta iota. cbn [fst snd].
  apply after_calloc_spec in Hac as ((Ht & Hb & Hf & Hdm) & _ & Hlive & Hsz).
  destruct (Z_of_nat_complete max) as [n ->]; [lia|].
  rewrite Nat2Z.id in *.
  unfold bind at 1, write_record. rewrite length_replicate.
  destruct (Z.ltb_spec 0 (Z.of_nat n)); [|lia].
  change ((0 <=? 0) && true) with true. cbv beta iota.
  unfold ret at 1. unfold bind at 1, get.
  replace (<[Z.to_nat 0 := Some (fobj f)]> (replicate n None))
    with (match_records n [fobj f]).
  2:{ rewrite match_records_short by (simpl; lia).
      destruct n as [|n]; [lia|]. simpl. by rewrite Nat.sub_0_r. }
  rewrite ulong_small by lia.
  unfold bind at 1.
  change (0 + 1) with (Z.of_nat (length [fobj f])).
  rewrite collect_duplicates_spec;
    [done|by rewrite Hdm|rewrite Hdm; lia|simpl; lia|done].
Qed.

Lemma chain_search_elem search pattern fs f :
  chain_search search pattern fs = Some f →
  f ∈ fs ∧ search pattern (fobj f) = 1.
Proof.
  induction fs as [|g fs IH]; simpl; [done|].
  destruct (Z.eqb_spec (search pattern (fobj g)) 1) as [Heq|Hne].
  - intros [= ->]. split; [apply list_elem_of_here|done].
  - intros Hs. destruct (IH Hs). split; [by apply list_elem_of_further|done].
Qed.

Lemma fill_chain_elem
    (fm : gmap positive (hash_table_fill_t Obj))
    (dm : gmap positive (hash_table_duplicate_t Obj)) fs f :
  fill_chain fm dm fs → f ∈ fs → dup_chain dm (fdups f).
Proof.
  induction fs as [|g fs IH]; simpl; intros Hc Hf.
  - by apply elem_of_nil in Hf.
  - destruct Hc as (_ & Hd & Hc).
    apply elem_of_cons in Hf as [->|Hf]; eauto.
Qed.

Lemma dup_length_bound s sh i b fs f :
  table_inv pf s sh → sh !! i = Some (Some (b, fs)) → f ∈ fs →
  (length (fdups f) ≤ size (dup_mem s))%nat.
Proof.
  intros Hinv Hi Hf.
  destruct (inv_slot_nodup _ _ _ _ _ _ Hinv Hi) as [_ Hnd].
  apply list_elem_of_lookup in Hf as [j Hj].
  pose proof (owner_nodup (λ f, (fdups f).*1) fs j f Hnd Hj) as Hndf.
  destruct Hinv.
  rewrite <-(size_dom (D := gset positive) (dup_mem s)), inv_dup_dom0.
  rewrite <-(length_fmap fst (fdups f)).
  rewrite <-(size_list_to_set (C := gset positive) _ Hndf).
  apply subseteq_size. intros x Hx.
  apply elem_of_list_to_set in Hx. apply elem_of_list_to_set.
  apply (owner_elem (λ b, dup_addrs (fills_of b)) sh i (Some (b, fs)));
    [done|]. simpl.
  by apply (owner_elem (λ f, (fdups f).*1) fs j f).
Qed.

(** The fill entry [Hash_Table_Match] stops at, read off the shape. *)
Definition table_lookup s sh (pattern : string) : option (fill_shape Obj) :=
  match sh !! Z.to_nat (slot_index s pattern) with
  | Some (Some (_, fs)) =>
    chain_search (search_function (table s)) pattern fs
  | _ => None
  end.

Lemma Hash_Table_Match_unfold s sh pattern found max :
  table_inv pf s sh →
  0 ≤ slot_index s pattern < number_of_total_buckets (table s) →
  Hash_Table_Match pf pattern found max s
  = match sh !! Z.to_nat (slot_index s pattern) with
    | Some (Some (_, fs)) =>
      match chain_search (search_function (table s)) pattern fs with
      | Some f => match_at (fobj f) (head_addr (fdups f)) found max s
      | None => Done (None, found) s
      end
    | _ => Done (None, 0) s
    end.
Proof.
  intros Hinv Hi.
  destruct (table_inv_slot pf s sh pattern Hinv Hi)
    as (slot & b & Hs & Hb & Hrep).
  unfold Hash_Table_Match. unfold bind at 1, get.
  unfold bind at 1, read_slot, bind at 1, get. fold (slot_index s pattern).
  destruct (Z.leb_spec 0 (slot_index s pattern)); [|lia].
  rewrite Hs, Hb. unfold ret at 1.
  destruct b as [[b fs]|]; simpl in Hrep.
  - destruct Hrep as (-> & Hbk & Hc).
    unfold bind at 1, load_bucket, bind at 1, get. rewrite Hbk.
    unfold ret at 1. unfold bind at 1, get. cbn [first_fill].
    apply match_walk_skip; [done|]. by eapply chain_length_bound.
  - by subst slot.
Qed.

(** The loops of [Hash_Table_Match] write to the result array only. *)
Lemma collect_duplicates_state fuel : ∀ recs found max p s r s',
  collect_duplicates pf fuel recs found max p s = Done r s' → s' = s.
Proof.
  induction fuel as [|fuel IH]; intros recs found max p s r s'; [done|].
  simpl. destruct p as [d|]; [|by intros [= _ <-]].
  destruct (found <? max); [|by intros [= _ <-]].
  unfold bind at 1, load_duplicate, bind at 1, get.
  destruct (dup_mem s !! d) as [dn|]; [|done]. unfold ret at 1.
  unfold bind at 1, write_record.
  destruct ((0 <=? found) && (found <? Z.of_nat (length recs))); [|done].
  unfold ret at 1. apply IH.
Qed.

(** The state after the accepted entry is the state after the [calloc] of
    the array, and an array is returned exactly when that succeeded. *)
Lemma match_at_state o first_dup found max s r s' :
  match_at o first_dup found max s = Done r s' →
  s' = (after_calloc pf max (sizeof_pointer pf) s).2
  ∧ (after_calloc pf max (sizeof_pointer pf) s).1
    = match r.1 with Some _ => true | None => false end.
Proof.
  unfold match_at, bind at 1. rewrite calloc_eq.
  destruct (after_calloc pf max (sizeof_pointer pf) s) as [[|] s1];
    cbn [fst snd]; [|by intros [= <- <-]].
  unfold bind at 1, write_record.
  destruct ((0 <=? 0) && _); [|done]. unfold ret at 1.
  unfold bind at 1, get. unfold bind at 1.
  destruct (collect_duplicates _ _ _ _ _ _ _) as [r0 s0|] eqn:Hc; [|done].
  apply collect_duplicates_state in Hc as ->. by intros [= <- <-].
Qed.

Lemma collect_duplicates_fault fuel : ∀ recs found max p s,
  collect_duplicates pf fuel recs found max p s
  ≠ Fault BucketIndexOutOfRange.
Proof.
  induction fuel as [|fuel IH]; intros recs found max p s; [done|].
  simpl. destruct p as [d|]; [|done].
  destruct (found <? max); [|done].
  unfold bind at 1, load_duplicate, bind at 1, get.
  destruct (dup_mem s !! d) as [dn|]; [|done]. unfold ret at 1.
  unfold bind at 1, write_record.
  destruct ((0 <=? found) && (found <? Z.of_nat (length recs))); [|done].
  unfold ret at 1. apply IH.
Qed.

Lemma match_at_fault o first_dup found max s :
  match_at o first_dup found max s ≠ Fault BucketIndexOutOfRange.
Proof.
  unfold match_at, bind at 1. rewrite calloc_eq.
  destruct (after_calloc pf max (sizeof_pointer pf) s) as [[|] s1];
    cbn [fst snd]; [|done].
  unfold bind at 1, write_record.
  destruct ((0 <=? 0) && _); [|done]. unfold ret at 1.
  unfold bind at 1, get. unfold bind at 1.
  pose proof (collect_duplicates_fault (S (size (dup_mem s1)))
                (<[Z.to_nat 0:=Some o]> (replicate (Z.to_nat max) None))
                (ulong pf (found + 1)) max first_dup s1) as Hf.
  destruct (collect_duplicates _ _ _ _ _ _ _); [done|]. congruence.
Qed.

(** The bytes of the array [Hash_Table_Match] returns. *)
Definition records_bytes (max : Z) (r : option (list (option Obj)) * Z) : Z :=
  match r.1 with
  | Some _ => max * sizeof_pointer pf
  | None => 0
  end.

(** [Hash_Table_Match] leaves the table and its nodes alone; the array it
    returns is the one new live block. *)
Lemma Hash_Table_Match_same s sh pattern found max r s' :
  table_inv pf s sh →
  0 ≤ slot_index s pattern < number_of_total_buckets (table s) →
  Hash_Table_Match pf pattern found max s = Done r s' →
  same_table s s' ∧ table_inv pf s' sh
  ∧ live_bytes s' = live_bytes s + records_bytes max r
  ∧ 0 ≤ records_bytes max r.
Proof.
  intros Hinv Hi. rewrite (Hash_Table_Match_unfold s sh) by done.
  unfold records_bytes.
  assert (same_table s s ∧ table_inv pf s sh
          ∧ live_bytes s = live_bytes s + 0 ∧ 0 ≤ 0)
    as Hrefl by (split_and!; [done..|lia|done]).
  destruct (sh !! _) as [[[b fs]|]|]; [|by intros [= <- <-]..].
  destruct (chain_search _ _ _) as [f|]; [|by intros [= <- <-]].
  intros [-> Hok]%match_at_state.
  destruct (after_calloc pf max _ s) as [ok s1] eqn:Hac.
  apply after_calloc_spec in Hac as (Hsame & _ & Hlive). simpl in *.
  destruct Hinv.
  destruct r.1; subst ok.
  - destruct Hlive as (Hlive & Hpos & Hmax).
    split; [done|]. split; [|done].
    eapply table_inv_same; [by split|done|lia|done].
  - split; [done|]. split; [|lia].
    eapply table_inv_same; [by split|done|lia|lia].
Qed.

Lemma table_lookup_Some s sh pattern f :
  table_inv pf s sh →
  table_lookup s sh pattern = Some f →
  search_function (table s) pattern (fobj f) = 1
  ∧ dup_chain (dup_mem s) (fdups f)
  ∧ (length (fdups f) ≤ size (dup_mem s))%nat.
Proof.
  intros Hinv. unfold table_lookup.
  destruct (sh !! _) as [[[b fs]|]|] eqn:Hsh; [|done..].
  intros [Hf Hs]%chain_search_elem. split; [done|].
  split; [|by eapply dup_length_bound].
  pose proof (inv_rep _ _ _ Hinv) as Hrep.
  destruct (Forall2_lookup_r _ _ _ _ _ Hrep Hsh) as (slot & _ & _ & _ & Hc).
  by eapply fill_chain_elem.
Qed.

(** [Hash_Table_Match] asked for one record, with the counter at zero. *)
Definition match_one_post s sh (pattern : string)
    (r : option (list (option Obj)) * Z) s' : Prop :=
  let ac := after_calloc pf 1 (sizeof_pointer pf) s in
  match table_lookup s sh pattern with
  | Some f =>
    s' = ac.2
    ∧ r = if ac.1 then (Some [Some (fobj f)], 1) else (None, 0)
  | None => s' = s ∧ r = (None, 0)
  end.

Lemma Hash_Table_Match_one (Hone : 1 ≤ ULONG_MAX pf) s sh pattern :
  table_inv pf s sh →
  0 ≤ slot_index s pattern < number_of_total_buckets (table s) →
  returns (Hash_Table_Match pf pattern 0 1) s (match_one_post s sh pattern).
Proof.
  intros Hinv Hi. unfold returns, match_one_post. cbv zeta.
  rewrite (Hash_Table_Match_unfold s sh) by done.
  pose proof (table_lookup_Some s sh pattern) as Hl. unfold table_lookup in *.
  destruct (sh !! _) as [[[b fs]|]|]; [|by eexists _, _..].
  destruct (chain_search _ _ _) as [f|]; [|by eexists _, _].
  destruct (Hl f Hinv eq_refl) as (Hs & Hd & Hlen).
  destruct (after_calloc pf 1 _ s) as [[|] s1] eqn:Hac.
  - eexists _, _. split.
    + eapply match_at_records; try done.
    + split; [done|]. simpl. by destruct (fdups f).
  - eexists _, _. split; [by eapply match_at_refused|done].
Qed.

(** [Hash_Table_Match] with the counter at zero and room for at least one
    record: the representative, then the duplicates in chain order, as many
    as fit; the counter is the number of records stored. *)
Lemma Hash_Table_Match_found s sh pattern max f s1 :
  table_inv pf s sh →
  0 ≤ slot_index s pattern < number_of_total_buckets (table s) →
  table_lookup s sh pattern = Some f →
  after_calloc pf max (sizeof_pointer pf) s = (true, s1) →
  0 < max ≤ ULONG_MAX pf →
  Hash_Table_Match pf pattern 0 max s
  = Done (Some (match_records (Z.to_nat max) (fobj f :: (fdups f).*2)),
          Z.of_nat (min (Z.to_nat max) (S (length (fdups f))))) s1.
Proof.
  intros Hinv Hi Hlook Hac Hmax.
  rewrite (Hash_Table_Match_unfold s sh) by done.
  destruct (table_lookup_Some s sh pattern f Hinv Hlook) as (Hs & Hd & Hlen).
  unfold table_lookup in Hlook.
  destruct (sh !! _) as [[[b fs]|]|]; [|done..]. rewrite Hlook.
  by apply match_at_records.
Qed.

(** [Hash_Table_First_Match]: the representative the search accepts, or
    NULL when there is none or the one-cell array is refused.  The table
    is left alone and the array is released again. *)
Lemma Hash_Table_First_Match_correct (Hone : 1 ≤ ULONG_MAX pf) s sh pattern :
  table_inv pf s sh →
  0 ≤ slot_index s pattern < number_of_total_buckets (table s) →
  returns (Hash_Table_First_Match pf pattern) s (λ r s',
    same_table s s' ∧ live_bytes s' = live_bytes s ∧ table_inv pf s' sh
    ∧ r = match table_lookup s sh pattern with
          | Some f =>
            if (after_calloc pf 1 (sizeof_pointer pf) s).1
            then Some (fobj f) else None
          | None => None
          end).
Proof.
  intros Hinv Hi. unfold Hash_Table_First_Match.
  apply returns_bind.
  eapply returns_mono; [by apply Hash_Table_Match_one|].
  intros r s1. unfold match_one_post. cbv zeta.
  destruct (after_calloc pf 1 _ s) as [ok s2] eqn:Hac.
  apply after_calloc_spec in Hac as (Hsame & _ & Hlive). simpl.
  destruct (table_lookup s sh pattern) as [f|]; intros [-> ->].
  - destruct ok; simpl.
    + apply returns_bind, returns_ret, returns_bind, returns_modify,
        returns_ret. simpl.
      assert (live_bytes s2 - 1 * sizeof_pointer pf = live_bytes s) as Hl
        by lia.
      split_and!; [apply Hsame|done| |done].
      eapply table_inv_same; [done|apply Hsame|simpl..];
        rewrite Hl; apply Hinv.
    + apply returns_ret. split_and!; [done..| |done].
      eapply table_inv_same; [done|done|rewrite Hlive..]; apply Hinv.
  - by apply returns_ret.
Qed.

(** [Hash_Table_Insert_No_Duplicate]: either the lookup reports a record,
    and the call answers 0 with that record and leaves the table alone;
    or the lookup reports none, and the call is [Hash_Table_Insert] run
    after the lookup, answering 1 for its 1 and -1 for its 0. *)
Definition insert_no_duplicate_post s sh (o : Obj) (pattern : string)
    (found_duplicate : option Obj) (r : Z * option Obj) s' : Prop :=
  (∃ f s1,
     Hash_Table_Match pf pattern 0 1 s = Done (Some [Some (fobj f)], 1) s1
     ∧ table_lookup s sh pattern = Some f
     ∧ r = (0, Some (fobj f))
     ∧ same_table s s' ∧ live_bytes s' = live_bytes s ∧ table_inv pf s' sh)
  ∨ (∃ s1 i,
       Hash_Table_Match pf pattern 0 1 s = Done (None, 0) s1
       ∧ same_table s s1
       ∧ Hash_Table_Insert pf o pattern s1 = Done i s'
       ∧ insert_post pf s1 o pattern sh i s'
       ∧ r = (if i =? 0 then -1 else 1, found_duplicate)).

Lemma insert_no_duplicate_delegate s s1 sh o pattern found_duplicate :
  Hash_Table_Match pf pattern 0 1 s = Done (None, 0) s1 →
  same_table s s1 →
  table_inv pf s1 sh →
  0 ≤ slot_index s pattern < number_of_total_buckets (table s) →
  returns (Hash_Table_Insert_No_Duplicate pf o pattern found_duplicate) s
    (insert_no_duplicate_post s sh o pattern found_duplicate).
Proof.
  intros Hm Hsame Hinv1 Hi.
  assert (0 ≤ slot_index s1 pattern < number_of_total_buckets (table s1))
    as Hi1 by (unfold slot_index; by rewrite (proj1 Hsame)).
  destruct (Hash_Table_Insert_correct pf s1 sh o pattern Hinv1 Hi1)
    as (i & s' & Hins & Hip).
  unfold Hash_Table_Insert_No_Duplicate, returns, bind at 1.
  rewrite Hm. simpl. unfold bind at 1. rewrite Hins.
  exists (if i =? 0 then -1 else 1, found_duplicate), s'.
  split; [by destruct (i =? 0)|].
  right. by exists s1, i.
Qed.

Lemma Hash_Table_Insert_No_Duplicate_correct (Hone : 1 ≤ ULONG_MAX pf)
    s sh o pattern found_duplicate :
  table_inv pf s sh →
  0 ≤ slot_index s pattern < number_of_total_buckets (table s) →
  returns (Hash_Table_Insert_No_Duplicate pf o pattern found_duplicate) s
    (insert_no_duplicate_post s sh o pattern found_duplicate).
Proof.
  intros Hinv Hi.
  destruct (Hash_Table_Match_one Hone s sh pattern Hinv Hi)
    as (r & s1 & Hm & Hpost).
  destruct (Hash_Table_Match_same s sh pattern 0 1 r s1 Hinv Hi Hm)
    as (Hsame & Hinv1 & _).
  unfold match_one_post in Hpost. cbv zeta in Hpost.
  destruct (table_lookup s sh pattern) as [f|] eqn:Hlook;
    destruct Hpost as [Hs1 Hr];
    [|subst r; by eapply insert_no_duplicate_delegate].
  destruct (after_calloc pf 1 _ s) as [ok s2] eqn:Hac.
  apply after_calloc_spec in Hac as (_ & _ & Hlive).
  simpl in Hs1, Hr. subst s1.
  destruct ok; [|subst r; by eapply insert_no_duplicate_delegate].
  subst r. unfold Hash_Table_Insert_No_Duplicate, returns, bind at 1.
  rewrite Hm. simpl.
  eexists _, _. split; [done|]. left. exists f, s2.
  split; [done|]. split; [done|]. split; [done|].
  assert (live_bytes s2 - 1 * sizeof_pointer pf = live_bytes s) as Hl by lia.
  split; [apply Hsame|]. split; [done|].
  eapply table_inv_same; [exact Hinv|apply Hsame|simpl..];
    rewrite Hl; apply Hinv.
Qed.

End MatchCorrect.

(** ** Tables built by the interface *)

Section Reachable.

Context {Obj : Type}.
Variable pf : platform.
Implicit Types (s : state Obj) (sh : table_shape Obj).

(** An index outside the bucket array is not caught: the first access
    [table->buckets[i]] is the fault. *)
Lemma read_slot_out_of_range i s :
  ¬ (0 ≤ i < Z.of_nat (length (buckets (table s)))) →
  read_slot i s = Fault (S := state Obj) BucketIndexOutOfRange.
Proof.
  intros Hi. unfold read_slot, bind, get.
  destruct (Z.leb_spec 0 i); [|done].
  rewrite lookup_ge_None_2; [done|lia].
Qed.

Lemma Hash_Table_Insert_out_of_range o pattern s :
  ¬ (0 ≤ slot_index s pattern < Z.of_nat (length (buckets (table s)))) →
  Hash_Table_Insert pf o pattern s = Fault BucketIndexOutOfRange.
Proof.
  intros Hi. unfold Hash_Table_Insert, bind at 1, get. unfold bind at 1.
  fold (slot_index s pattern). by rewrite read_slot_out_of_range.
Qed.

Lemma Hash_Table_Match_out_of_range pattern found max s :
  ¬ (0 ≤ slot_index s pattern < Z.of_nat (length (buckets (table s)))) →
  Hash_Table_Match pf pattern found max s = Fault BucketIndexOutOfRange.
Proof.
  intros Hi. unfold Hash_Table_Match, bind at 1, get. unfold bind at 1.
  fold (slot_index s pattern). by rewrite read_slot_out_of_range.
Qed.

Lemma all_addrs_replicate {A} (f : option A → list positive) n :
  f None = [] → replicate n None ≫= f = [].
Proof.
  intros Hf. induction n as [|n IH]; [done|].
  change (replicate (S n) None) with (None :: replicate n (@None A)).
  by rewrite bind_cons, Hf, IH.
Qed.

(** A table returned by [Hash_Table_Init] has every slot empty and the
    three counters at zero, and satisfies the invariant. *)
Lemma Hash_Table_Init_inv n h c sr live script s :
  0 ≤ n →
  0 ≤ live →
  Hash_Table_Init pf n h c sr live script = Some s →
  table_inv pf s (replicate (Z.to_nat n) None)
  ∧ table s = Table (replicate (Z.to_nat n) None) n 0 0 0 h c sr.
Proof.
  intros Hn Hlive. unfold Hash_Table_Init.
  destruct (calloc_answer pf 1 _ live script) as [ok1 script1] eqn:H1.
  destruct ok1; [|done].
  destruct (calloc_answer pf n _ _ script1) as [ok2 script2] eqn:H2.
  destruct ok2; [|done]. intros [= <-].
  pose proof (calloc_answer_fits pf 1 (sizeof_hash_table_t pf) live script)
    as Hf1.
  rewrite H1 in Hf1. apply fits_bounds in Hf1; [|done].
  pose proof (calloc_answer_fits pf n (sizeof_pointer pf)
                (live + 1 * sizeof_hash_table_t pf) script1) as Hf2.
  rewrite H2 in Hf2. apply fits_bounds in Hf2; [|done].
  split; [|done].
  split; [..|intros _; split]; simpl; unfold all_bucket_addrs, all_fill_addrs, all_dup_addrs,
    shape_bytes, all_bucket_addrs, all_fill_addrs, all_dup_addrs;
    rewrite ?all_addrs_replicate by done; simpl;
    rewrite ?dom_empty_L; try done.
  - rewrite length_replicate. lia.
  - apply Forall2_replicate. done.
  - apply NoDup_nil_2.
  - apply NoDup_nil_2.
  - apply NoDup_nil_2.
  - lia.
  - lia.
Qed.

(** Without wrap-around the size is the sum it is meant to be. *)
Lemma Hash_Table_Size_exact (pf_ok : platform_ok pf) s sh :
  table_inv pf s sh →
  Hash_Table_Size pf (table s)
  = sizeof_hash_table_t pf
    + number_of_total_buckets (table s) * sizeof_pointer pf
    + number_of_buckets_filled (table s) * sizeof_hash_table_bucket_t pf
    + (number_of_buckets_filled (table s) + number_of_collisions (table s))
      * sizeof_hash_table_fill_t pf
    + number_of_duplicates (table s) * sizeof_hash_table_duplicate_t pf
  ∧ Hash_Table_Size pf (table s) ≤ live_bytes s.
Proof.
  intros Hinv.
  pose proof (shape_bytes_bounds pf pf_ok _ _ Hinv) as (Hb & Hf & Hd & Ht).
  destruct Hinv. destruct (inv_counters0 pf_ok).
  destruct pf_ok. unfold shape_bytes in *.
  rewrite <-acc_filled0 in *. rewrite <-acc_collisions0 in *.
  rewrite <-acc_duplicates0 in *.
  assert (0 ≤ number_of_buckets_filled (table s)
              + number_of_collisions (table s)
          ≤ (number_of_buckets_filled (table s)
             + number_of_collisions (table s))
            * sizeof_hash_table_fill_t pf) by nia.
  unfold Hash_Table_Size.
  rewrite (ulong_small pf (number_of_total_buckets (table s) * _)) by lia.
  rewrite (ulong_small pf (sizeof_hash_table_t pf + _)) by lia.
  rewrite (ulong_small pf (number_of_buckets_filled (table s) * _)) by lia.
  rewrite (ulong_small pf (number_of_buckets_filled (table s)
                           + number_of_collisions (table s))) by lia.
  rewrite (ulong_small pf ((number_of_buckets_filled (table s)
                            + number_of_collisions (table s)) * _)) by lia.
  rewrite (ulong_small pf (number_of_duplicates (table s) * _)) by lia.
  rewrite (ulong_small pf (_ + _ + _)) by lia.
  rewrite (ulong_small pf (_ + _ + _ + _)) by lia.
  rewrite (ulong_small pf (_ + _ + _ + _ + _)) by lia.
  lia.
Qed.

(** The strategies and the bucket count are those given to
    [Hash_Table_Init]: no operation writes them. *)
Definition same_strategies s s' : Prop :=
  hash_function (table s') = hash_function (table s)
  ∧ compare_function (table s') = compare_function (table s)
  ∧ search_function (table s') = search_function (table s)
  ∧ number_of_total_buckets (table s') = number_of_total_buckets (table s).

Lemma same_table_strategies s s' : same_table s s' → same_strategies s s'.
Proof. intros (Ht & _). unfold same_strategies. by rewrite Ht. Qed.

(** How the shape changes in one operation: not at all, or by one
    insertion into one slot. *)
Definition shape_next (cmp : Obj → Obj → Z) sh sh' : Prop :=
  sh' = sh
  ∨ ∃ (i : nat) (o : Obj),
      match sh !! i with
      | Some None => ∃ nb nf, sh' = <[i := Some (nb, [FillShape nf o []])]> sh
      | Some (Some (b, fs)) =>
        ∃ a, sh' = <[i := Some (b, chain_insert cmp o a fs)]> sh
      | None => False
      end.

Lemma insert_post_strategies s sh o pattern r s' :
  insert_post pf s o pattern sh r s' →
  same_strategies s s'
  ∧ ∃ sh', table_inv pf s' sh'
           ∧ shape_next (compare_function (table s)) sh sh'.
Proof.
  intros [(_ & Hsame & _ & Hinv)|(_ & sh' & Hinv & Heff)].
  - split; [by apply same_table_strategies|]. exists sh. split; [done|by left].
  - unfold insert_effect in Heff. split.
    + unfold same_strategies.
      destruct (sh !! _) as [[[b fs]|]|]; [| |done].
      * destruct Heff as (a & _ & ->). by destruct (chain_find_equal _ _ _).
      * by destruct Heff as (nb & nf & _ & ->).
    + exists sh'. split; [done|]. right.
      exists (Z.to_nat (slot_index s pattern)), o.
      destruct (sh !! _) as [[[b fs]|]|]; [| |done].
      * destruct Heff as (a & -> & _). by exists a.
      * destruct Heff as (nb & nf & -> & _). by exists nb, nf.
Qed.

Lemma Hash_Table_Insert_in_range s sh o pattern r s' :
  table_inv pf s sh →
  Hash_Table_Insert pf o pattern s = Done r s' →
  0 ≤ slot_index s pattern < number_of_total_buckets (table s).
Proof.
  intros Hinv Hd. rewrite (inv_total _ _ _ Hinv).
  destruct (decide (0 ≤ slot_index s pattern
                    < Z.of_nat (length (buckets (table s))))) as [|Hn];
    [done|].
  by rewrite Hash_Table_Insert_out_of_range in Hd.
Qed.

Lemma Hash_Table_Match_in_range s sh pattern found max r s' :
  table_inv pf s sh →
  Hash_Table_Match pf pattern found max s = Done r s' →
  0 ≤ slot_index s pattern < number_of_total_buckets (table s).
Proof.
  intros Hinv Hd. rewrite (inv_total _ _ _ Hinv).
  destruct (decide (0 ≤ slot_index s pattern
                    < Z.of_nat (length (buckets (table s))))) as [|Hn];
    [done|].
  by rewrite Hash_Table_Match_out_of_range in Hd.
Qed.

Lemma Hash_Table_First_Match_in_range s sh pattern r s' :
  table_inv pf s sh →
  Hash_Table_First_Match pf pattern s = Done r s' →
  0 ≤ slot_index s pattern < number_of_total_buckets (table s).
Proof.
  intros Hinv. unfold Hash_Table_First_Match, bind at 1.
  destruct (Hash_Table_Match pf pattern 0 1 s) as [r0 s0|] eqn:Hm; [|done].
  intros _. by eapply Hash_Table_Match_in_range.
Qed.

Lemma Hash_Table_Insert_No_Duplicate_in_range s sh o pattern fd r s' :
  table_inv pf s sh →
  Hash_Table_Insert_No_Duplicate pf o pattern fd s = Done r s' →
  0 ≤ slot_index s pattern < number_of_total_buckets (table s).
Proof.
  intros Hinv. unfold Hash_Table_Insert_No_Duplicate, bind at 1.
  destruct (Hash_Table_Match pf pattern 0 1 s) as [r0 s0|] eqn:Hm; [|done].
  intros _. by eapply Hash_Table_Match_in_range.
Qed.

Lemma read_record_Done (recs : list (option Obj)) i s r s' :
  read_record recs i s = Done r s' → s' = s.
Proof.
  unfold read_record. destruct (0 <=? i); [|done].
  destruct (recs !! _); [|done]. by intros [= _ <-].
Qed.

(** The array of a lookup released again: the live bytes are as before
    the lookup. *)
Lemma table_inv_released s s0 sh (r : option (list (option Obj)) * Z) :
  table_inv pf s sh →
  same_table s s0 →
  live_bytes s0 = live_bytes s + records_bytes pf 1 r →
  is_Some r.1 →
  let s' := set_allocator (live_bytes s0 - 1 * sizeof_pointer pf)
              (alloc_script s0) s0 in
  same_table s s' ∧ live_bytes s' = live_bytes s ∧ table_inv pf s' sh.
Proof.
  intros Hinv Hsame Hlive [recs Hr]. unfold records_bytes in Hlive.
  rewrite Hr in Hlive. simpl.
  assert (live_bytes s0 - 1 * sizeof_pointer pf = live_bytes s) as Hl by lia.
  split; [apply Hsame|]. split; [done|].
  eapply table_inv_same; [done|apply Hsame|simpl..]; rewrite Hl; apply Hinv.
Qed.

(** [Hash_Table_First_Match] leaves the table, its nodes and the live
    bytes as they were, whatever it answers. *)
Lemma Hash_Table_First_Match_same s sh pattern r s' :
  table_inv pf s sh →
  Hash_Table_First_Match pf pattern s = Done r s' →
  same_table s s' ∧ live_bytes s' = live_bytes s ∧ table_inv pf s' sh.
Proof.
  intros Hinv Hop.
  pose proof (Hash_Table_First_Match_in_range _ _ _ _ _ Hinv Hop) as Hi.
  unfold Hash_Table_First_Match in Hop.
  apply bind_Done in Hop as (r0 & s0 & Hm & Hk).
  destruct (Hash_Table_Match_same pf _ _ _ _ _ _ _ Hinv Hi Hm)
    as (Hsame & Hinv0 & Hlive & _).
  destruct r0.1 as [recs|] eqn:Hr.
  - apply bind_Done in Hk as (o & s1 & ->%read_record_Done & Hk).
    injection Hk as _ <-. by eapply table_inv_released.
  - injection Hk as _ <-. unfold records_bytes in Hlive.
    rewrite Hr in Hlive. split; [done|]. split; [lia|done].
Qed.

(** One call of [Hash_Table_Insert_No_Duplicate] keeps the invariant and
    changes the shape by one insertion at most. *)
Lemma Hash_Table_Insert_No_Duplicate_next s sh o pattern fd r s' :
  table_inv pf s sh →
  Hash_Table_Insert_No_Duplicate pf o pattern fd s = Done r s' →
  same_strategies s s'
  ∧ ∃ sh', table_inv pf s' sh'
           ∧ shape_next (compare_function (table s)) sh sh'.
Proof.
  intros Hinv Hop.
  pose proof (Hash_Table_Insert_No_Duplicate_in_range _ _ _ _ _ _ _
                Hinv Hop) as Hi.
  unfold Hash_Table_Insert_No_Duplicate in Hop.
  apply bind_Done in Hop as ([object_temp number_records] & s0 & Hm & Hk).
  destruct (Hash_Table_Match_same pf _ _ _ _ _ _ _ Hinv Hi Hm)
    as (Hsame & Hinv0 & Hlive & _).
  destruct (number_records =? 0).
  - apply bind_Done in Hk as (i & s1 & Hins & Hk).
    assert (s' = s1) as -> by (destruct (i =? 0); by injection Hk).
    pose proof (Hash_Table_Insert_in_range _ _ _ _ _ _ Hinv0 Hins) as Hi0.
    pose proof (returns_inv _ _ _ _ _
      (Hash_Table_Insert_correct pf s0 sh o pattern Hinv0 Hi0) Hins) as Hp.
    destruct (insert_post_strategies _ _ _ _ _ _ Hp)
      as [(E1 & E2 & E3 & E4) (sh' & Hinv' & Hn)].
    pose proof Hsame as (Ht & _). rewrite Ht in *.
    split; [done|]. by exists sh'.
  - destruct object_temp as [recs|]; [|done].
    apply bind_Done in Hk as (o' & s1 & ->%read_record_Done & Hk).
    injection Hk as _ <-.
    destruct (table_inv_released s s0 sh (Some recs, number_records))
      as (Hsame' & _ & Hinv'); [done..|by eexists|].
    split; [by apply same_table_strategies|]. exists sh. split; [done|by left].
Qed.

(** The bytes of the blocks the table holds: the table record, the bucket
    array and the nodes. *)
Definition table_bytes s : Z :=
  sizeof_hash_table_t pf
  + number_of_total_buckets (table s) * sizeof_pointer pf
  + Z.of_nat (size (bucket_mem s)) * sizeof_hash_table_bucket_t pf
  + Z.of_nat (size (fill_mem s)) * sizeof_hash_table_fill_t pf
  + Z.of_nat (size (dup_mem s)) * sizeof_hash_table_duplicate_t pf.

Lemma table_bytes_shape s sh :
  table_inv pf s sh →
  shape_bytes pf (number_of_total_buckets (table s)) sh = table_bytes s.
Proof.
  intros []. unfold table_bytes, shape_bytes.
  rewrite <-(size_dom (D := gset positive) (bucket_mem s)), inv_bucket_dom0.
  rewrite <-(size_dom (D := gset positive) (fill_mem s)), inv_fill_dom0.
  rewrite <-(size_dom (D := gset positive) (dup_mem s)), inv_dup_dom0.
  by rewrite !size_list_to_set.
Qed.

Section Built.

Variables (n : Z) (h : string → Z → Z) (c : Obj → Obj → Z).
Variable (sr : string → Obj → Z).

(** The states of a table created by [Hash_Table_Init n h c sr] and used
    through the interface.  The last rule is the rest of the program
    allocating and releasing memory of its own (for instance the array
    [Hash_Table_Match] returned): the bytes of the table stay live. *)
Inductive reachable : state Obj → Prop :=
| reach_init live script s :
    0 ≤ n →
    0 ≤ live →
    Hash_Table_Init pf n h c sr live script = Some s →
    reachable s
| reach_insert s o pattern r s' :
    reachable s →
    Hash_Table_Insert pf o pattern s = Done r s' →
    reachable s'
| reach_insert_no_duplicate s o pattern found_duplicate r s' :
    reachable s →
    Hash_Table_Insert_No_Duplicate pf o pattern found_duplicate s
    = Done r s' →
    reachable s'
| reach_match s pattern found max r s' :
    reachable s →
    Hash_Table_Match pf pattern found max s = Done r s' →
    reachable s'
| reach_first_match s pattern r s' :
    reachable s →
    Hash_Table_First_Match pf pattern s = Done r s' →
    reachable s'
| reach_elsewhere s live script :
    reachable s →
    table_bytes s ≤ live ≤ SIZE_MAX pf →
    reachable (set_allocator live script s).

Definition built s : Prop :=
  hash_function (table s) = h ∧ compare_function (table s) = c
  ∧ search_function (table s) = sr ∧ number_of_total_buckets (table s) = n.

Lemma built_same s s' : built s → same_strategies s s' → built s'.
Proof.
  intros (H1 & H2 & H3 & H4) (E1 & E2 & E3 & E4). unfold built.
  by rewrite E1, E2, E3, E4.
Qed.

(** Every property of shapes that holds of the empty table and is kept by
    an insertion holds of the shape of every reachable state. *)
Lemma reachable_shape (P : table_shape Obj → Prop) s :
  (∀ k, P (replicate k None)) →
  (∀ sh sh', P sh → shape_next c sh sh' → P sh') →
  reachable s →
  built s ∧ ∃ sh, table_inv pf s sh ∧ P sh.
Proof.
  intros Hinit Hnext.
  induction 1 as [live script s Hn Hlive Hinit'
                 |s o pattern r s' _ [Hb (sh & Hinv & HP)] Hop
                 |s o pattern fd r s' _ [Hb (sh & Hinv & HP)] Hop
                 |s pattern found max r s' _ [Hb (sh & Hinv & HP)] Hop
                 |s pattern r s' _ [Hb (sh & Hinv & HP)] Hop
                 |s live script _ [Hb (sh & Hinv & HP)] Hlive].
  - destruct (Hash_Table_Init_inv _ _ _ _ _ _ _ Hn Hlive Hinit') as (Hi & Ht).
    split; [unfold built; by rewrite Ht|eauto].
  - pose proof (Hash_Table_Insert_in_range _ _ _ _ _ _ Hinv Hop) as Hi.
    pose proof (returns_inv _ _ _ _ _
      (Hash_Table_Insert_correct pf s sh o pattern Hinv Hi) Hop) as Hp.
    destruct (insert_post_strategies _ _ _ _ _ _ Hp)
      as [Hs (sh' & Hinv' & Hn)].
    split; [by eapply built_same|]. exists sh'. split; [done|].
    apply (Hnext sh); [done|]. by rewrite <-(proj1 (proj2 Hb)).
  - destruct (Hash_Table_Insert_No_Duplicate_next _ _ _ _ _ _ _ Hinv Hop)
      as [Hs (sh' & Hinv' & Hn)].
    split; [by eapply built_same|]. exists sh'. split; [done|].
    apply (Hnext sh); [done|]. by rewrite <-(proj1 (proj2 Hb)).
  - pose proof (Hash_Table_Match_in_range _ _ _ _ _ _ _ Hinv Hop) as Hi.
    destruct (Hash_Table_Match_same pf _ _ _ _ _ _ _ Hinv Hi Hop)
      as (Hsame & Hinv' & _).
    split; [|eauto]. eapply built_same; [done|].
    by apply same_table_strategies.
  - destruct (Hash_Table_First_Match_same _ _ _ _ _ Hinv Hop)
      as (Hsame & _ & Hinv').
    split; [|eauto]. eapply built_same; [done|].
    by apply same_table_strategies.
  - split; [done|]. exists sh. split; [|done].
    eapply table_inv_same; [done|done|simpl|simpl; lia].
    rewrite (table_bytes_shape s sh Hinv). lia.
Qed.

Lemma reachable_inv s : reachable s → built s ∧ ∃ sh, table_inv pf s sh.
Proof.
  intros Hr.
  destruct (reachable_shape (λ _, True) s) as [Hb (sh & Hinv & _)]; eauto.
Qed.

End Built.

End Reachable.

(** ** What a walk over the table sees *)

Section Observation.

Context {Obj : Type}.
Variable pf : platform.
Implicit Types (s : state Obj) (sh : table_shape Obj).
Implicit Types (fs : list (fill_shape Obj)) (ds : list (positive * Obj)).

(** The objects of a duplicate chain, from [first_duplicate] along
    [next_duplicate]. *)
Fixpoint duplicate_objects (dm : gmap positive (hash_table_duplicate_t Obj))
    (fuel : nat) (p : option positive) : list Obj :=
  match fuel, p with
  | S fuel', Some a =>
    match dm !! a with
    | Some d => dup_object d :: duplicate_objects dm fuel' (next_duplicate d)
    | None => []
    end
  | _, _ => []
  end.

(** The fill entries of a bucket, from [first_fill] along [next_fill]:
    each representative with the objects of its duplicate chain. *)
Fixpoint fill_entries (fm : gmap positive (hash_table_fill_t Obj))
    (dm : gmap positive (hash_table_duplicate_t Obj))
    (fuel : nat) (p : option positive) : list (Obj * list Obj) :=
  match fuel, p with
  | S fuel', Some a =>
    match fm !! a with
    | Some f =>
      (object f, duplicate_objects dm (size dm) (first_duplicate f))
      :: fill_entries fm dm fuel' (next_fill f)
    | None => []
    end
  | _, _ => []
  end.

Definition bucket_entries s (slot : option positive)
  : option (list (Obj * list Obj)) :=
  b ← slot;
  bk ← bucket_mem s !! b;
  Some (fill_entries (fill_mem s) (dup_mem s) (size (fill_mem s))
          (first_fill bk)).

Definition table_entries s : list (option (list (Obj * list Obj))) :=
  bucket_entries s <$> buckets (table s).

(** The same, read off a shape. *)
Definition erase_fill (f : fill_shape Obj) : Obj * list Obj :=
  (fobj f, (fdups f).*2).

Definition erase_bucket (b : option (positive * list (fill_shape Obj)))
  : option (list (Obj * list Obj)) :=
  match b with
  | Some (_, fs) => Some (erase_fill <$> fs)
  | None => None
  end.

Definition erase (sh : list (option (positive * list (fill_shape Obj))))
  : list (option (list (Obj * list Obj))) :=
  erase_bucket <$> sh.

Lemma duplicate_objects_chain
    (dm : gmap positive (hash_table_duplicate_t Obj)) ds : ∀ fuel,
  dup_chain dm ds → (length ds ≤ fuel)%nat →
  duplicate_objects dm fuel (head_addr ds) = ds.*2.
Proof.
  induction ds as [|d ds IH]; intros fuel Hc Hfuel.
  - by destruct fuel.
  - destruct fuel as [|fuel]; [simpl in Hfuel; lia|].
    destruct Hc as [Hd Hc]. simpl. rewrite Hd. simpl.
    rewrite IH; [done|done|simpl in Hfuel; lia].
Qed.

Lemma fill_entries_chain
    (fm : gmap positive (hash_table_fill_t Obj))
    (dm : gmap positive (hash_table_duplicate_t Obj)) fs : ∀ fuel,
  fill_chain fm dm fs → (length fs ≤ fuel)%nat →
  (∀ f, f ∈ fs → (length (fdups f) ≤ size dm)%nat) →
  fill_entries fm dm fuel (fa <$> head fs) = erase_fill <$> fs.
Proof.
  induction fs as [|f fs IH]; intros fuel Hc Hfuel Hd.
  - by destruct fuel.
  - destruct fuel as [|fuel]; [simpl in Hfuel; lia|].
    destruct Hc as (Hf & Hdc & Hc). simpl. rewrite Hf. simpl.
    rewrite duplicate_objects_chain;
      [|done|apply Hd, list_elem_of_here].
    rewrite IH; [done|done|simpl in Hfuel; lia|].
    intros g Hg. by apply Hd, list_elem_of_further.
Qed.

Lemma table_entries_shape s sh :
  table_inv pf s sh → table_entries s = erase sh.
Proof.
  intros Hinv. unfold table_entries, erase.
  apply list_eq_same_length with (length sh).
  - by rewrite length_fmap.
  - rewrite length_fmap.
    apply (Forall2_length _ _ _ (inv_rep _ _ _ Hinv)).
  - intros i x y Hi. rewrite !list_lookup_fmap.
    intros Hx Hy.
    destruct (buckets (table s) !! i) as [slot|] eqn:Hslot; [|done].
    destruct (sh !! i) as [b|] eqn:Hb; [|done].
    simpl in Hx, Hy. simplify_eq.
    pose proof (Forall2_lookup_lr _ _ _ _ _ _ (inv_rep _ _ _ Hinv) Hslot Hb)
      as Hrep.
    destruct b as [[b fs]|]; simpl in Hrep.
    + destruct Hrep as (-> & Hbk & Hc). simpl. rewrite Hbk. simpl.
      f_equal. apply fill_entries_chain; [done| |].
      * pose proof (chain_length_bound pf s sh i b fs Hinv Hb). lia.
      * intros f Hf. by eapply dup_length_bound.
    + by subst slot.
Qed.

End Observation.

(** ** The order of the fill chains *)

Section Order.

Context {Obj : Type}.
Variable cmp : Obj → Obj → Z.
Implicit Types (fs : list (fill_shape Obj)).

(** What the table needs of the compare strategy: the sign flips with the
    arguments, and "before" is transitive. *)
Record consistent_order : Prop := {
  order_flip : ∀ a b, 0 < cmp a b → cmp b a < 0;
  order_trans : ∀ a b c, cmp a b < 0 → cmp b c < 0 → cmp a c < 0;
  order_equal : ∀ a b, cmp a b = 0 → cmp b a = 0
}.

Definition before (f g : fill_shape Obj) : Prop := cmp (fobj f) (fobj g) < 0.

Definition shape_sorted (sh : list (option (positive * list (fill_shape Obj))))
  : Prop :=
  Forall (λ b, StronglySorted before (fills_of b)) sh.

Lemma chain_insert_Forall (Q : fill_shape Obj → Prop) o a fs :
  (∀ f g, fobj f = fobj g → Q f → Q g) →
  Forall Q fs → Q (FillShape a o []) →
  Forall Q (chain_insert cmp o a fs).
Proof.
  intros Hobj Hfs Hnew. induction Hfs as [|f fs Hf Hfs IH]; simpl.
  - by apply Forall_singleton.
  - repeat case_match.
    + apply Forall_cons. split; [by apply (Hobj f)|done].
    + by apply Forall_cons.
    + by repeat apply Forall_cons_2.
Qed.

Lemma chain_insert_sorted o a fs :
  consistent_order →
  StronglySorted before fs →
  StronglySorted before (chain_insert cmp o a fs).
Proof.
  intros [Hflip Htrans _] Hs. induction Hs as [|f fs Hs IH Hf]; simpl.
  - apply SSorted_cons; [apply SSorted_nil|done].
  - destruct (Z.eqb_spec (cmp (fobj f) o) 0) as [Heq|Hne].
    + by apply SSorted_cons.
    + destruct (Z.ltb_spec (cmp (fobj f) o) 0) as [Hlt|Hge].
      * apply SSorted_cons; [done|].
        apply chain_insert_Forall; [|done|done].
        unfold before. by intros g g' <-.
      * assert (before (FillShape a o []) f) as Hof
          by (unfold before; simpl; apply Hflip; lia).
        apply SSorted_cons; [by apply SSorted_cons|].
        apply Forall_cons. split; [done|].
        eapply Forall_impl; [exact Hf|]. intros g Hg.
        unfold before in *. simpl in *. by eapply Htrans.
Qed.

Lemma shape_sorted_init k : shape_sorted (replicate k None).
Proof. apply Forall_replicate. apply SSorted_nil. Qed.

Lemma shape_sorted_next sh sh' :
  consistent_order → shape_sorted sh → shape_next cmp sh sh' →
  shape_sorted sh'.
Proof.
  intros Hord Hs [->|(i & o & Hn)]; [done|].
  destruct (sh !! i) as [[[b fs]|]|] eqn:Hi; [| |done].
  - destruct Hn as (a & ->). apply Forall_insert; [done|]. simpl.
    apply chain_insert_sorted; [done|].
    by apply (Forall_lookup_1 _ _ _ _ Hs Hi).
  - destruct Hn as (nb & nf & ->). apply Forall_insert; [done|]. simpl.
    apply SSorted_cons; [apply SSorted_nil|done].
Qed.

(** In a strictly ascending chain no two entries compare equal. *)
Lemma sorted_distinct (l : list Obj) j k x y :
  consistent_order →
  StronglySorted (λ a b, cmp a b < 0) l →
  j ≠ k → l !! j = Some x → l !! k = Some y → cmp x y ≠ 0.
Proof.
  intros [_ _ Hequal] Hs.
  assert (∀ j k x y, (j < k)%nat → l !! j = Some x → l !! k = Some y →
                     cmp x y < 0) as Hlt.
  { clear j k x y. induction Hs as [|a l Hs IH Ha]; intros j k x y Hjk Hj Hk;
      [done|].
    destruct k as [|k]; [lia|]. destruct j as [|j]; simplify_eq/=.
    - eapply Forall_lookup_1 in Ha; [|done]. done.
    - apply (IH j k); [lia|done..]. }
  intros Hjk Hj Hk Heq.
  destruct (Nat.lt_total j k) as [Hlt'|[->|Hgt]]; [|done|].
  - pose proof (Hlt j k x y Hlt' Hj Hk). lia.
  - pose proof (Hlt k j y x Hgt Hk Hj). apply Hequal in Heq. lia.
Qed.

End Order.

(** ** The specification's reading of insertion

    The table as the specification describes it: per slot an optional
    chain of (representative, duplicates) pairs, and the three counters. *)

Section Specification.

Context {Obj : Type}.
Variable cmp : Obj → Obj → Z.

Record spec_table := SpecTable {
  spec_buckets : list (option (list (Obj * list Obj)));
  spec_buckets_filled : Z;
  spec_collisions : Z;
  spec_duplicates : Z
}.

(** The walk from the chain head: result 0 appends to the duplicates of
    the entry, a negative result moves on, a positive result puts a new
    entry before the current one, the end of the chain puts it last. *)
Fixpoint spec_walk (o : Obj) (chain : list (Obj * list Obj))
  : list (Obj * list Obj) :=
  match chain with
  | [] => [(o, [])]
  | (representative, duplicates) :: rest =>
    if cmp representative o =? 0 then
      (representative, duplicates ++ [o]) :: rest
    else if cmp representative o <? 0 then
      (representative, duplicates) :: spec_walk o rest
    else (o, []) :: (representative, duplicates) :: rest
  end.

(** Does the walk end in the duplicate case? *)
Fixpoint spec_walk_duplicate (o : Obj) (chain : list (Obj * list Obj))
  : bool :=
  match chain with
  | [] => false
  | (representative, _) :: rest =>
    if cmp representative o =? 0 then true
    else if cmp representative o <? 0 then spec_walk_duplicate o rest
    else false
  end.

Definition spec_insert (i : nat) (o : Obj) (t : spec_table) : spec_table :=
  match spec_buckets t !! i with
  | Some None =>
    SpecTable (<[i := Some [(o, [])]]> (spec_buckets t))
      (spec_buckets_filled t + 1) (spec_collisions t) (spec_duplicates t)
  | Some (Some chain) =>
    if spec_walk_duplicate o chain then
      SpecTable (<[i := Some (spec_walk o chain)]> (spec_buckets t))
        (spec_buckets_filled t) (spec_collisions t) (spec_duplicates t + 1)
    else
      SpecTable (<[i := Some (spec_walk o chain)]> (spec_buckets t))
        (spec_buckets_filled t) (spec_collisions t + 1) (spec_duplicates t)
  | None => t
  end.

(** The first entry of a chain the search strategy accepts. *)
Fixpoint spec_search (search : string → Obj → Z) (pattern : string)
    (chain : list (Obj * list Obj)) : option (Obj * list Obj) :=
  match chain with
  | [] => None
  | e :: rest =>
    if search pattern e.1 =? 1 then Some e
    else spec_search search pattern rest
  end.

Lemma erase_chain_insert o a (fs : list (fill_shape Obj)) :
  erase_fill <$> chain_insert cmp o a fs = spec_walk o (erase_fill <$> fs).
Proof.
  induction fs as [|f fs IH]; simpl; [done|].
  repeat case_match; simpl; try done.
  - unfold erase_fill at 1. simpl. by rewrite fmap_app.
  - f_equal. apply IH.
Qed.

Lemma erase_chain_find_equal o (fs : list (fill_shape Obj)) :
  chain_find_equal cmp o fs = spec_walk_duplicate o (erase_fill <$> fs).
Proof.
  induction fs as [|f fs IH]; simpl; [done|]. by repeat case_match.
Qed.

Lemma erase_chain_search search pattern (fs : list (fill_shape Obj)) :
  erase_fill <$> chain_search search pattern fs
  = spec_search search pattern (erase_fill <$> fs).
Proof.
  induction fs as [|f fs IH]; simpl; [done|]. by repeat case_match.
Qed.

End Specification.

(** ** Properties of the tables built by the interface *)

Section Properties.

Context {Obj : Type}.
Variable pf : platform.
Variables (n : Z) (h : string → Z → Z) (c : Obj → Obj → Z).
Variable (sr : string → Obj → Z).
Implicit Types (s : state Obj).

(** Every duplicate compares equal to the representative it hangs off. *)
Definition shape_grouped (sh : list (option (positive * list (fill_shape Obj))))
  : Prop :=
  Forall (λ b, Forall (λ f, Forall (λ d, c (fobj f) d.2 = 0) (fdups f))
                 (fills_of b)) sh.

Lemma chain_insert_grouped o a (fs : list (fill_shape Obj)) :
  Forall (λ f, Forall (λ d, c (fobj f) d.2 = 0) (fdups f)) fs →
  Forall (λ f, Forall (λ d, c (fobj f) d.2 = 0) (fdups f))
    (chain_insert c o a fs).
Proof.
  induction 1 as [|f fs Hf Hfs IH]; simpl.
  - by apply Forall_singleton.
  - destruct (Z.eqb_spec (c (fobj f) o) 0) as [Heq|Hne].
    + apply Forall_cons. split; [|done]. simpl.
      apply Forall_app. split; [done|]. by apply Forall_singleton.
    + destruct (c (fobj f) o <? 0).
      * by apply Forall_cons.
      * apply Forall_cons. split; [done|]. by apply Forall_cons.
Qed.

Lemma shape_grouped_next
    (sh sh' : list (option (positive * list (fill_shape Obj)))) :
  shape_grouped sh → shape_next c sh sh' → shape_grouped sh'.
Proof.
  intros Hs [->|(i & o & Hn)]; [done|].
  destruct (sh !! i) as [[[b fs]|]|] eqn:Hi; [| |done].
  - destruct Hn as (a & ->). apply Forall_insert; [done|]. simpl.
    apply chain_insert_grouped.
    by apply (Forall_lookup_1 _ _ _ _ Hs Hi).
  - destruct Hn as (nb & nf & ->). apply Forall_insert; [done|]. simpl.
    by apply Forall_singleton.
Qed.

Lemma erase_lookup (sh : list (option (positive * list (fill_shape Obj))))
    i entries :
  erase sh !! i = Some (Some entries) →
  ∃ b fs, sh !! i = Some (Some (b, fs)) ∧ entries = erase_fill <$> fs.
Proof.
  unfold erase. rewrite list_lookup_fmap.
  destruct (sh !! i) as [[[b fs]|]|]; simpl; [|done..].
  intros [= <-]. eauto.
Qed.

Lemma sorted_representatives (fs : list (fill_shape Obj)) :
  StronglySorted (before c) fs →
  StronglySorted (λ x y, c x y < 0) (erase_fill <$> fs).*1.
Proof.
  induction 1 as [|f fs Hs IH Hf]; simpl; [apply SSorted_nil|].
  apply SSorted_cons; [done|].
  rewrite <-list_fmap_compose. apply Forall_fmap.
  eapply Forall_impl; [exact Hf|]. done.
Qed.

(** C1.  In every state of a table whose compare strategy is a consistent
    order, the fill chain of every bucket, walked from [first_fill] along
    [next_fill], lists its representatives in strictly ascending order;
    so no two fill entries of a bucket compare equal, and the objects that
    compare equal to a representative are the ones in its duplicate chain.
    (A state is reached only through calls that returned, which is where
    the in-bounds hash strategy comes in.) *)
Theorem fill_chains_ascending s i entries :
  consistent_order c →
  reachable pf n h c sr s →
  table_entries s !! i = Some (Some entries) →
  StronglySorted (λ x y, c x y < 0) entries.*1
  ∧ (∀ j k x y, j ≠ k → entries.*1 !! j = Some x → entries.*1 !! k = Some y →
                c x y ≠ 0)
  ∧ (∀ representative duplicates d,
       (representative, duplicates) ∈ entries → d ∈ duplicates →
       c representative d = 0).
Proof.
  intros Hord Hreach Hentries.
  destruct (reachable_shape pf n h c sr
              (λ sh, shape_sorted c sh ∧ shape_grouped sh) s)
    as (_ & sh & Hinv & Hsorted & Hgrouped); [| |done|].
  { intros k. split; [apply shape_sorted_init|].
    apply Forall_replicate. apply Forall_nil_2. }
  { intros sh sh' [Hs Hg] Hn. split.
    - by eapply shape_sorted_next.
    - by eapply shape_grouped_next. }
  rewrite (table_entries_shape pf s sh Hinv) in Hentries.
  apply erase_lookup in Hentries as (b & fs & Hi & ->).
  pose proof (Forall_lookup_1 _ _ _ _ Hsorted Hi) as Hs. simpl in Hs.
  pose proof (Forall_lookup_1 _ _ _ _ Hgrouped Hi) as Hg. simpl in Hg.
  pose proof (sorted_representatives fs Hs) as Hsr.
  split; [done|]. split.
  - intros j k x y. by apply sorted_distinct.
  - intros rep dups d Hin Hd.
    apply list_elem_of_fmap in Hin as (f & [= -> ->] & Hf).
    apply list_elem_of_fmap in Hd as ([a d'] & -> & Hd).
    rewrite Forall_forall in Hg. specialize (Hg f Hf).
    rewrite Forall_forall in Hg. by apply (Hg (a, d')).
Qed.

(** The number of fill entries, and of duplicate entries, a walk over the
    whole table meets. *)
Definition fill_entry_count (es : list (option (list (Obj * list Obj))))
  : nat :=
  length (es ≫= default []).

Definition duplicate_entry_count (es : list (option (list (Obj * list Obj))))
  : nat :=
  length ((es ≫= default []) ≫= snd).

Lemma fill_entry_count_shape
    (sh : list (option (positive * list (fill_shape Obj)))) :
  fill_entry_count (erase sh) = length (all_fill_addrs sh).
Proof.
  unfold fill_entry_count, all_fill_addrs, erase.
  induction sh as [|b sh IH]; [done|].
  rewrite fmap_cons, !bind_cons, !length_app, IH. f_equal.
  destruct b as [[a fs]|]; simpl; [|done].
  unfold fill_addrs. by rewrite !length_fmap.
Qed.

Lemma duplicate_entry_count_shape
    (sh : list (option (positive * list (fill_shape Obj)))) :
  duplicate_entry_count (erase sh) = length (all_dup_addrs sh).
Proof.
  unfold duplicate_entry_count, all_dup_addrs, erase.
  induction sh as [|b sh IH]; [done|].
  rewrite fmap_cons, !bind_cons, bind_app, !length_app, IH. f_equal.
  destruct b as [[a fs]|]; simpl; [|done].
  unfold dup_addrs. induction fs as [|f fs IHfs]; [done|].
  rewrite fmap_cons, !bind_cons, !length_app, IHfs. f_equal.
  simpl. by rewrite !length_fmap.
Qed.

Lemma table_inv_sizes s sh :
  table_inv pf s sh →
  size (fill_mem s) = length (all_fill_addrs sh)
  ∧ size (dup_mem s) = length (all_dup_addrs sh).
Proof.
  intros []. split.
  - rewrite <-(size_dom (D := gset positive) (fill_mem s)), inv_fill_dom0.
    by apply size_list_to_set.
  - rewrite <-(size_dom (D := gset positive) (dup_mem s)), inv_dup_dom0.
    by apply size_list_to_set.
Qed.

(** *** The inserts a table has seen *)

(** A platform whose [unsigned long] holds every object size can count
    to one. *)
Lemma platform_ok_one s sh :
  platform_ok pf → table_inv pf s sh → 1 ≤ ULONG_MAX pf.
Proof.
  intros pf_ok Hinv.
  pose proof (shape_bytes_bounds pf pf_ok _ _ Hinv) as (? & ? & ? & ?).
  destruct Hinv, pf_ok. unfold shape_bytes in *. lia.
Qed.

(** The objects a fill entry holds: its representative, then its
    duplicates in the order of the chain. *)
Definition objects_of_fill (f : fill_shape Obj) : list Obj :=
  fobj f :: (fdups f).*2.

Lemma chain_insert_objects o a (fs : list (fill_shape Obj)) :
  chain_insert c o a fs ≫= objects_of_fill
  ≡ₚ o :: (fs ≫= objects_of_fill).
Proof.
  induction fs as [|f fs IH]; [done|]. cbn [chain_insert].
  destruct (c (fobj f) o =? 0).
  - rewrite !bind_cons.
    replace (objects_of_fill (FillShape (fa f) (fobj f) (fdups f ++ [(a, o)])))
      with (objects_of_fill f ++ [o])
      by (unfold objects_of_fill; simpl; by rewrite fmap_app).
    by rewrite <-Permutation_cons_append.
  - destruct (c (fobj f) o <? 0).
    + rewrite !bind_cons, IH. by rewrite <-Permutation_middle.
    + by rewrite bind_cons.
Qed.

(** The compare strategy as an order of keys: a consistent order in which
    objects comparing equal are interchangeable, so that "same key" is an
    equivalence the order respects. *)
Record key_order : Prop := {
  key_consistent : consistent_order c;
  key_equal_trans : ∀ x y z, c x y = 0 → c y z = 0 → c x z = 0;
  key_below_equal : ∀ x y z, c x y < 0 → c y z = 0 → c x z < 0
}.

(** [history l s]: the state [s] is reached from [Hash_Table_Init n h c sr]
    by calls of the interface, and [l] lists, latest first, the object and
    the pattern of every insert among them that returned 1.  The calls are
    the ones of [reachable]. *)
Inductive history : list (Obj * string) → state Obj → Prop :=
| history_init live script s :
    0 ≤ n →
    0 ≤ live →
    Hash_Table_Init pf n h c sr live script = Some s →
    history [] s
| history_insert l s o pattern r s' :
    history l s →
    Hash_Table_Insert pf o pattern s = Done r s' →
    history (if r =? 1 then (o, pattern) :: l else l) s'
| history_insert_no_duplicate l s o pattern found_duplicate r s' :
    history l s →
    Hash_Table_Insert_No_Duplicate pf o pattern found_duplicate s
    = Done r s' →
    history (if r.1 =? 1 then (o, pattern) :: l else l) s'
| history_match l s pattern found max r s' :
    history l s →
    Hash_Table_Match pf pattern found max s = Done r s' →
    history l s'
| history_first_match l s pattern r s' :
    history l s →
    Hash_Table_First_Match pf pattern s = Done r s' →
    history l s'
| history_elsewhere l s live script :
    history l s →
    table_bytes pf s ≤ live ≤ SIZE_MAX pf →
    history l (set_allocator live script s).

(** An insert of [e] carries a key the earlier insert [e'] stored already:
    both patterns hash to the same bucket and the stored object compares
    equal to the new one. *)
Definition same_key (e e' : Obj * string) : bool :=
  (h e'.2 n =? h e.2 n) && (c e'.1 e.1 =? 0).

(** The inserts of a history (latest first) whose key some earlier insert
    had stored, and the ones that brought a key not stored before. *)
Fixpoint duplicate_key_inserts (l : list (Obj * string)) : nat :=
  match l with
  | [] => 0
  | e :: earlier =>
    ((if existsb (same_key e) earlier then 1 else 0)
     + duplicate_key_inserts earlier)%nat
  end.

Fixpoint distinct_key_inserts (l : list (Obj * string)) : nat :=
  match l with
  | [] => 0
  | e :: earlier =>
    ((if existsb (same_key e) earlier then 0 else 1)
     + distinct_key_inserts earlier)%nat
  end.

Lemma history_reachable l s : history l s → reachable pf n h c sr s.
Proof.
  induction 1.
  - by eapply reach_init.
  - by eapply reach_insert.
  - by eapply reach_insert_no_duplicate.
  - by eapply reach_match.
  - by eapply reach_first_match.
  - by eapply reach_elsewhere.
Qed.

Lemma find_equal_representative o (fs : list (fill_shape Obj)) :
  chain_find_equal c o fs = true → ∃ g, g ∈ fs ∧ c (fobj g) o = 0.
Proof.
  induction fs as [|f fs IH]; simpl; [done|].
  destruct (Z.eqb_spec (c (fobj f) o) 0) as [Heq|Hne].
  - intros _. exists f. split; [apply elem_of_cons; by left|done].
  - destruct (c (fobj f) o <? 0); [|done].
    intros (g & Hg & Heq)%IH. exists g. split; [|done].
    apply elem_of_cons. by right.
Qed.

Lemma sorted_find_equal o (fs : list (fill_shape Obj)) g :
  key_order →
  StronglySorted (before c) fs →
  g ∈ fs → c (fobj g) o = 0 →
  chain_find_equal c o fs = true.
Proof.
  intros [_ _ Hbelow] Hs Hg Heq.
  induction Hs as [|f fs Hs IH Hf]; simpl; [by apply elem_of_nil in Hg|].
  destruct (Z.eqb_spec (c (fobj f) o) 0) as [|Hne]; [done|].
  apply elem_of_cons in Hg as [->|Hg]; [done|].
  rewrite Forall_forall in Hf. specialize (Hf g Hg). unfold before in Hf.
  pose proof (Hbelow _ _ _ Hf Heq) as Hlt.
  destruct (Z.ltb_spec (c (fobj f) o) 0); [by apply IH|lia].
Qed.

Lemma grouped_representative (fs : list (fill_shape Obj)) x :
  Forall (λ f, Forall (λ d, c (fobj f) d.2 = 0) (fdups f)) fs →
  x ∈ fs ≫= objects_of_fill →
  ∃ g, g ∈ fs ∧ (x = fobj g ∨ c (fobj g) x = 0).
Proof.
  intros Hg (f & Hx & Hf)%list_elem_of_bind. exists f. split; [done|].
  unfold objects_of_fill in Hx. apply elem_of_cons in Hx as [->|Hx];
    [by left|right].
  apply list_elem_of_fmap in Hx as (d & -> & Hd).
  rewrite Forall_forall in Hg. specialize (Hg f Hf).
  rewrite Forall_forall in Hg. by apply Hg.
Qed.

(** The objects the chain of slot [i] holds. *)
Definition slot_objects (sh : table_shape Obj) (i : nat) : list Obj :=
  match sh !! i with
  | Some b => fills_of b ≫= objects_of_fill
  | None => []
  end.

(** What ties a state to the inserts that led to it: the chains are
    ascending and grouped, the objects of each slot are the ones stored
    under the patterns that hash to it, and the counters count the inserts
    by kind. *)
Definition history_inv (l : list (Obj * string)) s (sh : table_shape Obj)
  : Prop :=
  shape_sorted c sh
  ∧ shape_grouped sh
  ∧ Forall (λ e, 0 ≤ h e.2 n) l
  ∧ (∀ i x, x ∈ slot_objects sh i
            ↔ ∃ p, (x, p) ∈ l ∧ Z.to_nat (h p n) = i)
  ∧ number_of_buckets_filled (table s) + number_of_collisions (table s)
    = Z.of_nat (distinct_key_inserts l)
  ∧ number_of_duplicates (table s) = Z.of_nat (duplicate_key_inserts l).

Lemma same_key_seen l e :
  existsb (same_key e) l = true
  ↔ ∃ e', e' ∈ l ∧ h e'.2 n = h e.2 n ∧ c e'.1 e.1 = 0.
Proof.
  rewrite existsb_exists. unfold same_key. split.
  - intros (e' & Hin%list_elem_of_In & [H1 H2]%andb_prop).
    exists e'. split; [done|]. lia.
  - intros (e' & Hin%list_elem_of_In & H1 & H2).
    exists e'. split; [done|]. apply andb_true_intro. lia.
Qed.

(** In a chain that holds what the history stored in its slot, the walk
    meets an equal entry exactly when an earlier insert stored the key. *)
Lemma find_equal_seen l (sh : table_shape Obj) o pattern b fs :
  key_order →
  shape_sorted c sh → shape_grouped sh →
  Forall (λ e, 0 ≤ h e.2 n) l →
  (∀ i x, x ∈ slot_objects sh i ↔ ∃ p, (x, p) ∈ l ∧ Z.to_nat (h p n) = i) →
  0 ≤ h pattern n →
  sh !! Z.to_nat (h pattern n) = Some (Some (b, fs)) →
  chain_find_equal c o fs = existsb (same_key (o, pattern)) l.
Proof.
  intros Hkey Hsorted Hgrouped Hrange Hobjs Hp Hsh.
  pose proof (Forall_lookup_1 _ _ _ _ Hsorted Hsh) as Hs. simpl in Hs.
  pose proof (Forall_lookup_1 _ _ _ _ Hgrouped Hsh) as Hg. simpl in Hg.
  specialize (Hobjs (Z.to_nat (h pattern n))).
  unfold slot_objects in Hobjs. rewrite Hsh in Hobjs. simpl in Hobjs.
  apply Bool.eq_iff_eq_true. rewrite same_key_seen. simpl. split.
  - intros (g & Hgin & Heq)%find_equal_representative.
    destruct (proj1 (Hobjs (fobj g))) as (p & Hin & Hslot).
    { apply list_elem_of_bind. exists g. split; [|done].
      apply elem_of_cons. by left. }
    exists (fobj g, p). split; [done|]. split; [|done]. simpl.
    rewrite Forall_forall in Hrange. specialize (Hrange _ Hin).
    simpl in Hrange. lia.
  - intros ([x p] & Hin & Hslot & Heq). simpl in Hslot, Heq.
    destruct (grouped_representative fs x Hg) as (g & Hgin & Hrep).
    { apply Hobjs. exists p. split; [done|]. by rewrite Hslot. }
    apply (sorted_find_equal o fs g); [done..|].
    destruct Hrep as [->|Hgx]; [done|].
    by apply (key_equal_trans Hkey _ x).
Qed.

Lemma empty_slot_unseen l (sh : table_shape Obj) o pattern :
  (∀ i x, x ∈ slot_objects sh i ↔ ∃ p, (x, p) ∈ l ∧ Z.to_nat (h p n) = i) →
  sh !! Z.to_nat (h pattern n) = Some None →
  existsb (same_key (o, pattern)) l = false.
Proof.
  intros Hobjs Hsh. apply Bool.not_true_is_false.
  intros ([x p] & Hin & Hslot & _)%same_key_seen. simpl in Hslot.
  assert (x ∈ slot_objects sh (Z.to_nat (h pattern n))) as Hx.
  { apply Hobjs. exists p. split; [done|]. by rewrite Hslot. }
  unfold slot_objects in Hx. rewrite Hsh in Hx. simpl in Hx.
  by apply elem_of_nil in Hx.
Qed.

Lemma slot_objects_insert (sh : table_shape Obj) j b i :
  (j < length sh)%nat →
  slot_objects (<[j := b]> sh) i
  = if decide (i = j) then fills_of b ≫= objects_of_fill
    else slot_objects sh i.
Proof.
  intros Hj. unfold slot_objects. destruct (decide (i = j)) as [->|Hne].
  - by rewrite list_lookup_insert_eq.
  - by rewrite list_lookup_insert_ne.
Qed.

Lemma stored_objects_step l (sh : table_shape Obj) j b o pattern objs :
  (j < length sh)%nat →
  j = Z.to_nat (h pattern n) →
  slot_objects sh j = objs →
  fills_of b ≫= objects_of_fill ≡ₚ o :: objs →
  (∀ i x, x ∈ slot_objects sh i ↔ ∃ p, (x, p) ∈ l ∧ Z.to_nat (h p n) = i) →
  ∀ i x, x ∈ slot_objects (<[j := b]> sh) i
         ↔ ∃ p, (x, p) ∈ (o, pattern) :: l ∧ Z.to_nat (h p n) = i.
Proof.
  intros Hj Hslot Hold Hnew Hobjs i x.
  rewrite slot_objects_insert by done.
  destruct (decide (i = j)) as [->|Hne].
  - rewrite Hnew, elem_of_cons, <-Hold, Hobjs. split.
    + intros [->|(p & Hin & Hp)].
      * exists pattern. split; [apply elem_of_cons; by left|done].
      * exists p. split; [apply elem_of_cons; by right|done].
    + intros (p & [[= -> ->]|Hin]%elem_of_cons & Hp); [by left|].
      right. by exists p.
  - rewrite Hobjs. split.
    + intros (p & Hin & Hp). exists p. split; [|done].
      apply elem_of_cons. by right.
    + intros (p & [[= -> ->]|Hin]%elem_of_cons & Hp); [congruence|].
      by exists p.
Qed.

Lemma insert_effect_next s i o (sh : table_shape Obj) s' sh' :
  insert_effect pf s i o sh s' sh' →
  shape_next (compare_function (table s)) sh sh'.
Proof.
  intros Heff. right. exists i, o. unfold insert_effect in Heff.
  destruct (sh !! i) as [[[b fs]|]|]; [| |done].
  - destruct Heff as (a & -> & _). by exists a.
  - destruct Heff as (nb & nf & -> & _). by exists nb, nf.
Qed.

(** How a property of a state, its shape and the inserts that led to it is
    proved of every history: it holds at [Hash_Table_Init], it reads the
    table record only, and an insertion that returned 1 keeps it with the
    insert added. *)
Section HistoryInduction.

Variable P : list (Obj * string) → state Obj → table_shape Obj → Prop.

Hypothesis pf_ok : platform_ok pf.

Hypothesis P_init : ∀ s,
  table s = Table (replicate (Z.to_nat n) None) n 0 0 0 h c sr →
  P [] s (replicate (Z.to_nat n) None).

Hypothesis P_same : ∀ l s s' sh, table s' = table s → P l s sh → P l s' sh.

Hypothesis P_insert : ∀ l s sh o pattern s' sh',
  built n h c sr s → table_inv pf s sh → P l s sh →
  0 ≤ h pattern n < n →
  table_inv pf s' sh' →
  insert_effect pf s (Z.to_nat (h pattern n)) o sh s' sh' →
  P ((o, pattern) :: l) s' sh'.

Lemma history_insert_post l s sh o pattern r s' :
  built n h c sr s → table_inv pf s sh → P l s sh →
  0 ≤ slot_index s pattern < number_of_total_buckets (table s) →
  insert_post pf s o pattern sh r s' →
  ∃ sh', table_inv pf s' sh'
         ∧ P (if r =? 1 then (o, pattern) :: l else l) s' sh'.
Proof.
  intros Hb Hinv HP Hi
    [(-> & (Ht & _) & _ & Hinv')|(-> & sh' & Hinv' & Heff)].
  { exists sh. split; [done|]. by eapply P_same. }
  exists sh'. split; [done|]. simpl.
  pose proof Hb as (Hh & _ & _ & Hn).
  unfold slot_index in Hi, Heff. rewrite Hh, Hn in Hi, Heff.
  by eapply P_insert.
Qed.

Lemma history_induction l s :
  history l s →
  built n h c sr s ∧ ∃ sh, table_inv pf s sh ∧ P l s sh.
Proof.
  induction 1 as [live script s Hn Hlive Hinit
                 |l s o pattern r s' _ [Hb (sh & Hinv & HP)] Hop
                 |l s o pattern fd r s' _ [Hb (sh & Hinv & HP)] Hop
                 |l s pattern found max r s' _ [Hb (sh & Hinv & HP)] Hop
                 |l s pattern r s' _ [Hb (sh & Hinv & HP)] Hop
                 |l s live script _ [Hb (sh & Hinv & HP)] Hlive].
  - destruct (Hash_Table_Init_inv _ _ _ _ _ _ _ _ Hn Hlive Hinit)
      as (Hi & Ht).
    split; [unfold built; by rewrite Ht|]. eauto.
  - pose proof (Hash_Table_Insert_in_range _ _ _ _ _ _ _ Hinv Hop) as Hi.
    pose proof (returns_inv _ _ _ _ _
      (Hash_Table_Insert_correct pf s sh o pattern Hinv Hi) Hop) as Hp.
    split.
    + eapply built_same; [done|].
      by destruct (insert_post_strategies _ _ _ _ _ _ _ Hp).
    + by eapply history_insert_post.
  - pose proof (Hash_Table_Insert_No_Duplicate_in_range _ _ _ _ _ _ _ _
                  Hinv Hop) as Hi.
    pose proof (platform_ok_one s sh pf_ok Hinv) as Hone.
    pose proof (returns_inv _ _ _ _ _
      (Hash_Table_Insert_No_Duplicate_correct pf Hone s sh o pattern fd
         Hinv Hi) Hop) as Hp.
    destruct Hp as [(f & s1 & _ & _ & -> & Hsame & _ & Hinv')
                   |(s1 & i & Hm & Hsame & Hins & Hp & ->)].
    + simpl. split.
      * eapply built_same; [done|]. by apply same_table_strategies.
      * exists sh. split; [done|]. eapply P_same; [apply Hsame|done].
    + destruct (Hash_Table_Match_same pf _ _ _ _ _ _ _ Hinv Hi Hm)
        as (_ & Hinv1 & _).
      pose proof Hsame as (Ht & _).
      assert (built n h c sr s1) as Hb1
        by (eapply built_same; [done|]; by apply same_table_strategies).
      assert (0 ≤ slot_index s1 pattern
              < number_of_total_buckets (table s1)) as Hi1
        by (unfold slot_index in *; by rewrite Ht).
      split.
      * eapply built_same; [exact Hb1|].
        by destruct (insert_post_strategies _ _ _ _ _ _ _ Hp).
      * replace ((if i =? 0 then -1 else 1, fd).1 =? 1) with (i =? 1)
          by (destruct Hp as [(-> & _)|(-> & _)]; done).
        eapply history_insert_post; try done.
        eapply P_same; [exact Ht|done].
  - pose proof (Hash_Table_Match_in_range _ _ _ _ _ _ _ _ Hinv Hop) as Hi.
    destruct (Hash_Table_Match_same pf _ _ _ _ _ _ _ Hinv Hi Hop)
      as (Hsame & Hinv' & _).
    split.
    + eapply built_same; [done|]. by apply same_table_strategies.
    + exists sh. split; [done|]. eapply P_same; [apply Hsame|done].
  - destruct (Hash_Table_First_Match_same _ _ _ _ _ _ Hinv Hop)
      as (Hsame & _ & Hinv').
    split.
    + eapply built_same; [done|]. by apply same_table_strategies.
    + exists sh. split; [done|]. eapply P_same; [apply Hsame|done].
  - split; [done|]. exists sh. split; [|by apply (P_same l s)].
    eapply table_inv_same; [done|done|simpl|simpl; lia].
    rewrite (table_bytes_shape pf s sh Hinv). lia.
Qed.

End HistoryInduction.

(** Every insert that returned 1 moved exactly one counter up by one,
    whatever the strategies. *)
Lemma history_total l s :
  platform_ok pf →
  history l s →
  number_of_buckets_filled (table s) + number_of_collisions (table s)
  + number_of_duplicates (table s)
  = Z.of_nat (length l).
Proof.
  intros pf_ok Hl.
  destruct (history_induction
              (λ l s _, number_of_buckets_filled (table s)
                        + number_of_collisions (table s)
                        + number_of_duplicates (table s)
                        = Z.of_nat (length l)) pf_ok) with l s
    as (_ & _ & _ & Htot); [..|done|done].
  - by intros s0 ->.
  - by intros l0 s0 s1 _ ->.
  - intros l0 s0 sh o pattern s1 sh' (_ & _ & _ & _) Hinv Hcount _ _ Heff.
    destruct (counter_increment_exact pf pf_ok s0 sh Hinv) as (E1 & E2 & E3).
    unfold insert_effect in Heff. rewrite length_cons, Nat2Z.inj_succ.
    destruct (sh !! _) as [[[b fs]|]|]; [| |done].
    + destruct Heff as (a & _ & ->).
      destruct (chain_find_equal _ _ _); simpl; lia.
    + destruct Heff as (nb & nf & _ & ->). simpl. lia.
Qed.

(** Where the compare strategy is an order of keys, the counters count
    the inserts by kind. *)
Lemma history_kinds l s :
  platform_ok pf → key_order →
  history l s →
  ∃ sh, table_inv pf s sh ∧ history_inv l s sh.
Proof.
  intros pf_ok Hkey Hl.
  destruct (history_induction history_inv pf_ok) with l s
    as (_ & sh & Hinv & Hh); [..|done|by exists sh].
  - intros s0 Ht. unfold history_inv. rewrite Ht. simpl.
    split_and!; try done.
    + apply shape_sorted_init.
    + apply Forall_replicate. apply Forall_nil_2.
    + intros i x. unfold slot_objects. split.
      * destruct (replicate _ _ !! i) as [b|] eqn:Hrep;
          [|by intros ?%elem_of_nil].
        apply lookup_replicate in Hrep as [-> _]. by intros ?%elem_of_nil.
      * by intros (p & ?%elem_of_nil & _).
  - intros l0 s0 s1 sh Ht. unfold history_inv. by rewrite Ht.
  - intros l0 s0 sh o pattern s1 sh' (_ & Hc & _ & _) Hinv
      (Hsorted & Hgrouped & Hrange & Hobjs & Hfills & Hdups) Hi Hinv' Heff.
    pose proof (insert_effect_next _ _ _ _ _ _ Heff) as Hnext.
    rewrite Hc in Hnext.
    destruct (counter_increment_exact pf pf_ok s0 sh Hinv) as (E1 & E2 & E3).
    unfold insert_effect in Heff. rewrite Hc in Heff.
    split; [by eapply shape_sorted_next; [apply Hkey|..]|].
    split; [by eapply shape_grouped_next|].
    split; [apply Forall_cons; split; [simpl; lia|done]|].
    destruct (sh !! Z.to_nat (h pattern n)) as [[[b fs]|]|] eqn:Hsh;
      [| |done].
    + destruct Heff as (a & -> & Htable).
      rewrite (find_equal_seen l0 sh o pattern b fs) in Htable
        by (done || lia).
      split.
      { eapply stored_objects_step; try done.
        - by eapply lookup_lt_Some.
        - unfold slot_objects. rewrite Hsh. simpl.
          apply chain_insert_objects. }
      rewrite Htable. simpl.
      destruct (existsb _ l0); simpl; rewrite ?E2, ?E3; lia.
    + destruct Heff as (nb & nf & -> & Htable).
      split.
      { eapply stored_objects_step; try done.
        - by eapply lookup_lt_Some.
        - unfold slot_objects. by rewrite Hsh. }
      rewrite Htable. simpl.
      rewrite (empty_slot_unseen l0 sh o pattern Hobjs Hsh). rewrite E1. lia.
Qed.
(** C4.  Where an [unsigned long] holds any object size: the three
    counters are zero in the table [Hash_Table_Init] returns; in every
    state reached from it, buckets-filled plus collisions is the number of
    fill entries (as many as were allocated, and as many as the chains
    hold), and duplicates is the number of duplicate entries; and after any
    sequence of calls, the three counters together count the inserts that
    returned 1, each once.  Where the compare strategy is an order of keys,
    buckets-filled plus collisions is the number of those inserts that
    brought a key no earlier insert had stored in the bucket (the distinct
    keys inserted), and duplicates is the number of those whose key an
    earlier insert had stored (the duplicate-key inserts). *)
Theorem counters_count_entries :
  platform_ok pf →
  (∀ live script s0,
     Hash_Table_Init pf n h c sr live script = Some s0 →
     number_of_buckets_filled (table s0) = 0
     ∧ number_of_collisions (table s0) = 0
     ∧ number_of_duplicates (table s0) = 0)
  ∧ (∀ s,
       reachable pf n h c sr s →
       number_of_buckets_filled (table s) + number_of_collisions (table s)
       = Z.of_nat (size (fill_mem s))
       ∧ number_of_duplicates (table s) = Z.of_nat (size (dup_mem s))
       ∧ size (fill_mem s) = fill_entry_count (table_entries s)
       ∧ size (dup_mem s) = duplicate_entry_count (table_entries s))
  ∧ (∀ l s,
       history l s →
       number_of_buckets_filled (table s) + number_of_collisions (table s)
       + number_of_duplicates (table s)
       = Z.of_nat (length l)
       ∧ (key_order →
          number_of_buckets_filled (table s) + number_of_collisions (table s)
          = Z.of_nat (distinct_key_inserts l)
          ∧ number_of_duplicates (table s)
            = Z.of_nat (duplicate_key_inserts l))).
Proof.
  intros pf_ok. split_and!.
  - intros live script s0. unfold Hash_Table_Init.
    destruct (calloc_answer pf 1 _ live script) as [[|] script1]; [|done].
    destruct (calloc_answer pf n _ _ script1) as [[|] script2]; [|done].
    by intros [= <-].
  - intros s Hreach.
    destruct (reachable_inv pf n h c sr s Hreach) as (_ & sh & Hinv).
    destruct (table_inv_sizes s sh Hinv) as [Hf Hd].
    rewrite (table_entries_shape pf s sh Hinv).
    rewrite fill_entry_count_shape, duplicate_entry_count_shape, Hf, Hd.
    by destruct (inv_counters _ _ _ Hinv pf_ok).
  - intros l s Hl. split; [by apply history_total|].
    intros Hkey.
    destruct (history_kinds l s pf_ok Hkey Hl)
      as (sh & _ & _ & _ & _ & _ & Hfills & Hdups).
    done.
Qed.

Lemma insert_post_size s sh o pattern r s' :
  platform_ok pf →
  table_inv pf s sh →
  insert_post pf s o pattern sh r s' →
  Hash_Table_Size pf (table s) ≤ Hash_Table_Size pf (table s').
Proof.
  intros pf_ok Hinv [(_ & (Ht & _) & _ & _)|(_ & sh' & Hinv' & Heff)].
  - by rewrite Ht.
  - destruct (Hash_Table_Size_exact pf pf_ok s sh Hinv) as [-> _].
    destruct (Hash_Table_Size_exact pf pf_ok s' sh' Hinv') as [-> _].
    destruct (counter_increment_exact pf pf_ok s sh Hinv) as (E1 & E2 & E3).
    destruct pf_ok. unfold insert_effect in Heff.
    destruct (sh !! _) as [[[b fs]|]|]; [| |done].
    + destruct Heff as (a & _ & ->).
      destruct (chain_find_equal _ _ _); simpl; lia.
    + destruct Heff as (nb & nf & _ & ->). simpl. lia.
Qed.

(** C9.  Where an [unsigned long] holds any object size,
    [Hash_Table_Size] does not decrease over a call of [Hash_Table_Insert]
    or of [Hash_Table_Insert_No_Duplicate], in any state the table can be
    in. *)
Theorem size_never_decreases s :
  platform_ok pf →
  reachable pf n h c sr s →
  (∀ o pattern r s',
     Hash_Table_Insert pf o pattern s = Done r s' →
     Hash_Table_Size pf (table s) ≤ Hash_Table_Size pf (table s'))
  ∧ (∀ o pattern found_duplicate r s',
       Hash_Table_Insert_No_Duplicate pf o pattern found_duplicate s
       = Done r s' →
       Hash_Table_Size pf (table s) ≤ Hash_Table_Size pf (table s')).
Proof.
  intros pf_ok Hreach.
  destruct (reachable_inv pf n h c sr s Hreach) as (_ & sh & Hinv).
  pose proof (platform_ok_one s sh pf_ok Hinv) as Hone.
  split.
  - intros o pattern r s' Hop.
    pose proof (Hash_Table_Insert_in_range pf _ _ _ _ _ _ Hinv Hop) as Hi.
    eapply insert_post_size; [done..|].
    exact (returns_inv _ _ _ _ _
             (Hash_Table_Insert_correct pf s sh o pattern Hinv Hi) Hop).
  - intros o pattern fd r s' Hop.
    pose proof (Hash_Table_Insert_No_Duplicate_in_range pf _ _ _ _ _ _ _
                  Hinv Hop) as Hi.
    pose proof (returns_inv _ _ _ _ _
      (Hash_Table_Insert_No_Duplicate_correct pf Hone s sh o pattern fd
         Hinv Hi) Hop) as Hp.
    destruct Hp as [(f & s1 & _ & _ & _ & (Ht & _) & _ & _)
                   |(s1 & i & Hm & (Ht & _) & _ & Hp & _)].
    + by rewrite Ht.
    + rewrite <-Ht. eapply insert_post_size; [done| |done].
      by destruct (Hash_Table_Match_same pf s sh pattern 0 1 _ _
                     Hinv Hi Hm) as (_ & ? & _).
Qed.

Lemma reachable_slot_index s pattern :
  reachable pf n h c sr s →
  slot_index s pattern = h pattern n
  ∧ Z.of_nat (length (buckets (table s))) = n.
Proof.
  intros Hreach.
  destruct (reachable_inv pf n h c sr s Hreach)
    as ((Hh & _ & _ & Hn) & sh & Hinv).
  unfold slot_index. rewrite Hh, Hn. split; [done|].
  by rewrite <-(inv_total _ _ _ Hinv).
Qed.

(** C10.  In every state of the table: when the hash strategy answers an
    index below the bucket count, [Hash_Table_Insert] runs to its end
    without any fault and [Hash_Table_Match] never reads outside the bucket
    array; when it answers anything else, both read
    [table->buckets[index]] outside the array, as neither checks the
    index. *)
Theorem bucket_access_in_bounds s o pattern found max :
  reachable pf n h c sr s →
  (0 ≤ h pattern n < n →
     (∃ r s', Hash_Table_Insert pf o pattern s = Done r s')
     ∧ Hash_Table_Match pf pattern found max s ≠ Fault BucketIndexOutOfRange)
  ∧ (¬ (0 ≤ h pattern n < n) →
     Hash_Table_Insert pf o pattern s = Fault BucketIndexOutOfRange
     ∧ Hash_Table_Match pf pattern found max s
       = Fault BucketIndexOutOfRange).
Proof.
  intros Hreach.
  destruct (reachable_slot_index s pattern Hreach) as [Hslot Hlen].
  destruct (reachable_inv pf n h c sr s Hreach)
    as ((_ & _ & _ & Hn) & sh & Hinv).
  split.
  - intros Hi. rewrite <-Hslot, <-Hn in Hi. split.
    + destruct (Hash_Table_Insert_correct pf s sh o pattern Hinv Hi)
        as (r & s' & Hd & _). eauto.
    + rewrite (Hash_Table_Match_unfold pf s sh) by done.
      destruct (sh !! _) as [[[b fs]|]|]; [|done..].
      destruct (chain_search _ _ _); [apply match_at_fault|done].
  - intros Hi. rewrite <-Hslot, <-Hlen in Hi. split.
    + by apply Hash_Table_Insert_out_of_range.
    + by apply Hash_Table_Match_out_of_range.
Qed.

(** The table as the specification sees it. *)
Definition observe s : spec_table :=
  SpecTable (table_entries s)
    (number_of_buckets_filled (table s))
    (number_of_collisions (table s))
    (number_of_duplicates (table s)).

Lemma observe_same s s' : same_table s s' → observe s' = observe s.
Proof.
  intros (Ht & Hb & Hf & Hd). unfold observe, table_entries, bucket_entries.
  by rewrite Ht, Hb, Hf, Hd.
Qed.

(** Whether the allocator grants what an insertion of [o] into slot [i] asks
    for: the bucket node and then the fill node where the slot is empty, the
    duplicate node where the walk of the chain meets an equal entry, the
    fill node otherwise. *)
Definition insert_granted (cmp : Obj → Obj → Z) s (i : nat) (o : Obj) : bool :=
  match table_entries s !! i with
  | Some None =>
    let ac := after_calloc pf 1 (sizeof_hash_table_bucket_t pf) s in
    ac.1 && (after_calloc pf 1 (sizeof_hash_table_fill_t pf) ac.2).1
  | Some (Some chain) =>
    if spec_walk_duplicate cmp o chain
    then (after_calloc pf 1 (sizeof_hash_table_duplicate_t pf) s).1
    else (after_calloc pf 1 (sizeof_hash_table_fill_t pf) s).1
  | None => false
  end.

Lemma read_slot_eq i p s :
  0 ≤ i → buckets (table s) !! Z.to_nat i = Some p →
  read_slot i s = Done p s.
Proof.
  intros Hi Hp. unfold read_slot, bind, get. rewrite Hp.
  by destruct (Z.leb_spec 0 i); [|lia].
Qed.

(** The value [Hash_Table_Insert] returns is decided by the allocator: 1
    when the nodes it asks for are granted, 0 when one is refused. *)
Lemma Hash_Table_Insert_result s sh o pattern r s' :
  table_inv pf s sh →
  0 ≤ slot_index s pattern < number_of_total_buckets (table s) →
  Hash_Table_Insert pf o pattern s = Done r s' →
  r = if insert_granted (compare_function (table s)) s
           (Z.to_nat (slot_index s pattern)) o
      then 1 else 0.
Proof.
  intros Hinv Hi Hd.
  destruct (table_inv_slot pf s sh pattern Hinv Hi) as (slot & b & Hs & Hb & Hrep).
  unfold insert_granted. rewrite (table_entries_shape pf s sh Hinv).
  unfold erase. rewrite list_lookup_fmap, Hb.
  unfold Hash_Table_Insert in Hd.
  apply bind_Done in Hd as (? & ? & [= <- <-] & Hd).
  apply bind_Done in Hd as (slot' & s0 & Hrs & Hd).
  unfold slot_index in Hs, Hi.
  rewrite (read_slot_eq _ slot s) in Hrs; [|lia|done].
  injection Hrs as <- <-.
  destruct b as [[b fs]|]; simpl in Hrep;
    cbn [fmap option_fmap option_map erase_bucket].
  - destruct Hrep as (-> & Hbk & Hchain).
    apply bind_Done in Hd as (bk & s0 & Hlb & Hd).
    unfold load_bucket, bind, get in Hlb. rewrite Hbk in Hlb.
    injection Hlb as <- <-.
    apply bind_Done in Hd as (? & ? & [= <- <-] & Hd).
    apply bind_Done in Hd as (w & s1 & Hw & Hd). simpl in Hw.
    destruct (inv_slot_nodup _ _ _ _ _ _ Hinv Hb) as [Hndf Hndd].
    pose proof (chain_length_bound _ _ _ _ _ _ Hinv Hb) as Hlen.
    rewrite <-erase_chain_find_equal.
    destruct (chain_find_equal _ o fs) eqn:Hfind.
    + pose proof (returns_inv _ _ _ _ _
        (insert_walk_hit pf o fs _ None s Hchain Hndf Hndd Hlen Hfind) Hw)
        as Hpost.
      unfold hit_post in Hpost. cbv zeta in Hpost.
      destruct (after_calloc pf 1 _ s).1.
      * destruct Hpost as ((cur & p & ->) & _). by injection Hd as <- _.
      * destruct Hpost as [-> _]. by injection Hd as <- _.
    + rewrite (insert_walk_miss pf o fs _ None s Hchain Hlen Hfind) in Hw.
      injection Hw as <- <-.
      apply bind_Done in Hd as (nf & s1 & Hnf & Hd).
      unfold calloc_fill, bind at 1 in Hnf. rewrite calloc_eq in Hnf.
      destruct (after_calloc pf 1 _ s) as [[|] s2]; cbn [fst snd] in Hnf |- *.
      * repeat (apply bind_Done in Hnf as (? & ? & _ & Hnf)).
        injection Hnf as <- <-.
        repeat (apply bind_Done in Hd as (? & ? & _ & Hd)).
        by injection Hd as <- _.
      * injection Hnf as <- <-. by injection Hd as <- _.
  - subst slot.
    apply bind_Done in Hd as (nb & s1 & Hnb & Hd).
    unfold calloc_bucket, bind at 1 in Hnb. rewrite calloc_eq in Hnb.
    destruct (after_calloc pf 1 _ s) as [[|] s2]; cbn [fst snd] in Hnb |- *.
    2:{ injection Hnb as <- <-. by injection Hd as <- _. }
    unfold bind at 1, get, bind at 1, modify, ret in Hnb.
    injection Hnb as <- <-.
    apply bind_Done in Hd as (nf & s3 & Hnf & Hd).
    unfold calloc_fill, bind at 1 in Hnf. rewrite calloc_eq in Hnf.
    change (after_calloc pf 1 (sizeof_hash_table_fill_t pf) s2).1
      with (after_calloc pf 1 (sizeof_hash_table_fill_t pf)
              (set_bucket_mem
                 (<[fresh_addr s2 := Bucket None None]> (bucket_mem s2)) s2)).1.
    destruct (after_calloc pf 1 _ _) as [[|] s4]; cbn [fst snd] in Hnf |- *.
    + repeat (apply bind_Done in Hnf as (? & ? & _ & Hnf)).
      injection Hnf as <- <-.
      repeat (apply bind_Done in Hd as (? & ? & _ & Hd)).
      by injection Hd as <- _.
    + injection Hnf as <- <-.
      repeat (apply bind_Done in Hd as (? & ? & _ & Hd)).
      by injection Hd as <- _.
Qed.

(** C3.  Where an [unsigned long] holds any object size:
    [Hash_Table_Insert], called in any state of the table with a pattern
    hashed inside the bucket array, returns, and the allocator decides
    what.  When the nodes it asks for are granted it returns 1 and the
    table has changed as the specification's insertion says: an empty
    bucket gets the single new entry and buckets-filled goes up; otherwise
    the walk from the chain head appends to the duplicates of the entry
    that compares equal (duplicates goes up), passes the entries that
    compare below, and puts the new entry before the first that compares
    above or at the end of the chain (collisions goes up).  When a node is
    refused it returns 0 and nothing has changed. *)
Theorem insert_refines_specification s o pattern :
  platform_ok pf →
  reachable pf n h c sr s →
  0 ≤ h pattern n < n →
  ∃ r s',
    Hash_Table_Insert pf o pattern s = Done r s'
    ∧ if insert_granted c s (Z.to_nat (h pattern n)) o
      then r = 1
           ∧ observe s' = spec_insert c (Z.to_nat (h pattern n)) o (observe s)
      else r = 0 ∧ observe s' = observe s.
Proof.
  intros pf_ok Hreach Hi.
  destruct (reachable_slot_index s pattern Hreach) as [Hslot Hlen].
  destruct (reachable_inv pf n h c sr s Hreach)
    as ((_ & Hc & _ & Hn) & sh & Hinv).
  rewrite <-Hslot, <-Hn in Hi.
  destruct (counter_increment_exact pf pf_ok s sh Hinv) as (E1 & E2 & E3).
  destruct (Hash_Table_Insert_correct pf s sh o pattern Hinv Hi)
    as (r & s' & Hd & Hpost).
  pose proof (Hash_Table_Insert_result s sh o pattern r s' Hinv Hi Hd)
    as Hr.
  rewrite Hc, Hslot in Hr.
  exists r, s'. split; [done|].
  destruct Hpost as [(-> & Hsame & _)|(-> & sh' & Hinv' & Heff)];
    destruct (insert_granted c s _ o); try done.
  { split; [done|]. by apply observe_same. }
  split; [done|].
  unfold observe, spec_insert. cbn [spec_buckets spec_buckets_filled
    spec_collisions spec_duplicates].
  rewrite (table_entries_shape pf s sh Hinv).
  rewrite (table_entries_shape pf s' sh' Hinv').
  rewrite <-Hslot. unfold insert_effect in Heff. rewrite Hc in Heff.
  unfold erase at 2. rewrite list_lookup_fmap.
  destruct (sh !! _) as [[[b fs]|]|]; [| |done]; simpl.
  - destruct Heff as (a & -> & ->).
    rewrite <-erase_chain_find_equal.
    unfold erase at 1. rewrite list_fmap_insert. simpl.
    rewrite erase_chain_insert.
    destruct (chain_find_equal c o fs); simpl; by rewrite ?E2, ?E3.
  - destruct Heff as (nb & nf & -> & ->).
    unfold erase at 1. rewrite list_fmap_insert. simpl. by rewrite E1.
Qed.

Lemma table_lookup_entries s sh pattern f :
  table_inv pf s sh →
  search_function (table s) = sr →
  table_lookup s sh pattern = Some f →
  ∃ entries,
    table_entries s !! Z.to_nat (slot_index s pattern) = Some (Some entries)
    ∧ spec_search sr pattern entries = Some (fobj f, (fdups f).*2).
Proof.
  intros Hinv Hsr. unfold table_lookup. rewrite Hsr.
  rewrite (table_entries_shape pf s sh Hinv). unfold erase.
  rewrite list_lookup_fmap.
  destruct (sh !! _) as [[[b fs]|]|]; [|done..]. simpl.
  intros Hf. exists (erase_fill <$> fs). split; [done|].
  by rewrite <-erase_chain_search, Hf.
Qed.

(** C5.  [Hash_Table_Insert_No_Duplicate], called in any state of the
    table with a pattern hashed inside the bucket array, first runs
    [Hash_Table_Match] for one record.  If that reports no record, the
    call is [Hash_Table_Insert] run next, and answers 1 where it answers 1
    and -1 where it answers 0.  If it reports a record, this is the
    representative of the first fill entry of the bucket that the search
    strategy accepts; the call answers 0, stores that object in
    [*found_duplicate], and leaves the table record and every node as they
    were.  (The record counter of the lookup is an [unsigned long] that
    goes from 0 to 1.) *)
Theorem insert_no_duplicate_cases s o pattern found_duplicate :
  1 ≤ ULONG_MAX pf →
  reachable pf n h c sr s →
  0 ≤ h pattern n < n →
  ∃ m s1 r s',
    Hash_Table_Match pf pattern 0 1 s = Done m s1
    ∧ Hash_Table_Insert_No_Duplicate pf o pattern found_duplicate s
      = Done r s'
    ∧ ((m.2 = 0
        ∧ ∃ i, Hash_Table_Insert pf o pattern s1 = Done i s'
               ∧ ((i = 1 ∧ r = (1, found_duplicate))
                  ∨ (i = 0 ∧ r = (-1, found_duplicate))))
       ∨ (m.2 ≠ 0
          ∧ ∃ representative duplicates entries,
              table_entries s !! Z.to_nat (h pattern n) = Some (Some entries)
              ∧ spec_search sr pattern entries
                = Some (representative, duplicates)
              ∧ m.1 = Some [Some representative]
              ∧ r = (0, Some representative)
              ∧ same_table s s')).
Proof.
  intros Hone Hreach Hi.
  destruct (reachable_slot_index s pattern Hreach) as [Hslot Hlen].
  destruct (reachable_inv pf n h c sr s Hreach)
    as ((_ & _ & Hsr & Hn) & sh & Hinv).
  rewrite <-Hslot, <-Hn in Hi.
  destruct (Hash_Table_Insert_No_Duplicate_correct pf Hone s sh o pattern
              found_duplicate Hinv Hi) as (r & s' & Hd & Hpost).
  destruct Hpost as [(f & s1 & Hm & Hlook & -> & Hsame & _ & _)
                    |(s1 & i & Hm & _ & Hins & Hp & ->)].
  - exists (Some [Some (fobj f)], 1), s1, (0, Some (fobj f)), s'.
    split; [done|]. split; [done|]. right. split; [done|].
    destruct (table_lookup_entries s sh pattern f Hinv Hsr Hlook)
      as (entries & He & Hs).
    exists (fobj f), (fdups f).*2, entries. by rewrite <-Hslot.
  - exists (None, 0), s1, (if i =? 0 then -1 else 1, found_duplicate), s'.
    split; [done|]. split; [done|]. left. split; [done|].
    exists i. split; [done|].
    destruct Hp as [(-> & _)|(-> & _)]; [by right|by left].
Qed.

(** C8.  [Hash_Table_First_Match], called in any state of the table with
    a pattern hashed inside the bucket array, answers what
    [Hash_Table_Match] for one record reports: NULL when that returns
    NULL, and otherwise the one object of the returned array, which is the
    representative of the first fill entry the search strategy accepts.
    The table is left as it was.  (The record counter of the lookup is an
    [unsigned long] that goes from 0 to 1.) *)
Theorem first_match_is_match_one s pattern :
  1 ≤ ULONG_MAX pf →
  reachable pf n h c sr s →
  0 ≤ h pattern n < n →
  ∃ m s1 r s',
    Hash_Table_Match pf pattern 0 1 s = Done m s1
    ∧ Hash_Table_First_Match pf pattern s = Done r s'
    ∧ same_table s s'
    ∧ ((m.1 = None ∧ r = None)
       ∨ (∃ representative duplicates entries,
            table_entries s !! Z.to_nat (h pattern n) = Some (Some entries)
            ∧ spec_search sr pattern entries
              = Some (representative, duplicates)
            ∧ m = (Some [Some representative], 1)
            ∧ r = Some representative)).
Proof.
  intros Hone Hreach Hi.
  destruct (reachable_slot_index s pattern Hreach) as [Hslot Hlen].
  destruct (reachable_inv pf n h c sr s Hreach)
    as ((_ & _ & Hsr & Hn) & sh & Hinv).
  rewrite <-Hslot, <-Hn in Hi.
  destruct (Hash_Table_Match_one pf Hone s sh pattern Hinv Hi)
    as (m & s1 & Hm & Hpost).
  destruct (Hash_Table_First_Match_correct pf Hone s sh pattern Hinv Hi)
    as (r & s' & Hd & Hsame & _ & _ & Hr).
  exists m, s1, r, s'. split; [done|]. split; [done|]. split; [done|].
  unfold match_one_post in Hpost. cbv zeta in Hpost.
  destruct (table_lookup s sh pattern) as [f|] eqn:Hlook.
  - destruct Hpost as [_ ->].
    destruct (after_calloc pf 1 _ s).1; [|by left].
    right.
    destruct (table_lookup_entries s sh pattern f Hinv Hsr Hlook)
      as (entries & He & Hs).
    exists (fobj f), (fdups f).*2, entries. by rewrite <-Hslot.
  - destruct Hpost as [_ ->]. by left.
Qed.

End Properties.

(** C6, as the code has it.  Whenever [Hash_Table_Insert] returns 0 the
    table record, the bucket array and every node are what they were
    before the call: on each path the allocations come before the first
    store, and the bucket obtained before a refused fill entry is
    released.  This holds of every state, reachable or not. *)
Theorem failed_insert_unchanged {Obj : Type} (pf : platform)
    (o : Obj) (pattern : string) (s s' : state Obj) :
  Hash_Table_Insert pf o pattern s = Done 0 s' →
  table s' = table s ∧ bucket_mem s' = bucket_mem s
  ∧ fill_mem s' = fill_mem s ∧ dup_mem s' = dup_mem s.
Proof. apply Hash_Table_Insert_failure. Qed.

(** C6, as the specification words it, does not hold: there is no
    execution of [Hash_Table_Insert] that returns 0 and has modified the
    table. *)
Lemma no_partial_insert :
  ¬ ∃ (Obj : Type) (pf : platform) (s s' : state Obj) (o : Obj)
      (pattern : string),
      Hash_Table_Insert pf o pattern s = Done 0 s'
      ∧ ¬ (table s' = table s ∧ bucket_mem s' = bucket_mem s
           ∧ fill_mem s' = fill_mem s ∧ dup_mem s' = dup_mem s).
Proof.
  intros (Obj & pf & s & s' & o & pattern & Hd & Hne).
  by apply Hne, (Hash_Table_Insert_failure pf o pattern).
Qed.

(** ** Hash_Table_Free *)

Section Teardown.

Context {Obj : Type}.
Variable pf : platform.

(** [free(p)] of a node met on a walk.  Releasing a block that is not live
    (a second time, say) is a fault. *)
Definition free_duplicate (a : positive) : M (Obj := Obj) unit :=
  load_duplicate a ;;
  modify (fun s => set_dup_mem (delete a (dup_mem s)) s) ;;
  release (sizeof_hash_table_duplicate_t pf).

Definition free_fill (a : positive) : M (Obj := Obj) unit :=
  load_fill a ;;
  modify (fun s => set_fill_mem (delete a (fill_mem s)) s) ;;
  release (sizeof_hash_table_fill_t pf).

(** The loop of lines 279-290 over one duplicate chain.  [free_function]
    says whether [table->free_function] is set (the field is written by
    [Hash_Table_Init] and read here only); the strategy releases an object,
    which lives outside the nodes, so a call of it shows as its argument
    in the result, in the order of the calls. *)
Fixpoint free_duplicates (fuel : nat) (free_function : bool)
    (current_dup : option positive) : M (Obj := Obj) (list Obj) :=
  match fuel with
  | O => fail LoopBound
  | S fuel' =>
    match current_dup with
    | None => ret []
    | Some d =>
      dn <- load_duplicate d ;;
      free_duplicate d ;;
      freed <- free_duplicates fuel' free_function (next_duplicate dn) ;;
      ret ((if free_function then [dup_object dn] else []) ++ freed)
    end
  end.

(** The loop of lines 275-301 over one fill chain: the duplicates of an
    entry go first, then the entry. *)
Fixpoint free_fills (fuel : nat) (free_function : bool)
    (current_fill : option positive) : M (Obj := Obj) (list Obj) :=
  match fuel with
  | O => fail LoopBound
  | S fuel' =>
    match current_fill with
    | None => ret []
    | Some f =>
      cur <- load_fill f ;;
      s <- get ;;
      freed_duplicates <-
        free_duplicates (S (size (dup_mem s))) free_function
          (first_duplicate cur) ;;
      cur' <- load_fill f ;;
      free_fill f ;;
      freed <- free_fills fuel' free_function (next_fill cur') ;;
      ret (freed_duplicates
           ++ (if free_function then [object cur'] else []) ++ freed)
    end
  end.

(** The [for] loop of lines 265-307 from index [i] on.  The load before
    [free_bucket] stands for the block being live when it is released. *)
Fixpoint free_buckets (fuel : nat) (free_function : bool) (i : Z)
  : M (Obj := Obj) (list Obj) :=
  match fuel with
  | O => fail LoopBound
  | S fuel' =>
    s <- get ;;
    if i <? number_of_total_buckets (table s) then
      current_bucket <- read_slot i ;;
      freed_here <-
        match current_bucket with
        | Some b =>
          bk <- load_bucket b ;;
          s1 <- get ;;
          freed <- free_fills (S (size (fill_mem s1))) free_function
                     (first_fill bk) ;;
          load_bucket b ;;
          free_bucket pf b ;;
          ret freed
        | None => ret []
        end ;;
      freed <- free_buckets fuel' free_function (ulong pf (i + 1)) ;;
      ret (freed_here ++ freed)
    else ret []
  end.

(** The result lists the objects handed to the free strategy.  The table
    record and the bucket array are blocks of their own, released last;
    the record that stays in the state is what the dangling pointer
    [table] would read. *)
Definition Hash_Table_Free (free_function : bool)
  : M (Obj := Obj) (list Obj) :=
  s <- get ;;
  freed <- free_buckets (S (Z.to_nat (number_of_total_buckets (table s))))
             free_function 0 ;;
  s1 <- get ;;
  release (number_of_total_buckets (table s1) * sizeof_pointer pf) ;;
  release (sizeof_hash_table_t pf) ;;
  ret freed.

End Teardown.

Section TeardownCorrect.

Context {Obj : Type}.
Variable pf : platform.
Implicit Types (s : state Obj) (sh : table_shape Obj).
Implicit Types (fs : list (fill_shape Obj)) (ds : list (positive * Obj)).

(** A map without the nodes at the addresses [l]. *)
Definition remove_all {A} (l : list positive) (m : gmap positive A)
  : gmap positive A :=
  foldl (λ m a, delete a m) m l.

Lemma remove_all_app {A} (l l' : list positive) (m : gmap positive A) :
  remove_all (l ++ l') m = remove_all l' (remove_all l m).
Proof. apply foldl_app. Qed.

Lemma lookup_remove_all_ne {A} (l : list positive) : ∀ (m : gmap positive A) x,
  x ∉ l → remove_all l m !! x = m !! x.
Proof.
  unfold remove_all.
  induction l as [|a l IH]; intros m x Hx; [done|].
  apply not_elem_of_cons in Hx as [Hne Hx]. simpl.
  rewrite IH by done. by apply lookup_delete_ne.
Qed.

Lemma lookup_remove_all {A} (l : list positive) : ∀ (m : gmap positive A) x,
  x ∈ l → remove_all l m !! x = None.
Proof.
  induction l as [|a l IH]; intros m x Hx; [by apply elem_of_nil in Hx|].
  change (remove_all (a :: l) m) with (remove_all l (delete a m)).
  destruct (decide (x ∈ l)) as [Hin|Hnin].
  - by apply IH.
  - apply elem_of_cons in Hx as [->|Hx]; [|done].
    rewrite lookup_remove_all_ne by done. apply lookup_delete_eq.
Qed.

Lemma remove_all_dom {A} (l : list positive) (m : gmap positive A) :
  dom m = list_to_set l → remove_all l m = ∅.
Proof.
  intros Hdom. apply map_empty. intros x.
  destruct (decide (x ∈ l)) as [Hin|Hnin].
  - by apply lookup_remove_all.
  - rewrite lookup_remove_all_ne by done. apply not_elem_of_dom.
    rewrite Hdom. by rewrite elem_of_list_to_set.
Qed.

(** Nodes at different addresses that are all live: no more of them than
    the memory holds. *)
Lemma allocated_length {A} (m : gmap positive A) (l : list positive) :
  NoDup l → (∀ x, x ∈ l → is_Some (m !! x)) → (length l ≤ size m)%nat.
Proof.
  intros Hnd Hal.
  rewrite <-(size_dom (D := gset positive) m).
  rewrite <-(size_list_to_set (C := gset positive) l Hnd).
  apply subseteq_size. intros x Hx. apply elem_of_list_to_set in Hx.
  by apply elem_of_dom, Hal.
Qed.

(** [s'] is [s] with the buckets at [bl], the fill entries at [fl] and the
    duplicate entries at [dl] released. *)
Definition released (bl fl dl : list positive) s s' : Prop :=
  table s' = table s
  ∧ bucket_mem s' = remove_all bl (bucket_mem s)
  ∧ fill_mem s' = remove_all fl (fill_mem s)
  ∧ dup_mem s' = remove_all dl (dup_mem s)
  ∧ alloc_script s' = alloc_script s
  ∧ live_bytes s'
    = live_bytes s
      - Z.of_nat (length bl) * sizeof_hash_table_bucket_t pf
      - Z.of_nat (length fl) * sizeof_hash_table_fill_t pf
      - Z.of_nat (length dl) * sizeof_hash_table_duplicate_t pf.

Lemma released_refl s : released [] [] [] s s.
Proof. unfold released. simpl. split_and!; try done. lia. Qed.

Lemma released_trans bl fl dl bl' fl' dl' s s1 s2 :
  released bl fl dl s s1 → released bl' fl' dl' s1 s2 →
  released (bl ++ bl') (fl ++ fl') (dl ++ dl') s s2.
Proof.
  intros (Ht & Hb & Hf & Hd & Ha & Hl) (Ht' & Hb' & Hf' & Hd' & Ha' & Hl').
  unfold released. rewrite !remove_all_app, !length_app.
  rewrite Ht', Hb', Hf', Hd', Ha', Hl', Ht, Hb, Hf, Hd, Ha, Hl.
  split_and!; try done. lia.
Qed.

Lemma returns_free_duplicate a s Q :
  is_Some (dup_mem s !! a) →
  (∀ s', released [] [] [a] s s' → Q tt s') →
  returns (free_duplicate pf a) s Q.
Proof.
  intros [d Ha] HQ. eexists _, _. split.
  - unfold free_duplicate, load_duplicate, bind, get. by rewrite Ha.
  - apply HQ. unfold released. simpl. split_and!; try done. lia.
Qed.

Lemma returns_free_fill a s Q :
  is_Some (fill_mem s !! a) →
  (∀ s', released [] [a] [] s s' → Q tt s') →
  returns (free_fill pf a) s Q.
Proof.
  intros [d Ha] HQ. eexists _, _. split.
  - unfold free_fill, load_fill, bind, get. by rewrite Ha.
  - apply HQ. unfold released. simpl. split_and!; try done. lia.
Qed.

Lemma returns_free_bucket a s Q :
  (∀ s', released [a] [] [] s s' → Q tt s') →
  returns (free_bucket pf a) s Q.
Proof.
  intros HQ. eexists _, _. split; [done|].
  apply HQ. unfold released. simpl. split_and!; try done. lia.
Qed.

(** The objects the walk of [Hash_Table_Free] meets, in its order. *)
Definition freed_of_fill (f : fill_shape Obj) : list Obj :=
  (fdups f).*2 ++ [fobj f].

Definition told (free_function : bool) (objs : list Obj) : list Obj :=
  if free_function then objs else [].

Lemma told_app cf (l l' : list Obj) : told cf (l ++ l') = told cf l ++ told cf l'.
Proof. by destruct cf. Qed.

Lemma free_duplicates_spec cf ds : ∀ fuel s,
  dup_chain (dup_mem s) ds →
  NoDup ds.*1 →
  (length ds < fuel)%nat →
  returns (free_duplicates pf fuel cf (head_addr ds)) s (λ r s',
    r = told cf ds.*2 ∧ released [] [] ds.*1 s s').
Proof.
  induction ds as [|d ds IH]; intros fuel s Hc Hnd Hfuel;
    (destruct fuel as [|fuel]; [simpl in Hfuel; lia|]).
  - apply returns_ret. split; [by destruct cf|apply released_refl].
  - destruct Hc as [Hd Hc]. rewrite fmap_cons in Hnd.
    apply NoDup_cons in Hnd as [Hd1 Hnd].
    change (head_addr (d :: ds)) with (Some d.1). cbn [free_duplicates].
    apply returns_bind. eapply returns_load_duplicate; [done|].
    apply returns_bind, returns_free_duplicate; [by eauto|].
    intros s1 Hrel. pose proof Hrel as (_ & _ & _ & Hdm & _).
    apply returns_bind. cbn [next_duplicate].
    eapply returns_mono.
    { apply IH; [|done|simpl in Hfuel; lia].
      eapply dup_chain_agree; [|done]. intros x Hx. rewrite Hdm. simpl.
      apply lookup_delete_ne. intros Heq. apply Hd1. by rewrite Heq. }
    intros r s' [-> Hrel']. apply returns_ret. split.
    + by destruct cf.
    + rewrite fmap_cons.
      exact (released_trans [] [] [d.1] [] [] ds.*1 s s1 s' Hrel Hrel').
Qed.

Lemma free_fills_spec cf fs : ∀ fuel s,
  fill_chain (fill_mem s) (dup_mem s) fs →
  NoDup (fill_addrs fs) →
  NoDup (dup_addrs fs) →
  (length fs < fuel)%nat →
  returns (free_fills pf fuel cf (fa <$> head fs)) s (λ r s',
    r = told cf (fs ≫= freed_of_fill)
    ∧ released [] (fill_addrs fs) (dup_addrs fs) s s').
Proof.
  induction fs as [|f fs IH]; intros fuel s Hc Hnf Hnd Hfuel;
    (destruct fuel as [|fuel]; [simpl in Hfuel; lia|]).
  - apply returns_ret. split; [by destruct cf|apply released_refl].
  - destruct Hc as (Hf & Hdc & Hc).
    rewrite fill_addrs_cons in Hnf. apply NoDup_cons in Hnf as [Hf1 Hnf].
    rewrite dup_addrs_cons in Hnd.
    apply NoDup_app in Hnd as (Hndf & Hdisj & Hnd).
    cbn [head fmap option_fmap option_map free_fills].
    apply returns_bind. eapply returns_load_fill; [done|].
    apply returns_bind, returns_get. apply returns_bind.
    cbn [first_duplicate fill_node].
    eapply returns_mono.
    { apply free_duplicates_spec; [done|done|].
      rewrite <-(length_fmap fst (fdups f)).
      apply Nat.lt_succ_r, allocated_length; [done|].
      intros x Hx. by eapply dup_chain_allocated. }
    intros r1 s1 [-> Hrel1]. pose proof Hrel1 as (_ & _ & Hfm1 & Hdm1 & _).
    apply returns_bind. eapply returns_load_fill; [by rewrite Hfm1|].
    apply returns_bind, returns_free_fill; [rewrite Hfm1; by eauto|].
    intros s2 Hrel2. pose proof Hrel2 as (_ & _ & Hfm2 & Hdm2 & _).
    apply returns_bind. cbn [next_fill object fill_node].
    eapply returns_mono.
    { apply IH; [|done|done|simpl in Hfuel; lia].
      eapply fill_chain_agree; [| |done].
      - intros x Hx. rewrite Hfm2, Hfm1. simpl.
        apply lookup_delete_ne. intros Heq. apply Hf1. by rewrite Heq.
      - intros x Hx. rewrite Hdm2, Hdm1. simpl.
        apply lookup_remove_all_ne. intros Hin. by apply (Hdisj x). }
    intros r3 s3 [-> Hrel3]. apply returns_ret. split.
    + rewrite bind_cons. unfold freed_of_fill at 2.
      destruct cf; simpl; [|done]. by rewrite <-app_assoc.
    + rewrite fill_addrs_cons, dup_addrs_cons.
      pose proof (released_trans _ _ _ _ _ _ _ _ _ Hrel1 Hrel2) as Hrel12.
      pose proof (released_trans _ _ _ _ _ _ _ _ _ Hrel12 Hrel3) as Hrel.
      simpl in Hrel. by rewrite app_nil_r in Hrel.
Qed.

(** The buckets still to come are not touched by the release of the
    ones before them. *)
Lemma rest_rep_released bl fl dl s s'
    (slots : list (option positive)) sh :
  released bl fl dl s s' →
  (∀ x, x ∈ all_bucket_addrs sh → x ∉ bl) →
  (∀ x, x ∈ all_fill_addrs sh → x ∉ fl) →
  (∀ x, x ∈ all_dup_addrs sh → x ∉ dl) →
  Forall2 (bucket_rep (bucket_mem s) (fill_mem s) (dup_mem s)) slots sh →
  Forall2 (bucket_rep (bucket_mem s') (fill_mem s') (dup_mem s')) slots sh.
Proof.
  intros (_ & Hb & Hf & Hd & _) Hxb Hxf Hxd Hrep.
  induction Hrep as [|slot b slots sh Hslot Hrep IH]; [done|].
  unfold all_bucket_addrs, all_fill_addrs, all_dup_addrs in Hxb, Hxf, Hxd.
  rewrite bind_cons in Hxb, Hxf, Hxd.
  apply Forall2_cons. split.
  - eapply bucket_rep_agree; [| | |exact Hslot].
    + intros x Hx. rewrite Hb. apply lookup_remove_all_ne, Hxb.
      apply elem_of_app. by left.
    + intros x Hx. rewrite Hf. apply lookup_remove_all_ne, Hxf.
      apply elem_of_app. by left.
    + intros x Hx. rewrite Hd. apply lookup_remove_all_ne, Hxd.
      apply elem_of_app. by left.
  - apply IH; intros x Hx; [apply Hxb|apply Hxf|apply Hxd];
      apply elem_of_app; by right.
Qed.

Definition freed_objects sh : list Obj :=
  sh ≫= (λ b, fills_of b ≫= freed_of_fill).

Lemma free_buckets_spec cf : ∀ sh (slots pre : list (option positive)) fuel s,
  buckets (table s) = pre ++ slots →
  number_of_total_buckets (table s)
  = Z.of_nat (length (buckets (table s))) →
  number_of_total_buckets (table s) ≤ ULONG_MAX pf →
  Forall2 (bucket_rep (bucket_mem s) (fill_mem s) (dup_mem s)) slots sh →
  NoDup (all_bucket_addrs sh) →
  NoDup (all_fill_addrs sh) →
  NoDup (all_dup_addrs sh) →
  (length slots < fuel)%nat →
  returns (free_buckets pf fuel cf (Z.of_nat (length pre))) s (λ r s',
    r = told cf (freed_objects sh)
    ∧ released (all_bucket_addrs sh) (all_fill_addrs sh) (all_dup_addrs sh)
        s s').
Proof.
  induction sh as [|b sh IH];
    intros slots pre fuel s Hbk Htot Hmax Hrep Hnb Hnf Hnd Hfuel;
    (destruct fuel as [|fuel]; [lia|]); cbn [free_buckets];
    apply returns_bind, returns_get.
  - apply Forall2_nil_inv_r in Hrep as ->. rewrite app_nil_r in Hbk.
    rewrite Htot, Hbk, Z.ltb_irrefl. apply returns_ret.
    split; [by destruct cf|apply released_refl].
  - apply Forall2_cons_inv_r in Hrep as (slot & slots' & Hb & Hrep & ->).
    assert (Z.of_nat (length pre) < number_of_total_buckets (table s)) as Hlt.
    { rewrite Htot, Hbk, length_app. simpl. lia. }
    destruct (Z.ltb_spec (Z.of_nat (length pre))
                (number_of_total_buckets (table s))); [|lia].
    apply returns_bind. eapply returns_read_slot; [lia| |].
    { rewrite Nat2Z.id, Hbk. by apply list_lookup_middle. }
    assert (ulong pf (Z.of_nat (length pre) + 1)
            = Z.of_nat (length (pre ++ [slot]))) as Hnext.
    { rewrite length_app. simpl. rewrite ulong_small; lia. }
    rewrite Hnext.
    unfold all_bucket_addrs, all_fill_addrs, all_dup_addrs in Hnb, Hnf, Hnd.
    rewrite bind_cons in Hnb, Hnf, Hnd.
    apply NoDup_app in Hnb as (Hnb1 & Hxb & Hnb).
    apply NoDup_app in Hnf as (Hnf1 & Hxf & Hnf).
    apply NoDup_app in Hnd as (Hnd1 & Hxd & Hnd).
    assert (∀ s2,
      released (bucket_addr_of b) (fill_addrs (fills_of b))
        (dup_addrs (fills_of b)) s s2 →
      returns (free_buckets pf fuel cf (Z.of_nat (length (pre ++ [slot]))))
        s2 (λ r s',
          r = told cf (freed_objects sh)
          ∧ released (all_bucket_addrs (b :: sh)) (all_fill_addrs (b :: sh))
              (all_dup_addrs (b :: sh)) s s')) as Hrest.
    { intros s2 Hrel. pose proof Hrel as (Ht2 & _).
      eapply returns_mono.
      { apply (IH slots' (pre ++ [slot]) fuel s2); try done.
        - rewrite Ht2, Hbk. by rewrite <-app_assoc.
        - by rewrite Ht2.
        - by rewrite Ht2.
        - eapply rest_rep_released; [exact Hrel| | | |done].
          + intros x Hx Hin. by apply (Hxb x).
          + intros x Hx Hin. by apply (Hxf x).
          + intros x Hx Hin. by apply (Hxd x).
        - simpl in Hfuel. lia. }
      intros r s' [-> Hrel']. split; [done|].
      unfold all_bucket_addrs, all_fill_addrs, all_dup_addrs.
      rewrite !bind_cons. by eapply released_trans. }
    apply returns_bind.
    destruct b as [[a fs]|]; simpl in Hb.
    + destruct Hb as (-> & Ha & Hc). simpl in Hnf1, Hnd1.
      apply returns_bind. eapply returns_load_bucket; [done|].
      apply returns_bind, returns_get. apply returns_bind.
      cbn [first_fill]. eapply returns_mono.
      { apply free_fills_spec; [done..|].
        rewrite <-(length_fmap fa fs). fold (fill_addrs fs).
        apply Nat.lt_succ_r, allocated_length; [done|].
        intros x Hx. by eapply fill_chain_allocated. }
      intros r1 s1 [-> Hrel1]. pose proof Hrel1 as (_ & Hbm1 & _).
      apply returns_bind. eapply returns_load_bucket; [by rewrite Hbm1|].
      apply returns_bind, returns_free_bucket. intros s2 Hrel2.
      apply returns_ret. apply returns_bind.
      eapply returns_mono.
      { apply Hrest.
        pose proof (released_trans _ _ _ _ _ _ _ _ _ Hrel1 Hrel2) as Hrel.
        simpl in Hrel. by rewrite !app_nil_r in Hrel. }
      intros r s' [-> Hrel]. apply returns_ret. split; [|done].
      unfold freed_objects. rewrite bind_cons. simpl.
      by rewrite told_app.
    + subst slot. apply returns_ret. apply returns_bind.
      eapply returns_mono; [apply Hrest, released_refl|].
      intros r s' [-> Hrel]. apply returns_ret. split; [|done].
      unfold freed_objects. by rewrite bind_cons.
Qed.

(** [Hash_Table_Free] on a table that satisfies the invariant: it ends
    without a fault, hands every stored object to the free strategy once,
    and leaves no node and no byte of the table behind. *)
Lemma Hash_Table_Free_spec cf s sh :
  table_inv pf s sh →
  number_of_total_buckets (table s) ≤ ULONG_MAX pf →
  returns (Hash_Table_Free pf cf) s (λ r s',
    r = told cf (freed_objects sh)
    ∧ bucket_mem s' = ∅ ∧ fill_mem s' = ∅ ∧ dup_mem s' = ∅
    ∧ table s' = table s
    ∧ alloc_script s' = alloc_script s
    ∧ live_bytes s'
      = live_bytes s - shape_bytes pf (number_of_total_buckets (table s)) sh).
Proof.
  intros Hinv Hmax.
  pose proof Hinv as [Htot Hrep Hnb Hnf Hnd Hdb Hdf Hdd _ _ _].
  unfold Hash_Table_Free.
  apply returns_bind, returns_get. apply returns_bind.
  eapply returns_mono.
  { apply (free_buckets_spec cf sh (buckets (table s)) []); try done.
    rewrite Htot, Nat2Z.id. lia. }
  intros r s1 (-> & Ht & Hb & Hf & Hd & Ha & Hl).
  apply returns_bind, returns_get.
  apply returns_bind, returns_modify, returns_bind, returns_modify,
    returns_ret. simpl.
  split; [done|]. rewrite Hb, Hf, Hd, Ht, Hl.
  split; [by apply remove_all_dom|]. split; [by apply remove_all_dom|].
  split; [by apply remove_all_dom|]. split; [done|]. split; [done|].
  unfold shape_bytes. lia.
Qed.

(** The same order, read off a walk over the table: bucket by bucket,
    entry by entry, the duplicates of an entry before its
    representative. *)
Definition freed_order (es : list (option (list (Obj * list Obj))))
  : list Obj :=
  es ≫= (λ b, default [] b ≫= (λ e, e.2 ++ [e.1])).

Lemma freed_objects_erase sh : freed_objects sh = freed_order (erase sh).
Proof.
  unfold freed_objects, freed_order, erase.
  induction sh as [|b sh IH]; [done|].
  rewrite fmap_cons, !bind_cons, IH. f_equal.
  destruct b as [[a fs]|]; [|done]. simpl.
  induction fs as [|f fs IHfs]; [done|].
  by rewrite fmap_cons, !bind_cons, IHfs.
Qed.

End TeardownCorrect.

(** ** Using the table: lookups, failures, teardown *)

Section Usage.

Context {Obj : Type}.
Variable pf : platform.
Variables (n : Z) (h : string → Z → Z) (c : Obj → Obj → Z).
Variable (sr : string → Obj → Z).
Implicit Types (s : state Obj) (sh : table_shape Obj).
Implicit Types (fs : list (fill_shape Obj)).

(** *** What a lookup reads *)

Lemma entries_lookup s sh i :
  table_inv pf s sh → table_entries s !! i = erase_bucket <$> sh !! i.
Proof.
  intros Hinv. rewrite (table_entries_shape pf s sh Hinv). unfold erase.
  apply list_lookup_fmap.
Qed.

Lemma entries_table_lookup s sh pattern entries :
  table_inv pf s sh →
  search_function (table s) = sr →
  table_entries s !! Z.to_nat (slot_index s pattern) = Some (Some entries) →
  ∃ b fs,
    sh !! Z.to_nat (slot_index s pattern) = Some (Some (b, fs))
    ∧ entries = erase_fill <$> fs
    ∧ erase_fill <$> table_lookup s sh pattern
      = spec_search sr pattern entries.
Proof.
  intros Hinv Hsr. rewrite (entries_lookup s sh _ Hinv). unfold table_lookup.
  destruct (sh !! _) as [[[b fs]|]|]; simpl; [|done..].
  intros [= <-]. exists b, fs. split; [done|]. split; [done|].
  rewrite Hsr. apply erase_chain_search.
Qed.

Lemma calloc_after_calloc m size s ok s1 :
  calloc pf m size s = Done ok s1 → after_calloc pf m size s = (ok, s1).
Proof.
  rewrite calloc_eq. intros [= <- <-]. done.
Qed.

(** The state after a [calloc] that the allocator refuses by its script. *)
Lemma after_calloc_refused m size s rest :
  alloc_script s = false :: rest →
  after_calloc pf m size s = (false, set_allocator (live_bytes s) rest s).
Proof. intros Hs. unfold after_calloc, calloc_answer. by rewrite Hs. Qed.

Lemma Hash_Table_Match_refused s sh pattern found max f rest :
  table_inv pf s sh →
  0 ≤ slot_index s pattern < number_of_total_buckets (table s) →
  table_lookup s sh pattern = Some f →
  alloc_script s = false :: rest →
  Hash_Table_Match pf pattern found max s
  = Done (None, found) (set_allocator (live_bytes s) rest s).
Proof.
  intros Hinv Hi Hlook Hscript.
  rewrite (Hash_Table_Match_unfold pf s sh) by done.
  unfold table_lookup in Hlook.
  destruct (sh !! _) as [[[b fs]|]|]; [|done..]. rewrite Hlook.
  by apply match_at_refused, after_calloc_refused.
Qed.

(** *** The inner loop of [Hash_Table_Match] stays inside the array *)

Lemma ulong_nonneg z : 0 ≤ ULONG_MAX pf → 0 ≤ ulong pf z.
Proof. intros. unfold ulong. apply Z.mod_pos_bound. lia. Qed.

Lemma collect_duplicates_returns (ds : list (positive * Obj)) :
  ∀ fuel (recs : list (option Obj)) found max s,
  dup_chain (dup_mem s) ds →
  (length ds < fuel)%nat →
  0 ≤ ULONG_MAX pf →
  0 ≤ found →
  Z.of_nat (length recs) = max →
  ∃ recs' found',
    collect_duplicates pf fuel recs found max (head_addr ds) s
    = Done (recs', found') s
    ∧ length recs' = length recs.
Proof.
  induction ds as [|d ds IH]; intros fuel recs found max s Hc Hfuel Hu Hf Hl;
    (destruct fuel as [|fuel]; [simpl in Hfuel; lia|]); simpl.
  - by eexists _, _.
  - destruct Hc as [Hd Hc].
    destruct (Z.ltb_spec found max) as [Hlt|Hge]; [|by eexists _, _].
    unfold bind at 1, load_duplicate, bind at 1, get. rewrite Hd. simpl.
    unfold bind at 1, write_record.
    destruct (Z.leb_spec 0 found); [|lia].
    destruct (Z.ltb_spec found (Z.of_nat (length recs))); [|lia].
    simpl. unfold ret.
    destruct (IH fuel (<[Z.to_nat found := Some d.2]> recs)
                (ulong pf (found + 1)) max s)
      as (recs' & found' & Hcd & Hlen); try done.
    + simpl in Hfuel. lia.
    + by apply ulong_nonneg.
    + by rewrite length_insert.
    + exists recs', found'. split; [done|]. by rewrite Hlen, length_insert.
Qed.

Lemma match_at_returns (f : fill_shape Obj) found max s :
  dup_chain (dup_mem s) (fdups f) →
  (length (fdups f) ≤ size (dup_mem s))%nat →
  0 < max →
  0 ≤ found ≤ ULONG_MAX pf →
  ∃ r s',
    match_at pf (fobj f) (head_addr (fdups f)) found max s = Done r s'
    ∧ ∀ recs, r.1 = Some recs → Z.of_nat (length recs) = max.
Proof.
  intros Hd Hlen Hmax Hfound. unfold match_at, bind at 1. rewrite calloc_eq.
  destruct (after_calloc pf max (sizeof_pointer pf) s) as [[|] s1] eqn:Hac;
    cbn [fst snd]; [|by eexists _, _].
  apply after_calloc_spec in Hac as ((_ & _ & _ & Hdm) & _).
  unfold bind at 1, write_record. rewrite length_replicate.
  destruct (Z.ltb_spec 0 (Z.of_nat (Z.to_nat max))); [|lia].
  change ((0 <=? 0) && true) with true. cbv beta iota.
  unfold ret at 1. unfold bind at 1, get. unfold bind at 1.
  destruct (collect_duplicates_returns (fdups f) (S (size (dup_mem s1)))
              (<[Z.to_nat 0 := Some (fobj f)]> (replicate (Z.to_nat max) None))
              (ulong pf (found + 1)) max s1)
    as (recs' & found' & -> & Hl).
  - by rewrite Hdm.
  - rewrite Hdm. lia.
  - lia.
  - apply ulong_nonneg. lia.
  - rewrite length_insert, length_replicate. lia.
  - eexists _, _. split; [done|]. simpl. intros recs [= <-].
    rewrite Hl, length_insert, length_replicate. lia.
Qed.

(** *** The objects a table holds *)

Definition stored_objects (es : list (option (list (Obj * list Obj))))
  : list Obj :=
  es ≫= (λ b, default [] b ≫= (λ e, e.1 :: e.2)).

Lemma stored_objects_erase sh :
  stored_objects (erase sh) = sh ≫= (λ b, fills_of b ≫= objects_of_fill).
Proof.
  unfold stored_objects, erase.
  induction sh as [|b sh IH]; [done|].
  rewrite fmap_cons, !bind_cons, IH. f_equal.
  destruct b as [[a fs]|]; [|done]. simpl.
  induction fs as [|f fs IHfs]; [done|].
  by rewrite fmap_cons, !bind_cons, IHfs.
Qed.

Lemma bind_insert_perm {A B} (g : A → list B) (l : list A) extra :
  ∀ i x y,
  l !! i = Some x → g y ≡ₚ extra ++ g x →
  <[i := y]> l ≫= g ≡ₚ extra ++ (l ≫= g).
Proof.
  induction l as [|z l IH]; intros i x y Hi Hp; [done|].
  destruct i as [|i]; simplify_eq/=.
  - rewrite Hp. by rewrite app_assoc.
  - rewrite (IH i x y Hi Hp).
    rewrite !app_assoc. f_equiv. apply Permutation_app_comm.
Qed.

(** *** The lookup after an insertion *)

Lemma chain_search_insert o a pattern fs :
  sr pattern o = 1 →
  (∀ x, sr pattern x = 1 ↔ c x o = 0) →
  ∃ f,
    chain_search sr pattern (chain_insert c o a fs) = Some f
    ∧ last (objects_of_fill f) = Some o
    ∧ c (fobj f) o = 0.
Proof.
  intros Ho Hkey.
  assert (c o o = 0) as Hoo by (by apply Hkey).
  induction fs as [|f fs IH]; simpl.
  - rewrite Ho. simpl. by eexists.
  - destruct (Z.eqb_spec (c (fobj f) o) 0) as [Heq|Hne].
    + simpl. rewrite (proj2 (Hkey (fobj f)) Heq). simpl.
      eexists. split; [done|]. split; [|done].
      unfold objects_of_fill. simpl. rewrite fmap_app. simpl.
      by rewrite app_comm_cons, last_snoc.
    + destruct (c (fobj f) o <? 0); simpl.
      * destruct (Z.eqb_spec (sr pattern (fobj f)) 1) as [Hs|_]; [|done].
        by apply Hkey in Hs.
      * rewrite Ho. simpl. by eexists.
Qed.

(** *** Properties *)

(** X1.  [Hash_Table_Free], called in any state of a table whose bucket count
    is an [unsigned long], ends without a fault (no node is released twice
    and no released node is read), leaves no bucket, fill entry or
    duplicate entry allocated, and returns every byte of the table: the
    nodes, the bucket array and the table record. *)
Theorem free_releases_the_table s free_function :
  reachable pf n h c sr s →
  n ≤ ULONG_MAX pf →
  ∃ freed s',
    Hash_Table_Free pf free_function s = Done freed s'
    ∧ bucket_mem s' = ∅ ∧ fill_mem s' = ∅ ∧ dup_mem s' = ∅
    ∧ live_bytes s' = live_bytes s - table_bytes pf s.
Proof.
  intros Hreach Hn.
  destruct (reachable_inv pf n h c sr s Hreach)
    as ((_ & _ & _ & Htot) & sh & Hinv).
  destruct (Hash_Table_Free_spec pf free_function s sh Hinv)
    as (freed & s' & Hfree & _ & Hb & Hf & Hd & _ & _ & Hl); [by rewrite Htot|].
  exists freed, s'. split_and!; try done.
  by rewrite <-(table_bytes_shape pf s sh Hinv).
Qed.

(** X2.  With a free strategy set, [Hash_Table_Free] hands it every stored
    object once per entry: bucket by bucket, along each fill chain, the
    duplicates of an entry in chain order and then its representative.
    With none set (NULL) it hands over nothing. *)
Theorem free_hands_over_every_object s :
  reachable pf n h c sr s →
  n ≤ ULONG_MAX pf →
  (∃ s', Hash_Table_Free pf true s
         = Done (freed_order (table_entries s)) s')
  ∧ (∃ s', Hash_Table_Free pf false s = Done [] s')
  ∧ freed_order (table_entries s) ≡ₚ stored_objects (table_entries s).
Proof.
  intros Hreach Hn.
  destruct (reachable_inv pf n h c sr s Hreach)
    as ((_ & _ & _ & Htot) & sh & Hinv).
  rewrite <-Htot in Hn.
  destruct (Hash_Table_Free_spec pf true s sh Hinv Hn)
    as (r1 & s1 & Hfree1 & -> & _).
  destruct (Hash_Table_Free_spec pf false s sh Hinv Hn)
    as (r2 & s2 & Hfree2 & -> & _).
  rewrite (table_entries_shape pf s sh Hinv), <-freed_objects_erase.
  split; [by exists s1|]. split; [by exists s2|].
  rewrite freed_objects_erase. unfold freed_order, stored_objects.
  induction (erase sh) as [|b es IH]; [done|].
  rewrite !bind_cons, IH. f_equiv.
  destruct b as [entries|]; [|done]. simpl.
  induction entries as [|e entries IHe]; [done|].
  rewrite !bind_cons, IHe. f_equiv.
  by rewrite <-Permutation_cons_append.
Qed.

(** X3.  [Hash_Table_Match] writes neither the table record nor any node; the
    one block it leaves allocated is the array it returns, of
    [max_num_records] pointers. *)
Theorem match_only_reads s pattern found max r s' :
  reachable pf n h c sr s →
  Hash_Table_Match pf pattern found max s = Done r s' →
  same_table s s'
  ∧ live_bytes s' = live_bytes s + records_bytes pf max r.
Proof.
  intros Hreach Hop.
  destruct (reachable_inv pf n h c sr s Hreach) as (_ & sh & Hinv).
  pose proof (Hash_Table_Match_in_range pf _ _ _ _ _ _ _ Hinv Hop) as Hi.
  by destruct (Hash_Table_Match_same pf _ _ _ _ _ _ _ Hinv Hi Hop)
    as (? & _ & ? & _).
Qed.

(** X4.  Asked for one record or more, [Hash_Table_Match] never stores outside
    the array it allocates, whatever the counter holds on entry: it ends
    without a fault, and the array it returns has [max_num_records]
    cells. *)
Theorem match_stays_in_array s pattern found max :
  reachable pf n h c sr s →
  0 ≤ h pattern n < n →
  0 < max →
  0 ≤ found ≤ ULONG_MAX pf →
  ∃ r s',
    Hash_Table_Match pf pattern found max s = Done r s'
    ∧ ∀ recs, r.1 = Some recs → Z.of_nat (length recs) = max.
Proof.
  intros Hreach Hi Hmax Hfound.
  destruct (reachable_slot_index pf n h c sr s pattern Hreach) as [Hslot _].
  destruct (reachable_inv pf n h c sr s Hreach)
    as ((_ & _ & _ & Hn) & sh & Hinv).
  rewrite <-Hslot, <-Hn in Hi.
  rewrite (Hash_Table_Match_unfold pf s sh) by done.
  pose proof (table_lookup_Some pf s sh pattern) as Hl.
  unfold table_lookup in Hl.
  destruct (sh !! _) as [[[b fs]|]|]; [|by eexists _, _..].
  destruct (chain_search _ _ _) as [f|]; [|by eexists _, _].
  destruct (Hl f Hinv eq_refl) as (_ & Hd & Hlen).
  by apply match_at_returns.
Qed.

(** X5.  With the counter at zero on entry, room for one record or more and
    the array granted, [Hash_Table_Match] returns the group of the first
    fill entry the search strategy accepts: the representative, then its
    duplicates in the order of their insertion, as many as fit, the other
    cells NULL; the counter is the number of objects stored. *)
Theorem match_returns_the_group s pattern max entries representative
    duplicates s1 :
  reachable pf n h c sr s →
  0 ≤ h pattern n < n →
  table_entries s !! Z.to_nat (h pattern n) = Some (Some entries) →
  spec_search sr pattern entries = Some (representative, duplicates) →
  0 < max ≤ ULONG_MAX pf →
  calloc pf max (sizeof_pointer pf) s = Done true s1 →
  Hash_Table_Match pf pattern 0 max s
  = Done (Some (match_records (Z.to_nat max) (representative :: duplicates)),
          Z.of_nat (min (Z.to_nat max) (S (length duplicates)))) s1.
Proof.
  intros Hreach Hi He Hs Hmax Hcalloc%calloc_after_calloc.
  destruct (reachable_slot_index pf n h c sr s pattern Hreach) as [Hslot _].
  destruct (reachable_inv pf n h c sr s Hreach)
    as ((_ & _ & Hsr & Hn) & sh & Hinv).
  rewrite <-Hslot in He. rewrite <-Hslot, <-Hn in Hi.
  destruct (entries_table_lookup s sh pattern entries Hinv Hsr He)
    as (b & fs & _ & _ & Hlook).
  rewrite Hs in Hlook.
  destruct (table_lookup s sh pattern) as [f|] eqn:Hf; [|done].
  injection Hlook as <- <-.
  rewrite (Hash_Table_Match_found pf s sh pattern max f s1); try done.
  by rewrite length_fmap.
Qed.

(** X6.  A lookup that finds nothing.  In an empty bucket [Hash_Table_Match]
    returns NULL and sets the counter to zero; in a bucket none of whose
    representatives the search strategy accepts it returns NULL and leaves
    the counter at the value it held on entry.  Nothing is allocated. *)
Theorem match_finds_nothing s pattern found max :
  reachable pf n h c sr s →
  0 ≤ h pattern n < n →
  (table_entries s !! Z.to_nat (h pattern n) = Some None →
   Hash_Table_Match pf pattern found max s = Done (None, 0) s)
  ∧ (∀ entries,
       table_entries s !! Z.to_nat (h pattern n) = Some (Some entries) →
       spec_search sr pattern entries = None →
       Hash_Table_Match pf pattern found max s = Done (None, found) s).
Proof.
  intros Hreach Hi.
  destruct (reachable_slot_index pf n h c sr s pattern Hreach) as [Hslot _].
  destruct (reachable_inv pf n h c sr s Hreach)
    as ((_ & _ & Hsr & Hn) & sh & Hinv).
  rewrite <-Hslot. rewrite <-Hslot, <-Hn in Hi.
  rewrite (Hash_Table_Match_unfold pf s sh) by done. split.
  - rewrite (entries_lookup s sh _ Hinv).
    by destruct (sh !! _) as [[[b fs]|]|].
  - intros entries He Hs.
    destruct (entries_table_lookup s sh pattern entries Hinv Hsr He)
      as (b & fs & Hsh & _ & Hlook).
    rewrite Hs in Hlook. unfold table_lookup in Hlook. rewrite Hsh in *.
    by destruct (chain_search _ _ _).
Qed.

(** X7.  A refused array reads as a missing key.  When the search strategy
    accepts an entry of the bucket but [calloc] refuses the result array,
    [Hash_Table_Match] returns NULL with the counter untouched, and
    [Hash_Table_First_Match] returns NULL; the table is as before. *)
Theorem refused_array_reads_as_missing s pattern found max entries e rest :
  reachable pf n h c sr s →
  0 ≤ h pattern n < n →
  table_entries s !! Z.to_nat (h pattern n) = Some (Some entries) →
  spec_search sr pattern entries = Some e →
  alloc_script s = false :: rest →
  Hash_Table_Match pf pattern found max s
  = Done (None, found) (set_allocator (live_bytes s) rest s)
  ∧ Hash_Table_First_Match pf pattern s
    = Done None (set_allocator (live_bytes s) rest s).
Proof.
  intros Hreach Hi He Hs Hscript.
  destruct (reachable_slot_index pf n h c sr s pattern Hreach) as [Hslot _].
  destruct (reachable_inv pf n h c sr s Hreach)
    as ((_ & _ & Hsr & Hn) & sh & Hinv).
  rewrite <-Hslot in He. rewrite <-Hslot, <-Hn in Hi.
  destruct (entries_table_lookup s sh pattern entries Hinv Hsr He)
    as (b & fs & _ & _ & Hlook).
  rewrite Hs in Hlook.
  destruct (table_lookup s sh pattern) as [f|] eqn:Hf; [|done].
  split; [by eapply Hash_Table_Match_refused|].
  unfold Hash_Table_First_Match, bind.
  by rewrite (Hash_Table_Match_refused s sh pattern 0 1 f rest).
Qed.

(** X8.  Under the same refusal [Hash_Table_Insert_No_Duplicate] takes the key
    for absent: it does not answer 0 but runs [Hash_Table_Insert], so the
    object is stored although the lookup would have found one. *)
Theorem insert_no_duplicate_after_refusal s o pattern found_duplicate
    entries e rest :
  reachable pf n h c sr s →
  0 ≤ h pattern n < n →
  table_entries s !! Z.to_nat (h pattern n) = Some (Some entries) →
  spec_search sr pattern entries = Some e →
  alloc_script s = false :: rest →
  ∃ i s',
    Hash_Table_Insert pf o pattern (set_allocator (live_bytes s) rest s)
    = Done i s'
    ∧ Hash_Table_Insert_No_Duplicate pf o pattern found_duplicate s
      = Done (if i =? 0 then -1 else 1, found_duplicate) s'.
Proof.
  intros Hreach Hi He Hs Hscript.
  destruct (reachable_slot_index pf n h c sr s pattern Hreach) as [Hslot _].
  destruct (reachable_inv pf n h c sr s Hreach)
    as ((_ & _ & Hsr & Hn) & sh & Hinv).
  rewrite <-Hslot in He. rewrite <-Hslot, <-Hn in Hi.
  destruct (entries_table_lookup s sh pattern entries Hinv Hsr He)
    as (b & fs & _ & _ & Hlook).
  rewrite Hs in Hlook.
  destruct (table_lookup s sh pattern) as [f|] eqn:Hf; [|done].
  pose proof (Hash_Table_Match_refused s sh pattern 0 1 f rest Hinv Hi Hf
                Hscript) as Hm.
  destruct (Hash_Table_Match_same pf _ _ _ _ _ _ _ Hinv Hi Hm)
    as (_ & Hinv1 & _).
  destruct (Hash_Table_Insert_correct pf _ sh o pattern Hinv1 Hi)
    as (i & s' & Hins & _).
  exists i, s'. split; [done|].
  unfold Hash_Table_Insert_No_Duplicate, bind at 1. rewrite Hm. simpl.
  unfold bind. rewrite Hins. by destruct (i =? 0).
Qed.

(** [Hash_Table_Insert_No_Duplicate] that answers 0 has released the
    array of its lookup. *)
Lemma Hash_Table_Insert_No_Duplicate_found s sh o pattern fd r s' :
  table_inv pf s sh →
  Hash_Table_Insert_No_Duplicate pf o pattern fd s = Done r s' →
  r.1 = 0 →
  same_table s s' ∧ live_bytes s' = live_bytes s.
Proof.
  intros Hinv Hop Hr.
  pose proof (Hash_Table_Insert_No_Duplicate_in_range pf _ _ _ _ _ _ _
                Hinv Hop) as Hi.
  unfold Hash_Table_Insert_No_Duplicate in Hop.
  apply bind_Done in Hop as ([object_temp number_records] & s0 & Hm & Hk).
  destruct (Hash_Table_Match_same pf _ _ _ _ _ _ _ Hinv Hi Hm)
    as (Hsame & Hinv0 & Hlive & _).
  destruct (number_records =? 0).
  - apply bind_Done in Hk as (i & s1 & Hins & Hk).
    destruct (i =? 0); injection Hk as <- <-; done.
  - destruct object_temp as [recs|]; [|done].
    apply bind_Done in Hk as (o' & s1 & ->%read_record_Done & Hk).
    injection Hk as _ <-.
    destruct (table_inv_released pf s s0 sh (Some recs, number_records))
      as (Hsame' & Hlive' & _); [done..|by eexists|done].
Qed.

(** X9.  [Hash_Table_First_Match], and [Hash_Table_Insert_No_Duplicate] when it
    answers 0, release the array their lookup obtained: the table and its
    nodes are as before the call and no byte more is allocated than
    before. *)
Theorem lookup_array_is_released s :
  reachable pf n h c sr s →
  (∀ pattern r s',
     Hash_Table_First_Match pf pattern s = Done r s' →
     same_table s s' ∧ live_bytes s' = live_bytes s)
  ∧ (∀ o pattern found_duplicate r s',
       Hash_Table_Insert_No_Duplicate pf o pattern found_duplicate s
       = Done r s' →
       r.1 = 0 →
       same_table s s' ∧ live_bytes s' = live_bytes s).
Proof.
  intros Hreach.
  destruct (reachable_inv pf n h c sr s Hreach) as (_ & sh & Hinv).
  split.
  - intros pattern r s' Hop.
    by destruct (Hash_Table_First_Match_same pf _ _ _ _ _ Hinv Hop)
      as (? & ? & _).
  - intros o pattern fd r s' Hop Hr.
    by eapply Hash_Table_Insert_No_Duplicate_found.
Qed.

(** X10.  A failed insertion keeps nothing allocated.  When
    [Hash_Table_Insert] returns 0 the number of live bytes is what it was
    (the bucket obtained before a refused fill entry has been released);
    and, where an [unsigned long] can hold 1, the same is true of
    [Hash_Table_Insert_No_Duplicate] returning -1, which also leaves the
    table and every node as they were. *)
Theorem failed_insert_keeps_no_block s :
  reachable pf n h c sr s →
  (∀ o pattern s',
     Hash_Table_Insert pf o pattern s = Done 0 s' →
     live_bytes s' = live_bytes s)
  ∧ (1 ≤ ULONG_MAX pf →
     ∀ o pattern found_duplicate r s',
       Hash_Table_Insert_No_Duplicate pf o pattern found_duplicate s
       = Done r s' →
       r.1 = -1 →
       same_table s s' ∧ live_bytes s' = live_bytes s).
Proof.
  intros Hreach.
  destruct (reachable_inv pf n h c sr s Hreach) as (_ & sh & Hinv).
  split.
  - intros o pattern s' Hop.
    pose proof (Hash_Table_Insert_in_range pf _ _ _ _ _ _ Hinv Hop) as Hi.
    destruct (returns_inv _ _ _ _ _
                (Hash_Table_Insert_correct pf s sh o pattern Hinv Hi) Hop)
      as [(_ & _ & Hl & _)|(? & _)]; done.
  - intros Hone o pattern fd r s' Hop Hr.
    pose proof (Hash_Table_Insert_No_Duplicate_in_range pf _ _ _ _ _ _ _
                  Hinv Hop) as Hi.
    destruct (returns_inv _ _ _ _ _
                (Hash_Table_Insert_No_Duplicate_correct pf Hone s sh o
                   pattern fd Hinv Hi) Hop)
      as [(f & s1 & _ & _ & -> & _)
         |(s1 & i & Hm & (Ht1 & Hb1 & Hf1 & Hd1) & _ & Hp & ->)]; [done|].
    destruct (Hash_Table_Match_same pf _ _ _ _ _ _ _ Hinv Hi Hm)
      as (_ & _ & Hl1 & _).
    unfold records_bytes in Hl1. simpl in Hl1.
    destruct Hp as [(-> & (Ht & Hb & Hf & Hd) & Hl & _)|(-> & _)]; [|done].
    split; [|lia]. unfold same_table. by rewrite Ht, Hb, Hf, Hd.
Qed.

(** X11.  The bucket count and the three strategies are those given to
    [Hash_Table_Init], in every state: no operation writes them, and the
    bucket array keeps its length. *)
Theorem strategies_never_change s :
  reachable pf n h c sr s →
  hash_function (table s) = h
  ∧ compare_function (table s) = c
  ∧ search_function (table s) = sr
  ∧ number_of_total_buckets (table s) = n
  ∧ Z.of_nat (length (buckets (table s))) = n.
Proof.
  intros Hreach.
  destruct (reachable_inv pf n h c sr s Hreach)
    as ((Hh & Hc & Hsr & Hn) & sh & Hinv).
  split_and!; try done. by rewrite <-(inv_total _ _ _ Hinv).
Qed.

(** X12.  [Hash_Table_Insert] loses nothing: after a successful call the table
    holds the new object and every object it held before, each as often
    as before; after a failed call a walk over the table sees what it saw
    before. *)
Theorem insert_keeps_every_object s o pattern r s' :
  reachable pf n h c sr s →
  Hash_Table_Insert pf o pattern s = Done r s' →
  (r = 1
   ∧ stored_objects (table_entries s')
     ≡ₚ o :: stored_objects (table_entries s))
  ∨ (r = 0 ∧ table_entries s' = table_entries s).
Proof.
  intros Hreach Hop.
  destruct (reachable_inv pf n h c sr s Hreach)
    as ((_ & Hc & _ & _) & sh & Hinv).
  pose proof (Hash_Table_Insert_in_range pf _ _ _ _ _ _ Hinv Hop) as Hi.
  destruct (returns_inv _ _ _ _ _
              (Hash_Table_Insert_correct pf s sh o pattern Hinv Hi) Hop)
    as [(-> & (Ht & Hb & Hf & Hd) & _)|(-> & sh' & Hinv' & Heff)].
  - right. split; [done|]. unfold table_entries, bucket_entries.
    by rewrite Ht, Hb, Hf, Hd.
  - left. split; [done|].
    rewrite (table_entries_shape pf s sh Hinv).
    rewrite (table_entries_shape pf s' sh' Hinv').
    rewrite !stored_objects_erase. unfold insert_effect in Heff.
    rewrite Hc in Heff.
    destruct (sh !! _) as [[[b fs]|]|] eqn:Hsh; [| |done].
    + destruct Heff as (a & -> & _).
      apply (bind_insert_perm _ sh [o] _ (Some (b, fs))); [done|].
      apply chain_insert_objects.
    + destruct Heff as (nb & nf & -> & _).
      by apply (bind_insert_perm _ sh [o] _ None).
Qed.

(** After a successful insertion of [o] under a pattern whose search
    accepts exactly the objects that compare equal to [o], the lookup
    stops at the fill entry that holds [o]. *)
Lemma lookup_after_insert s sh o pattern s' :
  table_inv pf s sh →
  compare_function (table s) = c →
  search_function (table s) = sr →
  Hash_Table_Insert pf o pattern s = Done 1 s' →
  sr pattern o = 1 →
  (∀ x, sr pattern x = 1 ↔ c x o = 0) →
  ∃ sh' f,
    table_inv pf s' sh'
    ∧ 0 ≤ slot_index s' pattern < number_of_total_buckets (table s')
    ∧ table_lookup s' sh' pattern = Some f
    ∧ last (objects_of_fill f) = Some o
    ∧ c (fobj f) o = 0.
Proof.
  intros Hinv Hc Hsr Hop Ho Hkey.
  pose proof (Hash_Table_Insert_in_range pf _ _ _ _ _ _ Hinv Hop) as Hi.
  pose proof (returns_inv _ _ _ _ _
                (Hash_Table_Insert_correct pf s sh o pattern Hinv Hi) Hop)
    as Hpost.
  destruct (insert_post_strategies pf _ _ _ _ _ _ Hpost)
    as ((Hh' & Hc' & Hsr' & Hn') & _).
  destruct Hpost as [(? & _)|(_ & sh' & Hinv' & Heff)]; [done|].
  assert (slot_index s' pattern = slot_index s pattern) as Hslot
    by (unfold slot_index; by rewrite Hh', Hn').
  exists sh'. unfold table_lookup. rewrite Hslot, Hn', Hsr', Hsr.
  unfold insert_effect in Heff. rewrite Hc in Heff.
  destruct (sh !! _) as [[[b fs]|]|] eqn:Hsh; [| |done].
  - destruct Heff as (a & -> & _).
    rewrite list_lookup_insert_eq by (by eapply lookup_lt_Some).
    destruct (chain_search_insert o a pattern fs Ho Hkey)
      as (f & Hf & Hlast & Heq).
    by exists f.
  - destruct Heff as (nb & nf & -> & _).
    rewrite list_lookup_insert_eq by (by eapply lookup_lt_Some).
    simpl. rewrite Ho. simpl. eexists. split_and!; try done; try lia.
    by apply Hkey.
Qed.

(** X13.  Insert, then look up.  Let the search strategy accept, for
    [pattern], exactly the objects that compare equal to [o].  After
    [Hash_Table_Insert] has stored [o] under [pattern], a
    [Hash_Table_Match] for [pattern] whose array is granted returns the
    group of [o]: its representative compares equal to [o], and [o] is
    the last object of the group. *)
Theorem insert_then_match s o pattern s' max s1 :
  reachable pf n h c sr s →
  Hash_Table_Insert pf o pattern s = Done 1 s' →
  sr pattern o = 1 →
  (∀ x, sr pattern x = 1 ↔ c x o = 0) →
  0 < max ≤ ULONG_MAX pf →
  calloc pf max (sizeof_pointer pf) s' = Done true s1 →
  ∃ representative duplicates,
    Hash_Table_Match pf pattern 0 max s'
    = Done (Some (match_records (Z.to_nat max)
                    (representative :: duplicates)),
            Z.of_nat (min (Z.to_nat max) (S (length duplicates)))) s1
    ∧ c representative o = 0
    ∧ last (representative :: duplicates) = Some o.
Proof.
  intros Hreach Hop Ho Hkey Hmax Hcalloc%calloc_after_calloc.
  destruct (reachable_inv pf n h c sr s Hreach)
    as ((_ & Hc & Hsr & _) & sh & Hinv).
  destruct (lookup_after_insert s sh o pattern s' Hinv Hc Hsr Hop Ho Hkey)
    as (sh' & f & Hinv' & Hi' & Hlook & Hlast & Hf).
  exists (fobj f), (fdups f).*2. split; [|done].
  rewrite (Hash_Table_Match_found pf s' sh' pattern max f s1); try done.
  by rewrite length_fmap.
Qed.

(** X14.  No second copy when memory suffices.  Let the search strategy accept,
    for [pattern], exactly the objects that compare equal to [o].  Once
    [Hash_Table_Insert_No_Duplicate] has answered 1 for [o], a further
    call under [pattern] whose lookup array is granted answers 0, reports
    an object that compares equal to [o], and leaves the table as it
    is. *)
Theorem insert_no_duplicate_twice s o pattern fd fd' s' o2 fd2 s1 :
  1 ≤ ULONG_MAX pf →
  reachable pf n h c sr s →
  Hash_Table_Insert_No_Duplicate pf o pattern fd s = Done (1, fd') s' →
  sr pattern o = 1 →
  (∀ x, sr pattern x = 1 ↔ c x o = 0) →
  calloc pf 1 (sizeof_pointer pf) s' = Done true s1 →
  ∃ representative s'',
    Hash_Table_Insert_No_Duplicate pf o2 pattern fd2 s'
    = Done (0, Some representative) s''
    ∧ c representative o = 0
    ∧ same_table s' s''.
Proof.
  intros Hone Hreach Hop Ho Hkey Hcalloc%calloc_after_calloc.
  destruct (reachable_inv pf n h c sr s Hreach)
    as ((Hh & Hc & Hsr & Hn) & sh & Hinv).
  pose proof (Hash_Table_Insert_No_Duplicate_in_range pf _ _ _ _ _ _ _
                Hinv Hop) as Hi.
  destruct (returns_inv _ _ _ _ _
              (Hash_Table_Insert_No_Duplicate_correct pf Hone s sh o
                 pattern fd Hinv Hi) Hop)
    as [(f & s0 & _ & _ & [=] & _)
       |(s0 & i & Hm & (Ht0 & _) & Hins & Hp & Hr)].
  assert (i = 1) as -> by (destruct Hp as [(-> & _)|(-> & _)]; done).
  destruct (Hash_Table_Match_same pf _ _ _ _ _ _ _ Hinv Hi Hm)
    as (_ & Hinv0 & _).
  destruct (lookup_after_insert s0 sh o pattern s' Hinv0) as
    (sh' & f & Hinv' & Hi' & Hlook & Hlast & Hf); try done;
    [by rewrite Ht0..|].
  pose proof (Hash_Table_Match_found pf s' sh' pattern 1 f s1 Hinv' Hi'
                Hlook Hcalloc) as Hm'.
  destruct (Hash_Table_Insert_No_Duplicate_correct pf Hone s' sh' o2
              pattern fd2 Hinv' Hi')
    as (r & s'' & Hop' & [(f' & s1' & _ & Hlook' & -> & Hsame & _)
                         |(s1' & i' & Hm'' & _)]).
  - exists (fobj f'), s''. rewrite Hlook in Hlook'. injection Hlook' as <-.
    done.
  - rewrite Hm' in Hm'' by lia. done.
Qed.

(** X15.  Where an [unsigned long] holds any object size, [Hash_Table_Size]
    is, in every state, the number of bytes of the blocks the table
    holds: the table record, the bucket array and every node (the stored
    objects are not counted). *)
Theorem size_is_the_bytes_held s :
  platform_ok pf →
  reachable pf n h c sr s →
  Hash_Table_Size pf (table s) = table_bytes pf s.
Proof.
  intros pf_ok Hreach.
  destruct (reachable_inv pf n h c sr s Hreach) as (_ & sh & Hinv).
  destruct (Hash_Table_Size_exact pf pf_ok s sh Hinv) as [-> _].
  rewrite <-(table_bytes_shape pf s sh Hinv).
  destruct (inv_counters _ _ _ Hinv pf_ok) as [-> _ -> ->].
  done.
Qed.

Lemma rep_filled_slots
    (bm : gmap positive hash_table_bucket_t)
    (fm : gmap positive (hash_table_fill_t Obj))
    (dm : gmap positive (hash_table_duplicate_t Obj))
    (slots : list (option positive)) sh :
  Forall2 (bucket_rep bm fm dm) slots sh →
  length (all_bucket_addrs sh) = length (filter is_Some slots).
Proof.
  unfold all_bucket_addrs.
  induction 1 as [|slot b slots sh Hb Hrep IH]; [done|].
  rewrite bind_cons, length_app, IH.
  destruct b as [[a fs]|]; simpl in Hb.
  - destruct Hb as (-> & _). by rewrite filter_cons_True by eauto.
  - subst slot. rewrite filter_cons_False; [done|]. by intros [? ?].
Qed.

(** X16.  Where an [unsigned long] holds any object size, buckets-filled is
    the number of slots of the bucket array that are not NULL, and
    collisions is the number of fill entries beyond the first of their
    bucket. *)
Theorem buckets_filled_counts_slots s :
  platform_ok pf →
  reachable pf n h c sr s →
  number_of_buckets_filled (table s)
  = Z.of_nat (length (filter is_Some (buckets (table s))))
  ∧ number_of_collisions (table s)
    = Z.of_nat (size (fill_mem s))
      - Z.of_nat (length (filter is_Some (buckets (table s)))).
Proof.
  intros pf_ok Hreach.
  destruct (reachable_inv pf n h c sr s Hreach) as (_ & sh & Hinv).
  destruct (table_inv_sizes pf s sh Hinv) as [Hf _].
  destruct (inv_counters _ _ _ Hinv pf_ok) as [Hfilled _ Hcoll _].
  pose proof (rep_filled_slots _ _ _ _ _ (inv_rep _ _ _ Hinv)) as Hlen.
  rewrite Hf, <-Hlen, <-Hcoll, Hfilled. lia.
Qed.

(** X17.  A bucket, once allocated, is never empty: in every state a slot that
    is not NULL heads a chain of one fill entry at least. *)
Theorem allocated_bucket_is_not_empty s i entries :
  reachable pf n h c sr s →
  table_entries s !! i = Some (Some entries) →
  entries ≠ [].
Proof.
  intros Hreach He.
  destruct (reachable_shape pf n h c sr
              (λ sh, Forall (λ b, ∀ a fs, b = Some (a, fs) → fs ≠ []) sh) s)
    as (_ & sh & Hinv & Hne); [| |done|].
  { intros k. by apply Forall_replicate. }
  { intros sh sh' Hall [->|(j & o & Hn)]; [done|].
    destruct (sh !! j) as [[[b fs]|]|] eqn:Hj; [| |done].
    - destruct Hn as (a & ->). apply Forall_insert; [done|].
      intros ? ? [= <- <-]. by destruct fs; simpl; repeat case_match.
    - destruct Hn as (nb & nf & ->). apply Forall_insert; [done|].
      by intros ? ? [= <- <-]. }
  rewrite (entries_lookup s sh _ Hinv) in He.
  destruct (sh !! i) as [[[a fs]|]|] eqn:Hi; simpl in He; [|done..].
  injection He as <-.
  pose proof (Forall_lookup_1 _ _ _ _ Hne Hi a fs eq_refl) as Hfs.
  by destruct fs.
Qed.

(** *** The tail pointers *)

(** The addresses of a duplicate chain, from [first_duplicate] along
    [next_duplicate], and of a fill chain, from [first_fill] along
    [next_fill]. *)
Fixpoint duplicate_addresses (dm : gmap positive (hash_table_duplicate_t Obj))
    (fuel : nat) (p : option positive) : list positive :=
  match fuel, p with
  | S fuel', Some a =>
    match dm !! a with
    | Some d => a :: duplicate_addresses dm fuel' (next_duplicate d)
    | None => []
    end
  | _, _ => []
  end.

Fixpoint fill_addresses (fm : gmap positive (hash_table_fill_t Obj))
    (fuel : nat) (p : option positive) : list positive :=
  match fuel, p with
  | S fuel', Some a =>
    match fm !! a with
    | Some f => a :: fill_addresses fm fuel' (next_fill f)
    | None => []
    end
  | _, _ => []
  end.

Lemma duplicate_addresses_chain
    (dm : gmap positive (hash_table_duplicate_t Obj))
    (ds : list (positive * Obj)) : ∀ fuel,
  dup_chain dm ds → (length ds ≤ fuel)%nat →
  duplicate_addresses dm fuel (head_addr ds) = ds.*1.
Proof.
  induction ds as [|d ds IH]; intros fuel Hc Hfuel.
  - by destruct fuel.
  - destruct fuel as [|fuel]; [simpl in Hfuel; lia|].
    destruct Hc as [Hd Hc]. simpl. rewrite Hd. simpl.
    rewrite IH; [done|done|simpl in Hfuel; lia].
Qed.

Lemma fill_addresses_chain
    (fm : gmap positive (hash_table_fill_t Obj))
    (dm : gmap positive (hash_table_duplicate_t Obj)) fs : ∀ fuel,
  fill_chain fm dm fs → (length fs ≤ fuel)%nat →
  fill_addresses fm fuel (fa <$> head fs) = fill_addrs fs.
Proof.
  induction fs as [|f fs IH]; intros fuel Hc Hfuel.
  - by destruct fuel.
  - destruct fuel as [|fuel]; [simpl in Hfuel; lia|].
    destruct Hc as (Hf & _ & Hc). simpl. rewrite Hf. simpl.
    rewrite IH; [by rewrite fill_addrs_cons|done|simpl in Hfuel; lia].
Qed.

Lemma fill_chain_lookup
    (fm : gmap positive (hash_table_fill_t Obj))
    (dm : gmap positive (hash_table_duplicate_t Obj)) fs x :
  fill_chain fm dm fs → x ∈ fill_addrs fs →
  ∃ g next, g ∈ fs ∧ fm !! x = Some (fill_node g next).
Proof.
  induction fs as [|f fs IH]; simpl; intros Hc Hx.
  - by apply elem_of_nil in Hx.
  - destruct Hc as (Hf & _ & Hc). rewrite fill_addrs_cons in Hx.
    apply elem_of_cons in Hx as [->|Hx].
    + exists f, (fa <$> head fs). split; [apply list_elem_of_here|done].
    + destruct (IH Hc Hx) as (g & next & Hg & Hl).
      exists g, next. split; [by apply list_elem_of_further|done].
Qed.

(** X18.  The tail pointers are kept right.  In every state, the [last_fill]
    of an allocated bucket is the last fill entry reached from its
    [first_fill], and the [last_duplicate] of an allocated fill entry is
    the last duplicate entry reached from its [first_duplicate] (NULL
    when it has none). *)
Theorem tail_pointers_kept s :
  reachable pf n h c sr s →
  (∀ a bk,
     bucket_mem s !! a = Some bk →
     last_fill bk
     = last (fill_addresses (fill_mem s) (size (fill_mem s))
               (first_fill bk)))
  ∧ (∀ a f,
       fill_mem s !! a = Some f →
       last_duplicate f
       = last (duplicate_addresses (dup_mem s) (size (dup_mem s))
                 (first_duplicate f))).
Proof.
  intros Hreach.
  destruct (reachable_inv pf n h c sr s Hreach) as (_ & sh & Hinv).
  pose proof (inv_rep _ _ _ Hinv) as Hrep.
  split.
  - intros a bk Ha.
    assert (a ∈ all_bucket_addrs sh) as Hin.
    { apply (elem_of_list_to_set (C := gset positive)).
      rewrite <-(inv_bucket_dom _ _ _ Hinv). by apply elem_of_dom. }
    apply list_elem_of_bind in Hin as (b & Hab & Hb).
    destruct b as [[a' fs]|]; simpl in Hab; [|by apply elem_of_nil in Hab].
    apply list_elem_of_singleton in Hab as ->.
    apply list_elem_of_lookup in Hb as [i Hi].
    destruct (Forall2_lookup_r _ _ _ _ _ Hrep Hi)
      as (slot & _ & _ & Hbk & Hc).
    rewrite Ha in Hbk. injection Hbk as ->. simpl.
    rewrite (fill_addresses_chain _ (dup_mem s)); [|done|].
    + unfold fill_addrs. by rewrite fmap_last.
    + pose proof (chain_length_bound pf s sh i a' fs Hinv Hi). lia.
  - intros a f Ha.
    assert (a ∈ all_fill_addrs sh) as Hin.
    { apply (elem_of_list_to_set (C := gset positive)).
      rewrite <-(inv_fill_dom _ _ _ Hinv). by apply elem_of_dom. }
    apply list_elem_of_bind in Hin as (b & Hab & Hb).
    destruct b as [[a' fs]|]; simpl in Hab; [|by apply elem_of_nil in Hab].
    apply list_elem_of_lookup in Hb as [i Hi].
    destruct (Forall2_lookup_r _ _ _ _ _ Hrep Hi)
      as (slot & _ & _ & _ & Hc).
    destruct (fill_chain_lookup _ _ _ _ Hc Hab) as (g & next & Hg & Hl).
    rewrite Ha in Hl. injection Hl as ->. simpl.
    rewrite duplicate_addresses_chain.
    + unfold last_addr. by rewrite fmap_last.
    + by eapply fill_chain_elem.
    + by eapply dup_length_bound.
Qed.

(** X19.  A table of no buckets cannot be used.  [Hash_Table_Init] accepts a
    bucket count of 0; whatever the hash strategy then answers, the first
    access [table->buckets[index]] of [Hash_Table_Insert] and of
    [Hash_Table_Match] lies outside the array. *)
Theorem zero_buckets_unusable live script s o pattern found max :
  Hash_Table_Init pf 0 h c sr live script = Some s →
  Hash_Table_Insert pf o pattern s = Fault BucketIndexOutOfRange
  ∧ Hash_Table_Match pf pattern found max s = Fault BucketIndexOutOfRange.
Proof.
  unfold Hash_Table_Init.
  destruct (calloc_answer pf 1 _ live script) as [[|] script1]; [|done].
  destruct (calloc_answer pf 0 _ _ script1) as [[|] script2]; [|done].
  intros [= <-]. split.
  - apply Hash_Table_Insert_out_of_range. simpl. lia.
  - apply Hash_Table_Match_out_of_range. simpl. lia.
Qed.

End Usage.

(** ** The allocation balance *)

Section Balance.

Context {Obj : Type}.
Variable pf : platform.
Implicit Types (s : state Obj).

(** The live bytes that are not blocks of the table. *)
Definition bytes_elsewhere s : Z := live_bytes s - table_bytes pf s.

(** A computation that allocates what it links and releases what it
    unlinks. *)
Definition balanced {R} (c : M (Obj := Obj) R) : Prop :=
  ∀ s r s', c s = Done r s' → bytes_elsewhere s' = bytes_elsewhere s.

Lemma balanced_ret {R} (r : R) : balanced (ret r).
Proof. by intros s r' s' [= _ <-]. Qed.

Lemma balanced_fail {R} f : balanced (fail (R := R) f).
Proof. by intros s r s'. Qed.

Lemma balanced_get : balanced get.
Proof. by intros s r s' [= _ <-]. Qed.

Lemma balanced_bind {R T} (c : M R) (k : R → M T) :
  balanced c → (∀ r, balanced (k r)) → balanced (x <- c ;; k x).
Proof.
  intros Hc Hk s r s' (r0 & s0 & H0 & H1)%bind_Done.
  rewrite (Hk _ _ _ _ H1). by apply (Hc _ _ _ H0).
Qed.

Lemma balanced_load_bucket a : balanced (load_bucket a).
Proof. by intros s r s' ->%load_bucket_Done. Qed.

Lemma balanced_load_fill a : balanced (load_fill a).
Proof.
  intros s r s'. unfold load_fill, bind, get.
  by destruct (fill_mem s !! a); [intros [= _ <-]|].
Qed.

Lemma balanced_load_duplicate a : balanced (load_duplicate a).
Proof.
  intros s r s'. unfold load_duplicate, bind, get.
  by destruct (dup_mem s !! a); [intros [= _ <-]|].
Qed.

Lemma balanced_read_slot i : balanced (read_slot i).
Proof. by intros s r s' ->%read_slot_Done. Qed.

Lemma balanced_store_bucket a b : balanced (store_bucket a b).
Proof.
  intros s r s'. unfold store_bucket, load_bucket, bind, get.
  destruct (bucket_mem s !! a) eqn:Ha; [|done]. intros [= _ <-].
  unfold bytes_elsewhere, table_bytes. simpl.
  by rewrite map_size_insert_Some by eauto.
Qed.

Lemma balanced_store_fill a f : balanced (store_fill a f).
Proof.
  intros s r s'. unfold store_fill, load_fill, bind, get.
  destruct (fill_mem s !! a) eqn:Ha; [|done]. intros [= _ <-].
  unfold bytes_elsewhere, table_bytes. simpl.
  by rewrite map_size_insert_Some by eauto.
Qed.

Lemma balanced_store_duplicate a d : balanced (store_duplicate a d).
Proof.
  intros s r s'. unfold store_duplicate, load_duplicate, bind, get.
  destruct (dup_mem s !! a) eqn:Ha; [|done]. intros [= _ <-].
  unfold bytes_elsewhere, table_bytes. simpl.
  by rewrite map_size_insert_Some by eauto.
Qed.

Lemma balanced_write_slot i p : balanced (write_slot i p).
Proof.
  intros s r s' (? & ? & ->%read_slot_Done & Hm)%bind_Done.
  by injection Hm as _ <-.
Qed.

Lemma balanced_increment_buckets_filled :
  balanced (increment_buckets_filled pf).
Proof. by intros s r s' [= _ <-]. Qed.

Lemma balanced_increment_collisions : balanced (increment_collisions pf).
Proof. by intros s r s' [= _ <-]. Qed.

Lemma balanced_increment_duplicates : balanced (increment_duplicates pf).
Proof. by intros s r s' [= _ <-]. Qed.

(** A node obtained from [calloc] is a block of the table from then on. *)
Lemma balanced_calloc_bucket : balanced (calloc_bucket pf).
Proof.
  intros s r s'. unfold calloc_bucket, bind at 1. rewrite calloc_eq.
  destruct (after_calloc pf 1 _ s) as [ok s1] eqn:Hac.
  apply after_calloc_spec in Hac as ((Ht & Hb & Hf & Hd) & Hfresh & Hlive).
  cbn [fst snd]. destruct ok; intros [= _ <-];
    unfold bytes_elsewhere, table_bytes; simpl; rewrite ?Ht, ?Hb, ?Hf, ?Hd;
    [|lia].
  rewrite map_size_insert_None
    by (rewrite Hfresh; apply fresh_addr_bucket).
  lia.
Qed.

Lemma balanced_calloc_fill o : balanced (calloc_fill pf o).
Proof.
  intros s r s'. unfold calloc_fill, bind at 1. rewrite calloc_eq.
  destruct (after_calloc pf 1 _ s) as [ok s1] eqn:Hac.
  apply after_calloc_spec in Hac as ((Ht & Hb & Hf & Hd) & Hfresh & Hlive).
  cbn [fst snd]. destruct ok; intros [= _ <-];
    unfold bytes_elsewhere, table_bytes; simpl; rewrite ?Ht, ?Hb, ?Hf, ?Hd;
    [|lia].
  rewrite map_size_insert_None
    by (rewrite Hfresh; apply fresh_addr_fill).
  lia.
Qed.

Lemma balanced_calloc_duplicate o : balanced (calloc_duplicate pf o).
Proof.
  intros s r s'. unfold calloc_duplicate, bind at 1. rewrite calloc_eq.
  destruct (after_calloc pf 1 _ s) as [ok s1] eqn:Hac.
  apply after_calloc_spec in Hac as ((Ht & Hb & Hf & Hd) & Hfresh & Hlive).
  cbn [fst snd]. destruct ok; intros [= _ <-];
    unfold bytes_elsewhere, table_bytes; simpl; rewrite ?Ht, ?Hb, ?Hf, ?Hd;
    [|lia].
  rewrite map_size_insert_None
    by (rewrite Hfresh; apply fresh_addr_dup).
  lia.
Qed.

Ltac balance :=
  repeat first
    [ apply balanced_ret | apply balanced_fail | apply balanced_get
    | apply balanced_load_bucket | apply balanced_load_fill
    | apply balanced_load_duplicate | apply balanced_read_slot
    | apply balanced_store_bucket | apply balanced_store_fill
    | apply balanced_store_duplicate | apply balanced_write_slot
    | apply balanced_increment_buckets_filled
    | apply balanced_increment_collisions
    | apply balanced_increment_duplicates
    | apply balanced_calloc_bucket | apply balanced_calloc_fill
    | apply balanced_calloc_duplicate
    | apply balanced_bind; [|intros ?]
    | progress unfold deref
    | match goal with |- balanced (match ?x with _ => _ end) => destruct x end
    | match goal with |- balanced (if ?x then _ else _) => destruct x end ].

Lemma balanced_insert_walk fuel o : ∀ cur prev,
  balanced (insert_walk pf fuel o cur prev).
Proof.
  induction fuel as [|fuel IH]; intros cur prev; cbn [insert_walk];
    [apply balanced_fail|].
  destruct cur as [a|]; [|apply balanced_ret].
  apply balanced_bind; [apply balanced_get|]. intros s0.
  apply balanced_bind; [apply balanced_load_fill|]. intros cur. cbv zeta.
  destruct (_ =? 0); [balance|].
  destruct (_ <? 0); [apply IH|balance].
Qed.

(** [Hash_Table_Insert] allocates the nodes it links and nothing else, from
    any state: the bucket it cannot give a fill entry is released, and
    every other block it obtains is a node of the table when it returns. *)
Lemma balanced_Hash_Table_Insert o pattern :
  balanced (Hash_Table_Insert pf o pattern).
Proof.
  unfold Hash_Table_Insert.
  apply balanced_bind; [apply balanced_get|]. intros s0. cbv zeta.
  apply balanced_bind; [apply balanced_read_slot|]. intros [b|].
  - apply balanced_bind; [apply balanced_load_bucket|]. intros bk.
    apply balanced_bind; [apply balanced_get|]. intros s1.
    apply balanced_bind; [apply balanced_insert_walk|].
    intros [r|cur prev [|]]; [balance..|].
    apply balanced_bind; [apply balanced_calloc_fill|].
    intros [nf|]; [|balance].
    apply balanced_bind; [balance|]. intros _.
    apply balanced_bind; [balance|]. intros _. balance.
  - intros s r s' Hd.
    apply bind_Done in Hd as (nb & s1 & Hnb & Hd).
    rewrite <-(balanced_calloc_bucket _ _ _ Hnb).
    apply calloc_bucket_Done in Hnb as [[-> _]|(-> & _ & Hb1 & _)];
      [by injection Hd as _ <-|].
    apply bind_Done in Hd as (nf & s2 & Hnf & Hd).
    rewrite <-(balanced_calloc_fill _ _ _ _ Hnf).
    destruct nf as [nf|].
    + revert Hd. generalize s2 r s'. fold (balanced (R := Z)). balance.
    + apply calloc_fill_Done in Hnf as [[_ (Ht2 & Hb2 & Hf2 & Hd2)]|[? ?]];
        [|done].
      unfold free_bucket, bind, modify, release, modify, ret in Hd.
      injection Hd as _ <-.
      unfold bytes_elsewhere, table_bytes. simpl.
      rewrite map_size_delete_Some
        by (rewrite Hb2, Hb1, lookup_insert_eq; eauto).
      assert (0 < size (bucket_mem s2))%nat as Hpos.
      { rewrite Hb2, Hb1, map_size_insert_None by apply fresh_addr_bucket.
        lia. }
      destruct (size (bucket_mem s2)) as [|k]; [lia|].
      rewrite Nat.pred_succ, Nat2Z.inj_succ. lia.
Qed.

Lemma same_table_bytes s s' :
  same_table s s' → table_bytes pf s' = table_bytes pf s.
Proof.
  intros (Ht & Hb & Hf & Hd). unfold table_bytes. by rewrite Ht, Hb, Hf, Hd.
Qed.


End Balance.

(** ** The life of a table *)

Section Lifetime.

Context {Obj : Type}.
Variable pf : platform.
Variables (n : Z) (h : string → Z → Z) (c : Obj → Obj → Z).
Variable (sr : string → Obj → Z).
Implicit Types (s : state Obj).

(** The states of a table created with [live0] bytes live, and used by a
    caller that allocates nothing else and releases each array
    [Hash_Table_Match] returns. *)
Inductive in_use (live0 : Z) : state Obj → Prop :=
| use_init script s :
    0 ≤ n →
    0 ≤ live0 →
    Hash_Table_Init pf n h c sr live0 script = Some s →
    in_use live0 s
| use_insert s o pattern r s' :
    in_use live0 s →
    Hash_Table_Insert pf o pattern s = Done r s' →
    in_use live0 s'
| use_insert_no_duplicate s o pattern found_duplicate r s' :
    in_use live0 s →
    Hash_Table_Insert_No_Duplicate pf o pattern found_duplicate s
    = Done r s' →
    in_use live0 s'
| use_first_match s pattern r s' :
    in_use live0 s →
    Hash_Table_First_Match pf pattern s = Done r s' →
    in_use live0 s'
| use_match s pattern found max r s' :
    in_use live0 s →
    Hash_Table_Match pf pattern found max s = Done r s' →
    in_use live0
      (set_allocator (live_bytes s' - records_bytes pf max r)
         (alloc_script s') s').

Lemma Hash_Table_Init_elsewhere live script s :
  Hash_Table_Init pf n h c sr live script = Some s →
  bytes_elsewhere pf s = live.
Proof.
  unfold Hash_Table_Init.
  destruct (calloc_answer pf 1 _ live script) as [[|] script1]; [|done].
  destruct (calloc_answer pf n _ _ script1) as [[|] script2]; [|done].
  intros [= <-]. unfold bytes_elsewhere, table_bytes. simpl.
  rewrite !map_size_empty. lia.
Qed.

Lemma Hash_Table_Insert_No_Duplicate_balanced s sh o pattern fd r s' :
  1 ≤ ULONG_MAX pf →
  table_inv pf s sh →
  Hash_Table_Insert_No_Duplicate pf o pattern fd s = Done r s' →
  bytes_elsewhere pf s' = bytes_elsewhere pf s.
Proof.
  intros Hone Hinv Hop.
  pose proof (Hash_Table_Insert_No_Duplicate_in_range pf _ _ _ _ _ _ _
                Hinv Hop) as Hi.
  destruct (returns_inv _ _ _ _ _
              (Hash_Table_Insert_No_Duplicate_correct pf Hone s sh o
                 pattern fd Hinv Hi) Hop)
    as [(f & s1 & _ & _ & _ & Hsame & Hl & _)
       |(s1 & i & Hm & Hsame & Hins & _)].
  - unfold bytes_elsewhere. by rewrite (same_table_bytes pf s s'), Hl.
  - rewrite (balanced_Hash_Table_Insert pf o pattern s1 i s' Hins).
    destruct (Hash_Table_Match_same pf _ _ _ _ _ _ _ Hinv Hi Hm)
      as (_ & _ & Hl1 & _).
    unfold records_bytes in Hl1. simpl in Hl1.
    unfold bytes_elsewhere. rewrite (same_table_bytes pf s s1) by done. lia.
Qed.

Lemma in_use_balance live0 s :
  1 ≤ ULONG_MAX pf →
  in_use live0 s →
  reachable pf n h c sr s ∧ bytes_elsewhere pf s = live0.
Proof.
  intros Hone.
  induction 1 as [script s Hn Hlive Hinit
                 |s o pattern r s' _ [Hreach Hbal] Hop
                 |s o pattern fd r s' _ [Hreach Hbal] Hop
                 |s pattern r s' _ [Hreach Hbal] Hop
                 |s pattern found max r s' _ [Hreach Hbal] Hop].
  - split; [by eapply reach_init|]. by eapply Hash_Table_Init_elsewhere.
  - split; [by eapply reach_insert|].
    by rewrite (balanced_Hash_Table_Insert pf o pattern s r s' Hop).
  - split; [by eapply reach_insert_no_duplicate|].
    destruct (reachable_inv pf n h c sr s Hreach) as (_ & sh & Hinv).
    by rewrite (Hash_Table_Insert_No_Duplicate_balanced s sh o pattern fd r s').
  - split; [by eapply reach_first_match|].
    destruct (reachable_inv pf n h c sr s Hreach) as (_ & sh & Hinv).
    destruct (Hash_Table_First_Match_same pf _ _ _ _ _ Hinv Hop)
      as (Hsame & Hl & _).
    unfold bytes_elsewhere. by rewrite (same_table_bytes pf s s'), Hl.
  - destruct (reachable_inv pf n h c sr s Hreach) as (_ & sh & Hinv).
    pose proof (Hash_Table_Match_in_range pf _ _ _ _ _ _ _ Hinv Hop) as Hi.
    destruct (Hash_Table_Match_same pf _ _ _ _ _ _ _ Hinv Hi Hop)
      as (Hsame & Hinv' & Hl & _).
    assert (live_bytes s' - records_bytes pf max r = live_bytes s) as ->
      by lia.
    pose proof (same_table_bytes pf s s' Hsame) as Hb.
    split.
    + apply reach_elsewhere; [by eapply reach_match|].
      rewrite Hb, <-(table_bytes_shape pf s sh Hinv).
      split; [apply (inv_bytes _ _ _ Hinv)|apply (inv_live _ _ _ Hinv)].
    + unfold bytes_elsewhere in *.
      replace (table_bytes pf (set_allocator (live_bytes s) (alloc_script s') s'))
        with (table_bytes pf s') by done.
      simpl. lia.
Qed.

(** X21.  Nothing leaks over the life of a table.  Create a table with [live0]
    bytes live; insert and look up in any order, releasing each array
    [Hash_Table_Match] hands out; then [Hash_Table_Free] ends without a
    fault and exactly [live0] bytes are live again, whatever allocations
    were refused on the way. *)
Theorem no_leak_over_the_life_of_a_table live0 s free_function :
  1 ≤ ULONG_MAX pf →
  n ≤ ULONG_MAX pf →
  in_use live0 s →
  ∃ freed s',
    Hash_Table_Free pf free_function s = Done freed s'
    ∧ live_bytes s' = live0
    ∧ bucket_mem s' = ∅ ∧ fill_mem s' = ∅ ∧ dup_mem s' = ∅.
Proof.
  intros Hone Hn Huse.
  destruct (in_use_balance live0 s Hone Huse) as [Hreach Hbal].
  destruct (reachable_inv pf n h c sr s Hreach)
    as ((_ & _ & _ & Htot) & sh & Hinv).
  destruct (Hash_Table_Free_spec pf free_function s sh Hinv)
    as (freed & s' & Hfree & _ & Hb & Hf & Hd & _ & _ & Hl); [by rewrite Htot|].
  exists freed, s'. split_and!; try done.
  rewrite Hl, (table_bytes_shape pf s sh Hinv). unfold bytes_elsewhere in Hbal.
  lia.
Qed.

End Lifetime.

(** ** Which object a lookup prefers *)

Section Priority.

Context {Obj : Type}.
Variable pf : platform.
Variables (n : Z) (h : string → Z → Z) (c : Obj → Obj → Z).
Variable (sr : string → Obj → Z).
Implicit Types (s : state Obj) (fs : list (fill_shape Obj)).

(** In an ascending chain the entry the search stops at is below every
    other entry the search strategy accepts. *)
Lemma chain_search_first pattern fs f g :
  StronglySorted (before c) fs →
  chain_search sr pattern fs = Some f →
  g ∈ fs →
  sr pattern (fobj g) = 1 →
  g = f ∨ before c f g.
Proof.
  induction 1 as [|a fs Hs IH Ha]; simpl; [done|].
  intros Hf Hg Hacc.
  destruct (Z.eqb_spec (sr pattern (fobj a)) 1) as [Heq|Hne].
  - injection Hf as <-. apply elem_of_cons in Hg as [->|Hg]; [by left|].
    right. rewrite Forall_forall in Ha. by apply Ha.
  - apply elem_of_cons in Hg as [->|Hg]; [done|]. by apply IH.
Qed.

(** X22.  The lookup prefers the least.  Where the compare strategy is a
    consistent order, the object [Hash_Table_First_Match] returns is the
    least of the representatives of its bucket that the search strategy
    accepts: any other accepted representative compares above it. *)
Theorem first_match_is_least_accepted s pattern x s' entries representative
    duplicates :
  consistent_order c →
  1 ≤ ULONG_MAX pf →
  reachable pf n h c sr s →
  Hash_Table_First_Match pf pattern s = Done (Some x) s' →
  table_entries s !! Z.to_nat (h pattern n) = Some (Some entries) →
  (representative, duplicates) ∈ entries →
  sr pattern representative = 1 →
  representative = x ∨ c x representative < 0.
Proof.
  intros Hord Hone Hreach Hop He Hin Hacc.
  destruct (reachable_slot_index pf n h c sr s pattern Hreach) as [Hslot _].
  destruct (reachable_shape pf n h c sr (shape_sorted c) s)
    as ((_ & _ & Hsr & _) & sh & Hinv & Hsorted); [| |done|].
  { apply shape_sorted_init. }
  { intros sh sh'. by apply shape_sorted_next. }
  pose proof (Hash_Table_First_Match_in_range pf _ _ _ _ _ Hinv Hop) as Hi.
  destruct (returns_inv _ _ _ _ _
              (Hash_Table_First_Match_correct pf Hone s sh pattern Hinv Hi)
              Hop) as (_ & _ & _ & Hr).
  rewrite <-Hslot in He.
  destruct (entries_table_lookup pf sr s sh pattern entries Hinv Hsr He)
    as (b & fs & Hsh & -> & _).
  unfold table_lookup in Hr. rewrite Hsh, Hsr in Hr.
  destruct (chain_search sr pattern fs) as [f|] eqn:Hf; [|done].
  destruct (after_calloc pf 1 _ s).1; [|done]. injection Hr as ->.
  apply list_elem_of_fmap in Hin as (g & [= -> ->] & Hg).
  pose proof (Forall_lookup_1 _ _ _ _ Hsorted Hsh) as Hs. simpl in Hs.
  destruct (chain_search_first pattern fs f g Hs Hf Hg Hacc) as [->|Hlt];
    [by left|by right].
Qed.

End Priority.

(** ** A table of records keyed by the sum of the character codes

    Capacity 4 on the LP64 layout.  "emu", "bat" and "ant" hash to slot 3
    with three different keys (collisions); "cat" and "act" have the same
    key (duplicates). *)

Module Example.

Definition record : Type := Z * Z.

Fixpoint key (pattern : string) : Z :=
  match pattern with
  | EmptyString => 0
  | String a rest => Z.of_nat (Ascii.nat_of_ascii a) + key rest
  end.

Definition hash (pattern : string) (max_number : Z) : Z :=
  key pattern mod max_number.

Definition compare (a b : record) : Z := a.1 - b.1.

Definition search (pattern : string) (o : record) : Z :=
  if o.1 =? key pattern then 1 else 0.

Definition after {R} (c : M (Obj := record) R) (s : state record)
  : state record :=
  match c s with
  | Done _ s' => s'
  | Fault _ => s
  end.

Definition table0 : state record :=
  match Hash_Table_Init LP64 4 hash compare search 0 [] with
  | Some s => s
  | None => State (Table [] 0 0 0 0 hash compare search) ∅ ∅ ∅ 0 []
  end.

Definition table1 := after (Hash_Table_Insert LP64 (327, 1) "emu") table0.
Definition table2 := after (Hash_Table_Insert LP64 (311, 2) "bat") table1.
Definition table3 := after (Hash_Table_Insert LP64 (323, 3) "ant") table2.
Definition table4 := after (Hash_Table_Insert LP64 (312, 4) "cat") table3.
Definition table5 := after (Hash_Table_Insert LP64 (312, 5) "act") table4.
Definition table6 := after (Hash_Table_Insert LP64 (312, 6) "cat") table5.

(** [table6] with the next [calloc] refused. *)
Definition table6_refusing : state record :=
  set_allocator (live_bytes table6) [false] table6.

(** A table whose hash strategy answers the bucket count itself. *)
Definition unchecked_table : state record :=
  match Hash_Table_Init LP64 4 (λ _ max_number, max_number) compare search
          0 [] with
  | Some s => s
  | None => table0
  end.

Lemma LP64_ok : platform_ok LP64.
Proof. split; vm_compute; done. Qed.

Lemma compare_consistent : consistent_order compare.
Proof. split; unfold compare; intros; lia. Qed.

(** The inserts that led to [table6], latest first.  "act" and "cat" hash
    to the same bucket and their objects compare equal: four of the six
    brought a key of their own, two a key already stored. *)
Definition table6_inserts : list (record * string) :=
  [((312, 6), "cat"); ((312, 5), "act"); ((312, 4), "cat");
   ((323, 3), "ant"); ((311, 2), "bat"); ((327, 1), "emu")].

Lemma compare_key_order : key_order compare.
Proof.
  split; [exact compare_consistent|unfold compare; intros; lia..].
Qed.

Lemma table6_history :
  history LP64 4 hash compare search table6_inserts table6.
Proof.
  apply (history_insert LP64 4 hash compare search
           [((312, 5), "act"); ((312, 4), "cat"); ((323, 3), "ant");
            ((311, 2), "bat"); ((327, 1), "emu")]
           table5 (312, 6) "cat" 1 table6); [|vm_compute; reflexivity].
  apply (history_insert LP64 4 hash compare search
           [((312, 4), "cat"); ((323, 3), "ant"); ((311, 2), "bat");
            ((327, 1), "emu")]
           table4 (312, 5) "act" 1 table5); [|vm_compute; reflexivity].
  apply (history_insert LP64 4 hash compare search
           [((323, 3), "ant"); ((311, 2), "bat"); ((327, 1), "emu")]
           table3 (312, 4) "cat" 1 table4); [|vm_compute; reflexivity].
  apply (history_insert LP64 4 hash compare search
           [((311, 2), "bat"); ((327, 1), "emu")]
           table2 (323, 3) "ant" 1 table3); [|vm_compute; reflexivity].
  apply (history_insert LP64 4 hash compare search [((327, 1), "emu")]
           table1 (311, 2) "bat" 1 table2); [|vm_compute; reflexivity].
  apply (history_insert LP64 4 hash compare search []
           table0 (327, 1) "emu" 1 table1); [|vm_compute; reflexivity].
  apply (history_init LP64 4 hash compare search 0 []);
    [done|done|vm_compute; reflexivity].
Qed.

Lemma table6_reachable : reachable LP64 4 hash compare search table6.
Proof. exact (history_reachable _ _ _ _ _ _ _ table6_history). Qed.

Lemma unchecked_table_reachable :
  reachable LP64 4 (λ _ max_number, max_number) compare search
    unchecked_table.
Proof.
  eapply (reach_init _ _ _ _ _ 0 []); [done|done|vm_compute; reflexivity].
Qed.

(** The scenario: three fill entries in slot 3, in ascending order, and one
    in slot 0 with two duplicates, in the order of their insertion. *)
Example table6_entries :
  table_entries table6
  = [Some [((312, 4), [(312, 5); (312, 6)])]; None; None;
     Some [((311, 2), []); ((323, 3), []); ((327, 1), [])]].
Proof. vm_compute. reflexivity. Qed.

Example table6_counters :
  number_of_buckets_filled (table table6) = 2
  ∧ number_of_collisions (table table6) = 2
  ∧ number_of_duplicates (table table6) = 2.
Proof. vm_compute. done. Qed.

Example table6_match_cat :
  Hash_Table_Match LP64 "cat" 0 5 table6
  = Done (Some [Some (312, 4); Some (312, 5); Some (312, 6); None; None], 3)
      (set_allocator (live_bytes table6 + 40) [] table6).
Proof. vm_compute. reflexivity. Qed.

Example table6_match_cat_capped :
  Hash_Table_Match LP64 "cat" 0 2 table6
  = Done (Some [Some (312, 4); Some (312, 5)], 2)
      (set_allocator (live_bytes table6 + 16) [] table6).
Proof. vm_compute. reflexivity. Qed.

(** C2, where the code departs from it.  "cat" has a representative and
    two duplicates in [table6].  Asked for at most 0 records,
    [Hash_Table_Match] obtains an array of no cells and stores the
    representative in [found_records[0]], outside that array; the
    specification says the call returns no object. *)
Theorem match_zero_records_faults :
  Hash_Table_Match LP64 "cat" 0 0 table6 = Fault RecordIndexOutOfRange.
Proof. vm_compute. reflexivity. Qed.

(** C7, where the code departs from it.  "hen" hashes to slot 3 of
    [table6], whose three fill entries the search strategy rejects.
    [Hash_Table_Match] returns NULL and leaves [*number_of_objects_found]
    at the 7 it held on entry; the specification says it is set to zero. *)
Theorem match_miss_keeps_count :
  Hash_Table_Match LP64 "hen" 7 3 table6 = Done (None, 7) table6.
Proof. vm_compute. reflexivity. Qed.

(** The empty-bucket path does set the counter to zero. *)
Example match_empty_bucket_resets_count :
  Hash_Table_Match LP64 "dog" 7 3 table6 = Done (None, 0) table6.
Proof. vm_compute. reflexivity. Qed.

Lemma fill_chains_ascending_witness :
  let entries : list (record * list record) :=
    [((311, 2), []); ((323, 3), []); ((327, 1), [])] in
  StronglySorted (λ x y, compare x y < 0) entries.*1
  ∧ (∀ j k x y, j ≠ k → entries.*1 !! j = Some x → entries.*1 !! k = Some y →
                compare x y ≠ 0)
  ∧ (∀ representative duplicates d,
       (representative, duplicates) ∈ entries → d ∈ duplicates →
       compare representative d = 0).
Proof.
  apply (fill_chains_ascending LP64 4 hash compare search table6 3).
  - exact compare_consistent.
  - exact table6_reachable.
  - vm_compute. reflexivity.
Defined.

(** The allocator of [table6] grants the fill node "hen" needs; the one
    of [table6_refusing] refuses it. *)
Example table6_grants :
  insert_granted LP64 compare table6 (Z.to_nat (hash "hen" 4)) (315, 7)
  = true.
Proof. vm_compute. reflexivity. Qed.

Example table6_refusing_refuses :
  insert_granted LP64 compare table6_refusing (Z.to_nat (hash "hen" 4))
    (315, 7)
  = false.
Proof. vm_compute. reflexivity. Qed.

Lemma insert_refines_specification_witness :
  insert_granted LP64 compare table6 (Z.to_nat (hash "hen" 4)) (315, 7)
  = true
  ∧ ∃ r s',
      Hash_Table_Insert LP64 (315, 7) "hen" table6 = Done r s'
      ∧ if insert_granted LP64 compare table6 (Z.to_nat (hash "hen" 4))
             (315, 7)
        then r = 1
             ∧ observe s'
               = spec_insert compare (Z.to_nat (hash "hen" 4)) (315, 7)
                   (observe table6)
        else r = 0 ∧ observe s' = observe table6.
Proof.
  split; [vm_compute; reflexivity|].
  apply (insert_refines_specification LP64 4 hash compare search).
  - exact LP64_ok.
  - exact table6_reachable.
  - vm_compute. split; congruence.
Defined.

Example table6_inserts_by_kind :
  distinct_key_inserts 4 hash compare table6_inserts = 4%nat
  ∧ duplicate_key_inserts 4 hash compare table6_inserts = 2%nat.
Proof. vm_compute. done. Qed.

Lemma counters_count_entries_witness :
  (number_of_buckets_filled (table table6)
   + number_of_collisions (table table6)
   = Z.of_nat (size (fill_mem table6))
   ∧ number_of_duplicates (table table6) = Z.of_nat (size (dup_mem table6))
   ∧ size (fill_mem table6) = fill_entry_count (table_entries table6)
   ∧ size (dup_mem table6) = duplicate_entry_count (table_entries table6))
  ∧ number_of_buckets_filled (table table6)
    + number_of_collisions (table table6)
    + number_of_duplicates (table table6)
    = Z.of_nat (length table6_inserts)
  ∧ number_of_buckets_filled (table table6)
    + number_of_collisions (table table6)
    = Z.of_nat (distinct_key_inserts 4 hash compare table6_inserts)
  ∧ number_of_duplicates (table table6)
    = Z.of_nat (duplicate_key_inserts 4 hash compare table6_inserts).
Proof.
  destruct (counters_count_entries LP64 4 hash compare search LP64_ok)
    as (_ & Hnodes & Hinserts).
  split; [apply Hnodes; exact table6_reachable|].
  destruct (Hinserts table6_inserts table6 table6_history)
    as [Htotal Hkinds].
  split; [exact Htotal|]. apply Hkinds. exact compare_key_order.
Defined.

Lemma insert_no_duplicate_cases_witness :
  ∃ m s1 r s',
    Hash_Table_Match LP64 "cat" 0 1 table6 = Done m s1
    ∧ Hash_Table_Insert_No_Duplicate LP64 (312, 9) "cat" None table6
      = Done r s'
    ∧ ((m.2 = 0
        ∧ ∃ i, Hash_Table_Insert LP64 (312, 9) "cat" s1 = Done i s'
               ∧ ((i = 1 ∧ r = (1, None)) ∨ (i = 0 ∧ r = (-1, None))))
       ∨ (m.2 ≠ 0
          ∧ ∃ representative duplicates entries,
              table_entries table6 !! Z.to_nat (hash "cat" 4)
              = Some (Some entries)
              ∧ spec_search search "cat" entries
                = Some (representative, duplicates)
              ∧ m.1 = Some [Some representative]
              ∧ r = (0, Some representative)
              ∧ same_table table6 s')).
Proof.
  apply (insert_no_duplicate_cases LP64 4 hash compare search).
  - vm_compute. congruence.
  - exact table6_reachable.
  - vm_compute. split; congruence.
Defined.

Lemma failed_insert_unchanged_witness :
  let s' := after (Hash_Table_Insert LP64 (315, 7) "hen") table6_refusing in
  table s' = table table6_refusing
  ∧ bucket_mem s' = bucket_mem table6_refusing
  ∧ fill_mem s' = fill_mem table6_refusing
  ∧ dup_mem s' = dup_mem table6_refusing.
Proof.
  apply (failed_insert_unchanged LP64 (315, 7) "hen").
  vm_compute. reflexivity.
Defined.

Lemma first_match_is_match_one_witness :
  ∃ m s1 r s',
    Hash_Table_Match LP64 "cat" 0 1 table6 = Done m s1
    ∧ Hash_Table_First_Match LP64 "cat" table6 = Done r s'
    ∧ same_table table6 s'
    ∧ ((m.1 = None ∧ r = None)
       ∨ (∃ representative duplicates entries,
            table_entries table6 !! Z.to_nat (hash "cat" 4)
            = Some (Some entries)
            ∧ spec_search search "cat" entries
              = Some (representative, duplicates)
            ∧ m = (Some [Some representative], 1)
            ∧ r = Some representative)).
Proof.
  apply (first_match_is_match_one LP64 4 hash compare search).
  - vm_compute. congruence.
  - exact table6_reachable.
  - vm_compute. split; congruence.
Defined.

Lemma size_never_decreases_witness :
  (∀ o pattern r s',
     Hash_Table_Insert LP64 o pattern table6 = Done r s' →
     Hash_Table_Size LP64 (table table6) ≤ Hash_Table_Size LP64 (table s'))
  ∧ (∀ o pattern found_duplicate r s',
       Hash_Table_Insert_No_Duplicate LP64 o pattern found_duplicate table6
       = Done r s' →
       Hash_Table_Size LP64 (table table6)
       ≤ Hash_Table_Size LP64 (table s')).
Proof.
  apply (size_never_decreases LP64 4 hash compare search).
  - exact LP64_ok.
  - exact table6_reachable.
Defined.

Lemma bucket_access_in_bounds_witness :
  ((∃ r s', Hash_Table_Insert LP64 (315, 7) "hen" table6 = Done r s')
   ∧ Hash_Table_Match LP64 "hen" 0 1 table6 ≠ Fault BucketIndexOutOfRange)
  ∧ (Hash_Table_Insert LP64 (315, 7) "hen" unchecked_table
     = Fault BucketIndexOutOfRange
     ∧ Hash_Table_Match LP64 "hen" 0 1 unchecked_table
       = Fault BucketIndexOutOfRange).
Proof.
  split.
  - apply (bucket_access_in_bounds LP64 4 hash compare search).
    + exact table6_reachable.
    + vm_compute. split; congruence.
  - apply (bucket_access_in_bounds LP64 4 (λ _ max_number, max_number)
             compare search).
    + exact unchecked_table_reachable.
    + vm_compute. intros [_ Hlt]. congruence.
Defined.

(** *** The table after one more insertion, and a table of no buckets *)

Definition table7 : state record :=
  after (Hash_Table_Insert LP64 (315, 7) "hen") table6.

Definition table1_unique : state record :=
  after (Hash_Table_Insert_No_Duplicate LP64 (327, 1) "emu" None) table0.

Definition no_buckets_table : state record :=
  match Hash_Table_Init LP64 0 hash compare search 0 [] with
  | Some s => s
  | None => table0
  end.

Lemma table0_reachable : reachable LP64 4 hash compare search table0.
Proof.
  eapply (reach_init _ _ _ _ _ 0 []); [done|done|vm_compute; reflexivity].
Qed.

Lemma table6_refusing_reachable :
  reachable LP64 4 hash compare search table6_refusing.
Proof.
  apply reach_elsewhere; [exact table6_reachable|].
  vm_compute. split; congruence.
Qed.

Lemma table6_in_use : in_use LP64 4 hash compare search 0 table6.
Proof.
  eapply (use_insert _ _ _ _ _ _ table5 (312, 6) "cat" 1);
    [|vm_compute; reflexivity].
  eapply (use_insert _ _ _ _ _ _ table4 (312, 5) "act" 1);
    [|vm_compute; reflexivity].
  eapply (use_insert _ _ _ _ _ _ table3 (312, 4) "cat" 1);
    [|vm_compute; reflexivity].
  eapply (use_insert _ _ _ _ _ _ table2 (323, 3) "ant" 1);
    [|vm_compute; reflexivity].
  eapply (use_insert _ _ _ _ _ _ table1 (311, 2) "bat" 1);
    [|vm_compute; reflexivity].
  eapply (use_insert _ _ _ _ _ _ table0 (327, 1) "emu" 1);
    [|vm_compute; reflexivity].
  eapply (use_init _ _ _ _ _ _ []); [done|done|vm_compute; reflexivity].
Qed.

Lemma hen_key (x : record) : search "hen" x = 1 ↔ compare x (315, 7) = 0.
Proof.
  unfold search, compare. cbn [fst].
  replace (key "hen") with 315 by (vm_compute; reflexivity).
  destruct (Z.eqb_spec x.1 315); split; intros; try done; lia.
Qed.

Lemma emu_key (x : record) : search "emu" x = 1 ↔ compare x (327, 1) = 0.
Proof.
  unfold search, compare. cbn [fst].
  replace (key "emu") with 327 by (vm_compute; reflexivity).
  destruct (Z.eqb_spec x.1 327); split; intros; try done; lia.
Qed.

Example table6_freed :
  Hash_Table_Free LP64 true table6
  = Done [(312, 5); (312, 6); (312, 4); (311, 2); (323, 3); (327, 1)]
      (State (table table6) ∅ ∅ ∅ 0 []).
Proof. vm_compute. reflexivity. Qed.

Lemma free_releases_the_table_witness :
  ∃ freed s',
    Hash_Table_Free LP64 true table6 = Done freed s'
    ∧ bucket_mem s' = ∅ ∧ fill_mem s' = ∅ ∧ dup_mem s' = ∅
    ∧ live_bytes s' = live_bytes table6 - table_bytes LP64 table6.
Proof.
  apply (free_releases_the_table LP64 4 hash compare search table6 true).
  - exact table6_reachable.
  - vm_compute. congruence.
Defined.

Lemma free_hands_over_every_object_witness :
  (∃ s', Hash_Table_Free LP64 true table6
         = Done (freed_order (table_entries table6)) s')
  ∧ (∃ s', Hash_Table_Free LP64 false table6 = Done [] s')
  ∧ freed_order (table_entries table6)
    ≡ₚ stored_objects (table_entries table6).
Proof.
  apply (free_hands_over_every_object LP64 4 hash compare search table6).
  - exact table6_reachable.
  - vm_compute. congruence.
Defined.

Lemma match_only_reads_witness :
  let s' := set_allocator (live_bytes table6 + 40) [] table6 in
  same_table table6 s'
  ∧ live_bytes s'
    = live_bytes table6
      + records_bytes LP64 5
          (Some [Some (312, 4); Some (312, 5); Some (312, 6); None; None], 3).
Proof.
  apply (match_only_reads LP64 4 hash compare search table6 "cat" 0 5).
  - exact table6_reachable.
  - vm_compute. reflexivity.
Defined.

Lemma match_stays_in_array_witness :
  ∃ r s',
    Hash_Table_Match LP64 "cat" 7 2 table6 = Done r s'
    ∧ ∀ recs, r.1 = Some recs → Z.of_nat (length recs) = 2.
Proof.
  apply (match_stays_in_array LP64 4 hash compare search table6 "cat" 7 2).
  - exact table6_reachable.
  - vm_compute. split; congruence.
  - lia.
  - vm_compute. split; congruence.
Defined.

Lemma match_returns_the_group_witness :
  Hash_Table_Match LP64 "cat" 0 5 table6
  = Done (Some (match_records (Z.to_nat 5)
                  ((312, 4) :: [(312, 5); (312, 6)])),
          Z.of_nat (min (Z.to_nat 5) (S (length [(312, 5); (312, 6)]))))
      (set_allocator (live_bytes table6 + 40) [] table6).
Proof.
  apply (match_returns_the_group LP64 4 hash compare search table6 "cat" 5
           [((312, 4), [(312, 5); (312, 6)])]).
  - exact table6_reachable.
  - vm_compute. split; congruence.
  - vm_compute. reflexivity.
  - vm_compute. reflexivity.
  - vm_compute. split; congruence.
  - vm_compute. reflexivity.
Defined.

Lemma match_finds_nothing_witness :
  Hash_Table_Match LP64 "dog" 7 3 table6 = Done (None, 0) table6
  ∧ Hash_Table_Match LP64 "hen" 7 3 table6 = Done (None, 7) table6.
Proof.
  split.
  - apply (match_finds_nothing LP64 4 hash compare search table6 "dog" 7 3).
    + exact table6_reachable.
    + vm_compute. split; congruence.
    + vm_compute. reflexivity.
  - apply (proj2 (match_finds_nothing LP64 4 hash compare search table6
                    "hen" 7 3 table6_reachable
                    ltac:(vm_compute; split; congruence))
             [((311, 2), []); ((323, 3), []); ((327, 1), [])]).
    + vm_compute. reflexivity.
    + vm_compute. reflexivity.
Defined.

Lemma refused_array_reads_as_missing_witness :
  Hash_Table_Match LP64 "cat" 7 3 table6_refusing
  = Done (None, 7)
      (set_allocator (live_bytes table6_refusing) [] table6_refusing)
  ∧ Hash_Table_First_Match LP64 "cat" table6_refusing
    = Done None
        (set_allocator (live_bytes table6_refusing) [] table6_refusing).
Proof.
  apply (refused_array_reads_as_missing LP64 4 hash compare search
           table6_refusing "cat" 7 3 [((312, 4), [(312, 5); (312, 6)])]
           ((312, 4), [(312, 5); (312, 6)])).
  - exact table6_refusing_reachable.
  - vm_compute. split; congruence.
  - vm_compute. reflexivity.
  - vm_compute. reflexivity.
  - vm_compute. reflexivity.
Defined.

Lemma insert_no_duplicate_after_refusal_witness :
  ∃ i s',
    Hash_Table_Insert LP64 (312, 9) "cat"
      (set_allocator (live_bytes table6_refusing) [] table6_refusing)
    = Done i s'
    ∧ Hash_Table_Insert_No_Duplicate LP64 (312, 9) "cat" None
        table6_refusing
      = Done (if i =? 0 then -1 else 1, None) s'.
Proof.
  apply (insert_no_duplicate_after_refusal LP64 4 hash compare search
           table6_refusing (312, 9) "cat" None
           [((312, 4), [(312, 5); (312, 6)])]
           ((312, 4), [(312, 5); (312, 6)])).
  - exact table6_refusing_reachable.
  - vm_compute. split; congruence.
  - vm_compute. reflexivity.
  - vm_compute. reflexivity.
  - vm_compute. reflexivity.
Defined.

Lemma lookup_array_is_released_witness :
  (∀ pattern r s',
     Hash_Table_First_Match LP64 pattern table6 = Done r s' →
     same_table table6 s' ∧ live_bytes s' = live_bytes table6)
  ∧ (∀ o pattern found_duplicate r s',
       Hash_Table_Insert_No_Duplicate LP64 o pattern found_duplicate table6
       = Done r s' →
       r.1 = 0 →
       same_table table6 s' ∧ live_bytes s' = live_bytes table6).
Proof.
  apply (lookup_array_is_released LP64 4 hash compare search).
  exact table6_reachable.
Defined.

Lemma failed_insert_keeps_no_block_witness :
  (∀ o pattern s',
     Hash_Table_Insert LP64 o pattern table6_refusing = Done 0 s' →
     live_bytes s' = live_bytes table6_refusing)
  ∧ (∀ o pattern found_duplicate r s',
       Hash_Table_Insert_No_Duplicate LP64 o pattern found_duplicate
         table6_refusing
       = Done r s' →
       r.1 = -1 →
       same_table table6_refusing s'
       ∧ live_bytes s' = live_bytes table6_refusing).
Proof.
  destruct (failed_insert_keeps_no_block LP64 4 hash compare search
              table6_refusing table6_refusing_reachable) as [Hinsert Hunique].
  split; [exact Hinsert|]. apply Hunique. vm_compute. congruence.
Defined.

Lemma strategies_never_change_witness :
  hash_function (table table6) = hash
  ∧ compare_function (table table6) = compare
  ∧ search_function (table table6) = search
  ∧ number_of_total_buckets (table table6) = 4
  ∧ Z.of_nat (length (buckets (table table6))) = 4.
Proof.
  apply (strategies_never_change LP64 4 hash compare search).
  exact table6_reachable.
Defined.

Lemma insert_keeps_every_object_witness :
  (1 = 1
   ∧ stored_objects (table_entries table7)
     ≡ₚ (315, 7) :: stored_objects (table_entries table6))
  ∨ (1 = 0 ∧ table_entries table7 = table_entries table6).
Proof.
  apply (insert_keeps_every_object LP64 4 hash compare search table6
           (315, 7) "hen" 1 table7).
  - exact table6_reachable.
  - vm_compute. reflexivity.
Defined.

Lemma insert_then_match_witness :
  ∃ representative duplicates,
    Hash_Table_Match LP64 "hen" 0 2 table7
    = Done (Some (match_records (Z.to_nat 2)
                    (representative :: duplicates)),
            Z.of_nat (min (Z.to_nat 2) (S (length duplicates))))
        (set_allocator (live_bytes table7 + 16) [] table7)
    ∧ compare representative (315, 7) = 0
    ∧ last (representative :: duplicates) = Some (315, 7).
Proof.
  apply (insert_then_match LP64 4 hash compare search table6 (315, 7) "hen"
           table7 2).
  - exact table6_reachable.
  - vm_compute. reflexivity.
  - vm_compute. reflexivity.
  - exact hen_key.
  - vm_compute. split; congruence.
  - vm_compute. reflexivity.
Defined.

Lemma insert_no_duplicate_twice_witness :
  ∃ representative s'',
    Hash_Table_Insert_No_Duplicate LP64 (327, 8) "emu" None table1_unique
    = Done (0, Some representative) s''
    ∧ compare representative (327, 1) = 0
    ∧ same_table table1_unique s''.
Proof.
  apply (insert_no_duplicate_twice LP64 4 hash compare search table0
           (327, 1) "emu" None None table1_unique (327, 8) None
           (set_allocator (live_bytes table1_unique + 8) [] table1_unique)).
  - vm_compute. congruence.
  - exact table0_reachable.
  - vm_compute. reflexivity.
  - vm_compute. reflexivity.
  - exact emu_key.
  - vm_compute. reflexivity.
Defined.

Lemma size_is_the_bytes_held_witness :
  Hash_Table_Size LP64 (table table6) = table_bytes LP64 table6.
Proof.
  apply (size_is_the_bytes_held LP64 4 hash compare search).
  - exact LP64_ok.
  - exact table6_reachable.
Defined.

Lemma buckets_filled_counts_slots_witness :
  number_of_buckets_filled (table table6)
  = Z.of_nat (length (filter is_Some (buckets (table table6))))
  ∧ number_of_collisions (table table6)
    = Z.of_nat (size (fill_mem table6))
      - Z.of_nat (length (filter is_Some (buckets (table table6)))).
Proof.
  apply (buckets_filled_counts_slots LP64 4 hash compare search).
  - exact LP64_ok.
  - exact table6_reachable.
Defined.

Lemma allocated_bucket_is_not_empty_witness :
  [((311, 2), []); ((323, 3), []); ((327, 1), [])]
  ≠ ([] : list (record * list record)).
Proof.
  apply (allocated_bucket_is_not_empty LP64 4 hash compare search table6 3).
  - exact table6_reachable.
  - vm_compute. reflexivity.
Defined.

Lemma tail_pointers_kept_witness :
  (∀ a bk,
     bucket_mem table6 !! a = Some bk →
     last_fill bk
     = last (fill_addresses (fill_mem table6) (size (fill_mem table6))
               (first_fill bk)))
  ∧ (∀ a f,
       fill_mem table6 !! a = Some f →
       last_duplicate f
       = last (duplicate_addresses (dup_mem table6) (size (dup_mem table6))
                 (first_duplicate f))).
Proof.
  apply (tail_pointers_kept LP64 4 hash compare search).
  exact table6_reachable.
Defined.

Lemma zero_buckets_unusable_witness :
  Hash_Table_Insert LP64 (312, 4) "cat" no_buckets_table
  = Fault BucketIndexOutOfRange
  ∧ Hash_Table_Match LP64 "cat" 0 1 no_buckets_table
    = Fault BucketIndexOutOfRange.
Proof.
  apply (zero_buckets_unusable LP64 hash compare search 0 []).
  vm_compute. reflexivity.
Defined.


Lemma no_leak_over_the_life_of_a_table_witness :
  ∃ freed s',
    Hash_Table_Free LP64 true table6 = Done freed s'
    ∧ live_bytes s' = 0
    ∧ bucket_mem s' = ∅ ∧ fill_mem s' = ∅ ∧ dup_mem s' = ∅.
Proof.
  apply (no_leak_over_the_life_of_a_table LP64 4 hash compare search 0
           table6 true).
  - vm_compute. congruence.
  - vm_compute. congruence.
  - exact table6_in_use.
Defined.

(** A search strategy that accepts every object of the bucket, and a
    table built with it that holds "emu" and "bat" in slot 3. *)
Definition search_all (pattern : string) (o : record) : Z := 1.

Definition open_table0 : state record :=
  match Hash_Table_Init LP64 4 hash compare search_all 0 [] with
  | Some s => s
  | None => table0
  end.

Definition open_table1 :=
  after (Hash_Table_Insert LP64 (327, 1) "emu") open_table0.
Definition open_table2 :=
  after (Hash_Table_Insert LP64 (311, 2) "bat") open_table1.

Lemma open_table2_reachable :
  reachable LP64 4 hash compare search_all open_table2.
Proof.
  eapply (reach_insert _ _ _ _ _ open_table1 (311, 2) "bat" 1);
    [|vm_compute; reflexivity].
  eapply (reach_insert _ _ _ _ _ open_table0 (327, 1) "emu" 1);
    [|vm_compute; reflexivity].
  eapply (reach_init _ _ _ _ _ 0 []); [done|done|vm_compute; reflexivity].
Qed.

(** Both entries of slot 3 are accepted; the lookup of "emu" answers the
    object stored under "bat", the lower one. *)
Example open_table2_first_match :
  table_entries open_table2 !! 3%nat
  = Some (Some [((311, 2), []); ((327, 1), [])])
  ∧ search_all "emu" (311, 2) = 1 ∧ search_all "emu" (327, 1) = 1
  ∧ ∃ s', Hash_Table_First_Match LP64 "emu" open_table2
          = Done (Some (311, 2)) s'.
Proof. split_and!; [vm_compute; reflexivity..|]. eexists. vm_compute. reflexivity. Qed.

Lemma first_match_is_least_accepted_witness :
  ((327, 1) : record) = (311, 2) ∨ compare (311, 2) (327, 1) < 0.
Proof.
  apply (first_match_is_least_accepted LP64 4 hash compare search_all
           open_table2 "emu" (311, 2)
           (after (Hash_Table_First_Match LP64 "emu") open_table2)
           [((311, 2), []); ((327, 1), [])] (327, 1) []).
  - exact compare_consistent.
  - vm_compute. congruence.
  - exact open_table2_reachable.
  - vm_compute. reflexivity.
  - vm_compute. reflexivity.
  - apply list_elem_of_further, list_elem_of_here.
  - reflexivity.
Defined.

End Example.
